(** * ytt: duration parsing, catalogue aggregation and credential refresh

    A shallow embedding of the Go sources of [n2p5/ytt]
    ([internal/youtube/videos.go], [internal/youtube/client.go],
    [internal/youtube/transcripts.go]) together with the properties its
    design document states about them.

    Conventions.
    - A Go [string] is a sequence of bytes: [list ascii] inside the
      algorithms, [string] at the interfaces.
    - A Go [int] is a 64-bit two's complement integer: a [Z] together with
      the wrap-around [Int.wrap] written out at every arithmetic operation.
    - What [ListVideos] returns, of type [([]VideoInfo, error)], is a pair
      of options in which [None] stands for [nil]; the outcome of a remote
      call and of the functions of [client.go] is the value or the error.
    - A call to the outside (the video API, the token endpoint, the file
      system, the browser) reads and changes an explicit state of the
      world, and what went over the wire is kept in a trace. *)

From Stdlib Require Import ZArith Bool Ascii String List Lia Arith Permutation.
Import ListNotations.

Local Open Scope Z_scope.

(** ** Machine integers *)

Module Int.

Definition bits : Z := 64.
Definition modulus : Z := 2 ^ bits.
Definition half : Z := 2 ^ (bits - 1).
Definition max_int : Z := half - 1.
Definition min_int : Z := - half.

(** The value a 64-bit signed register holds after an operation whose
    mathematical result is [z]. *)
Definition wrap (z : Z) : Z := (z + half) mod modulus - half.

Definition add (a b : Z) : Z := wrap (a + b).
Definition mul (a b : Z) : Z := wrap (a * b).

Definition in_range (z : Z) : Prop := min_int <= z <= max_int.

Lemma wrap_in_range z : in_range (wrap z).
Proof.
  unfold in_range, wrap, min_int, max_int.
  assert (H : 0 <= (z + half) mod modulus < modulus)
    by (apply Z.mod_pos_bound; reflexivity).
  assert (modulus = 2 * half) by reflexivity.
  lia.
Qed.

Lemma wrap_small z : in_range z -> wrap z = z.
Proof.
  unfold in_range, wrap, min_int, max_int. intros H.
  assert (modulus = 2 * half) by reflexivity.
  rewrite Z.mod_small by lia. lia.
Qed.

Lemma in_range_bounds z :
  -9223372036854775808 <= z <= 9223372036854775807 -> in_range z.
Proof.
  intros H. unfold in_range.
  change min_int with (-9223372036854775808).
  change max_int with 9223372036854775807. exact H.
Qed.

End Int.

(** ** [videos.go]: ParseDuration and isShort *)

Module Duration.

Definition byte_of (c : ascii) : Z := Z.of_nat (nat_of_ascii c).

(** [d[i] >= '0' && d[i] <= '9'] *)
Definition is_digit (c : ascii) : bool :=
  (48 <=? byte_of c) && (byte_of c <=? 57).

(** [int(d[j]-'0')]: the subtraction is on bytes. *)
Definition digit_of (c : ascii) : Z := (byte_of c - 48) mod 256.

(** The inner scan [for i < len(d) && d[i] >= '0' && d[i] <= '9' { i++ }]:
    the index it stops at. *)
Fixpoint digit_run (d : list ascii) : nat :=
  match d with
  | c :: d' => if is_digit c then S (digit_run d') else O
  | [] => O
  end.

(** [val := 0; for j := 0; j < i; j++ { val = val*10 + int(d[j]-'0') }]
    over the bytes [d[0..i)]. *)
Definition digits_value (ds : list ascii) : Z :=
  fold_left (fun val c => Int.add (Int.mul val 10) (digit_of c)) ds 0.

(** The three accumulators [hours], [minutes], [seconds]. *)
Record hms := HMS { hours : Z; minutes : Z; seconds : Z }.

(** [switch d[i] { case 'H': hours = val; case 'M': minutes = val;
    case 'S': seconds = val }] *)
Definition assign (u : ascii) (val : Z) (a : hms) : hms :=
  if Ascii.eqb u "H" then HMS val (minutes a) (seconds a)
  else if Ascii.eqb u "M" then HMS (hours a) val (seconds a)
  else if Ascii.eqb u "S" then HMS (hours a) (minutes a) val
  else a.

(** The loop [for len(d) > 0 { ... d = d[i+1:] }].  Every iteration that
    does not break removes at least two bytes of [d], so [length d]
    iterations are always enough (see [parse_loop_fuel]). *)
Fixpoint parse_loop (fuel : nat) (d : list ascii) (a : hms) : hms :=
  match fuel with
  | O => a
  | S fuel' =>
      match d with
      | [] => a
      | _ :: _ =>
          let i := digit_run d in
          if (Nat.eqb i 0 || Nat.leb (length d) i)%bool then a
          else
            let val := digits_value (firstn i d) in
            let a' := assign (nth i d zero) val a in
            parse_loop fuel' (skipn (i + 1) d) a'
      end
  end.

(** [hours*3600 + minutes*60 + seconds] *)
Definition total (a : hms) : Z :=
  Int.add (Int.add (Int.mul (hours a) 3600) (Int.mul (minutes a) 60)) (seconds a).

(** [strings.HasPrefix(s, prefix)] *)
Fixpoint HasPrefix (s prefix : list ascii) {struct prefix} : bool :=
  match prefix, s with
  | [], _ => true
  | p :: prefix', c :: s' => Ascii.eqb c p && HasPrefix s' prefix'
  | _ :: _, [] => false
  end.

Definition marker : list ascii := ["P"%char; "T"%char].

Definition ParseDuration_bytes (duration : list ascii) : Z :=
  if negb (HasPrefix duration marker) then 0
  else
    let d := skipn 2 duration in
    total (parse_loop (length d) d (HMS 0 0 0)).

Definition ParseDuration (duration : string) : Z :=
  ParseDuration_bytes (list_ascii_of_string duration).

(** [return ParseDuration(duration) < minDurationSeconds] *)
Definition isShort (duration : string) (minDurationSeconds : Z) : bool :=
  ParseDuration duration <? minDurationSeconds.

(** *** The grammar of the design document

    A duration is the marker [PT] followed by groups, each a non-empty run
    of digits and one more byte, its unit. *)

Record group := Group { g_digits : list ascii; g_unit : ascii }.

Definition render_group (g : group) : list ascii := g_digits g ++ [g_unit g].

Definition render (gs : list group) : list ascii := flat_map render_group gs.

Definition wf_group (g : group) : Prop :=
  g_digits g <> [] /\
  forallb is_digit (g_digits g) = true /\
  is_digit (g_unit g) = false.

(** What can follow the last group: nothing, a byte that is no digit, or
    digits up to the end of the input. *)
Definition stops (tail : list ascii) : Prop :=
  digit_run tail = O \/ digit_run tail = length tail.

(** The effect of one group on the accumulators. *)
Definition step_group (a : hms) (g : group) : hms :=
  assign (g_unit g) (digits_value (g_digits g)) a.

Definition unit_seconds (u : ascii) : option Z :=
  if Ascii.eqb u "H" then Some 3600
  else if Ascii.eqb u "M" then Some 60
  else if Ascii.eqb u "S" then Some 1
  else None.

Definition recognized (g : group) : Prop := unit_seconds (g_unit g) <> None.

(** The number a digit run denotes, as a mathematical integer. *)
Definition magnitude (ds : list ascii) : Z :=
  fold_left (fun v c => v * 10 + digit_of c) ds 0.

Definition group_seconds (g : group) : Z :=
  match unit_seconds (g_unit g) with
  | Some k => magnitude (g_digits g) * k
  | None => 0
  end.

Definition groups_sum (gs : list group) : Z :=
  fold_right (fun g acc => group_seconds g + acc) 0 gs.

(** The total as the design document words it: the sum over all groups of
    digits times 3600, 60 or 1, and zero for an input with no marker or
    with a digit run that no recognized unit letter follows. *)
Fixpoint spec_groups (fuel : nat) (d : list ascii) : option Z :=
  match d with
  | [] => Some 0
  | _ :: _ =>
      match fuel with
      | O => None
      | S fuel' =>
          let i := digit_run d in
          if Nat.eqb i 0 then None
          else
            match skipn i d with
            | [] => None
            | u :: rest =>
                match unit_seconds u, spec_groups fuel' rest with
                | Some k, Some t => Some (magnitude (firstn i d) * k + t)
                | _, _ => None
                end
            end
      end
  end.

Definition spec_total (s : string) : Z :=
  if negb (HasPrefix (list_ascii_of_string s) marker) then 0
  else
    let d := skipn 2 (list_ascii_of_string s) in
    match spec_groups (length d) d with
    | Some t => t
    | None => 0
    end.

(** The length of the longest run of consecutive digits in [d]. *)
Fixpoint longest_run (d : list ascii) : nat :=
  match d with
  | [] => O
  | _ :: d' => Nat.max (digit_run d) (longest_run d')
  end.

(** The accumulator a unit letter selects, and the total as a mathematical
    integer. *)
Definition field (u : ascii) (a : hms) : Z :=
  if Ascii.eqb u "H" then hours a
  else if Ascii.eqb u "M" then minutes a
  else if Ascii.eqb u "S" then seconds a
  else 0.

Definition weighted (a : hms) : Z := hours a * 3600 + minutes a * 60 + seconds a.

(** Accumulators that fifteen digits can hold. *)
Definition small (a : hms) : Prop :=
  0 <= hours a < 10 ^ 15 /\ 0 <= minutes a < 10 ^ 15 /\ 0 <= seconds a < 10 ^ 15.

End Duration.

(** ** Properties of the duration parser *)

Module DurationFacts.
Import Duration.

(** *** The loop terminates within [length d] iterations *)

Lemma parse_loop_step fuel c d a :
  parse_loop (S fuel) (c :: d) a =
  let i := digit_run (c :: d) in
  if (Nat.eqb i 0 || Nat.leb (length (c :: d)) i)%bool then a
  else parse_loop fuel (skipn (i + 1) (c :: d))
         (assign (nth i (c :: d) zero) (digits_value (firstn i (c :: d))) a).
Proof. reflexivity. Qed.

Lemma parse_loop_fuel_irrelevant f1 : forall f2 d a,
  (length d <= f1)%nat -> (length d <= f2)%nat ->
  parse_loop f1 d a = parse_loop f2 d a.
Proof.
  induction f1 as [|f1 IH]; intros f2 d a H1 H2.
  - destruct d; [|simpl in H1; lia]. destruct f2; reflexivity.
  - destruct d as [|c d]; [destruct f2; reflexivity|].
    destruct f2 as [|f2]; [simpl in H2; lia|].
    rewrite !parse_loop_step. cbv zeta.
    destruct (Nat.eqb _ 0 || Nat.leb _ _)%bool; [reflexivity|].
    apply IH; rewrite length_skipn; simpl length in *; lia.
Qed.

Lemma parse_loop_fuel fuel d a :
  (length d <= fuel)%nat -> parse_loop fuel d a = parse_loop (length d) d a.
Proof. intros H. apply parse_loop_fuel_irrelevant; lia. Qed.

(** *** The digit scan *)

Lemma digit_run_le_length d : (digit_run d <= length d)%nat.
Proof.
  induction d as [|c d IH]; simpl; [lia|].
  destruct (is_digit c); lia.
Qed.

Lemma digit_run_app ds u rest :
  forallb is_digit ds = true -> is_digit u = false ->
  digit_run (ds ++ u :: rest) = length ds.
Proof.
  intros Hds Hu. induction ds as [|c ds IH]; simpl in *.
  - now rewrite Hu.
  - apply andb_prop in Hds as [Hc Hds]. rewrite Hc. f_equal. auto.
Qed.

Lemma digit_run_all ds :
  forallb is_digit ds = true -> digit_run ds = length ds.
Proof.
  induction ds as [|c ds IH]; simpl; [reflexivity|].
  intros H. apply andb_prop in H as [Hc Hds]. rewrite Hc. f_equal. auto.
Qed.

Lemma digit_run_prefix d : forallb is_digit (firstn (digit_run d) d) = true.
Proof.
  induction d as [|c d IH]; simpl; [reflexivity|].
  destruct (is_digit c) eqn:Hc; simpl; [|reflexivity].
  now rewrite Hc.
Qed.

Lemma digit_run_stop d :
  (digit_run d < length d)%nat -> is_digit (nth (digit_run d) d zero) = false.
Proof.
  induction d as [|c d IH]; simpl; [lia|].
  destruct (is_digit c) eqn:Hc; [|now intros _].
  intros H. apply IH. lia.
Qed.

Lemma firstn_exact {A} (l r : list A) : firstn (length l) (l ++ r) = l.
Proof. induction l; simpl; [now destruct r|f_equal; auto]. Qed.

Lemma skipn_exact {A} (l : list A) u r : skipn (length l + 1) (l ++ u :: r) = r.
Proof. induction l; simpl; auto. Qed.

Lemma nth_exact {A} (l : list A) u r dflt : nth (length l) (l ++ u :: r) dflt = u.
Proof. induction l; simpl; auto. Qed.

Lemma split_at_run d :
  (digit_run d < length d)%nat ->
  d = firstn (digit_run d) d ++ nth (digit_run d) d zero :: skipn (digit_run d + 1) d.
Proof.
  induction d as [|c d IH]; simpl; [lia|].
  destruct (is_digit c); simpl; [|reflexivity].
  intros H. f_equal. apply IH. lia.
Qed.

(** *** What the loop computes on a sequence of groups *)

Lemma parse_loop_stops fuel tail a : stops tail -> parse_loop fuel tail a = a.
Proof.
  intros Hs. destruct fuel as [|fuel]; [reflexivity|].
  destruct tail as [|c tail]; [reflexivity|].
  rewrite parse_loop_step. cbv zeta.
  destruct Hs as [Hs|Hs]; rewrite Hs.
  - reflexivity.
  - rewrite Nat.leb_refl, orb_true_r. reflexivity.
Qed.

Lemma render_cons g gs : render (g :: gs) = g_digits g ++ g_unit g :: render gs.
Proof. unfold render, render_group. simpl. now rewrite <- app_assoc. Qed.

Lemma parse_loop_groups gs : forall tail a fuel,
  Forall wf_group gs -> stops tail ->
  (length (render gs ++ tail) <= fuel)%nat ->
  parse_loop fuel (render gs ++ tail) a = fold_left step_group gs a.
Proof.
  induction gs as [|g gs IH]; intros tail a fuel Hwf Hs Hlen.
  - simpl. now apply parse_loop_stops.
  - inversion Hwf as [|? ? (Hne & Hdig & Hunit) Hwf']; subst.
    rewrite render_cons in *. rewrite <- app_assoc in *. rewrite <- app_comm_cons in *.
    destruct (g_digits g) as [|c ds] eqn:Hg; [congruence|].
    rewrite <- Hg in *.
    assert (Hl : length (g_digits g) <> O) by (rewrite Hg; discriminate).
    rewrite length_app in Hlen. simpl length in Hlen.
    destruct fuel as [|fuel]; [lia|].
    replace (g_digits g ++ g_unit g :: render gs ++ tail)
      with (c :: ds ++ g_unit g :: render gs ++ tail) at 1 by now rewrite Hg.
    rewrite parse_loop_step. cbv zeta.
    replace (c :: ds ++ g_unit g :: render gs ++ tail)
      with (g_digits g ++ g_unit g :: render gs ++ tail) by now rewrite Hg.
    rewrite digit_run_app by assumption.
    rewrite length_app. simpl length.
    replace (Nat.eqb (length (g_digits g)) 0) with false
      by (symmetry; now apply Nat.eqb_neq).
    replace (Nat.leb _ (length (g_digits g))) with false
      by (symmetry; apply Nat.leb_gt; lia).
    simpl orb. cbv iota.
    rewrite firstn_exact, nth_exact, skipn_exact.
    simpl fold_left. apply IH; auto. lia.
Qed.

(** Every input splits into groups and a tail the loop stops at. *)
Lemma groups_exist n : forall d, (length d <= n)%nat ->
  exists gs tail, d = render gs ++ tail /\ Forall wf_group gs /\ stops tail.
Proof.
  induction n as [|n IH]; intros d Hn.
  - destruct d; [|simpl in Hn; lia]. exists [], []. repeat split; auto. now left.
  - destruct (Nat.eq_dec (digit_run d) 0) as [H0|H0].
    { exists [], d. repeat split; auto. now left. }
    destruct (Nat.eq_dec (digit_run d) (length d)) as [Hl|Hl].
    { exists [], d. repeat split; auto. now right. }
    pose proof (digit_run_le_length d) as Hle.
    assert (Hlt : (digit_run d < length d)%nat) by lia.
    destruct (IH (skipn (digit_run d + 1) d)) as (gs & tail & Heq & Hwf & Hs).
    { rewrite length_skipn. lia. }
    exists (Group (firstn (digit_run d) d) (nth (digit_run d) d zero) :: gs), tail.
    split; [|split; [constructor|]; auto].
    + rewrite render_cons. simpl. rewrite <- app_assoc, <- app_comm_cons, <- Heq.
      now apply split_at_run.
    + repeat split; simpl.
      * intros E. apply (f_equal (@length _)) in E. rewrite length_firstn in E.
        simpl in E. lia.
      * apply digit_run_prefix.
      * now apply digit_run_stop.
Qed.

(** *** Arithmetic: when nothing wraps *)

Lemma digit_of_range c : is_digit c = true -> 0 <= digit_of c <= 9.
Proof.
  unfold is_digit, digit_of. intros H.
  apply andb_prop in H as [H1 H2].
  apply Z.leb_le in H1, H2.
  rewrite Z.mod_small; lia.
Qed.

Lemma magnitude_acc_bound ds : forall v,
  forallb is_digit ds = true -> 0 <= v ->
  0 <= fold_left (fun v c => v * 10 + digit_of c) ds v
    < (v + 1) * 10 ^ Z.of_nat (length ds).
Proof.
  induction ds as [|c ds IH]; intros v Hd Hv.
  - simpl. lia.
  - simpl in Hd. apply andb_prop in Hd as [Hc Hd].
    pose proof (digit_of_range c Hc) as Hr.
    simpl fold_left. simpl length. rewrite Nat2Z.inj_succ, Z.pow_succ_r by lia.
    specialize (IH (v * 10 + digit_of c) Hd ltac:(lia)).
    assert (0 < 10 ^ Z.of_nat (length ds)) by (apply Z.pow_pos_nonneg; lia).
    nia.
Qed.

Lemma magnitude_bound ds :
  forallb is_digit ds = true -> 0 <= magnitude ds < 10 ^ Z.of_nat (length ds).
Proof.
  intros Hd. pose proof (magnitude_acc_bound ds 0 Hd ltac:(lia)) as H.
  unfold magnitude. lia.
Qed.

Lemma digits_value_acc ds : forall v,
  forallb is_digit ds = true -> 0 <= v ->
  (v + 1) * 10 ^ Z.of_nat (length ds) <= 10 ^ 18 ->
  fold_left (fun val c => Int.add (Int.mul val 10) (digit_of c)) ds v =
  fold_left (fun v c => v * 10 + digit_of c) ds v.
Proof.
  induction ds as [|c ds IH]; intros v Hd Hv Hb; [reflexivity|].
  simpl in Hd. apply andb_prop in Hd as [Hc Hd].
  pose proof (digit_of_range c Hc) as Hr.
  simpl length in Hb. rewrite Nat2Z.inj_succ, Z.pow_succ_r in Hb by lia.
  assert (Hp : 0 < 10 ^ Z.of_nat (length ds)) by (apply Z.pow_pos_nonneg; lia).
  change (10 ^ 18) with 1000000000000000000 in Hb.
  assert (Hs : v * 10 + 9 < 1000000000000000000) by nia.
  simpl fold_left. unfold Int.add at 2, Int.mul at 2.
  rewrite (Int.wrap_small (v * 10)) by (apply Int.in_range_bounds; lia).
  rewrite (Int.wrap_small (v * 10 + digit_of c)) by (apply Int.in_range_bounds; lia).
  apply IH; auto; try lia.
  change (10 ^ 18) with 1000000000000000000. nia.
Qed.

Lemma digits_value_magnitude ds :
  forallb is_digit ds = true -> (length ds <= 18)%nat ->
  digits_value ds = magnitude ds.
Proof.
  intros Hd Hl. unfold digits_value, magnitude.
  apply digits_value_acc; auto; try lia.
  rewrite Z.mul_1_l. apply Z.pow_le_mono_r; lia.
Qed.

Lemma digits_value_small ds :
  forallb is_digit ds = true -> (length ds <= 15)%nat ->
  0 <= digits_value ds < 10 ^ 15.
Proof.
  intros Hd Hl. rewrite digits_value_magnitude by (auto; lia).
  pose proof (magnitude_bound ds Hd) as H.
  assert (10 ^ Z.of_nat (length ds) <= 10 ^ 15) by (apply Z.pow_le_mono_r; lia).
  lia.
Qed.

Lemma assign_small u v a : small a -> 0 <= v < 10 ^ 15 -> small (assign u v a).
Proof.
  unfold small, assign. intros (Hh & Hm & Hs) Hv.
  destruct (Ascii.eqb u "H"); [simpl; auto|].
  destruct (Ascii.eqb u "M"); [simpl; auto|].
  destruct (Ascii.eqb u "S"); simpl; auto.
Qed.

Lemma total_small a : small a -> total a = weighted a /\ 0 <= total a.
Proof.
  unfold small, total, weighted. change (10 ^ 15) with 1000000000000000.
  intros (Hh & Hm & Hs).
  unfold Int.add, Int.mul.
  rewrite (Int.wrap_small (hours a * 3600)) by (apply Int.in_range_bounds; lia).
  rewrite (Int.wrap_small (minutes a * 60)) by (apply Int.in_range_bounds; lia).
  rewrite (Int.wrap_small (hours a * 3600 + minutes a * 60))
    by (apply Int.in_range_bounds; lia).
  rewrite Int.wrap_small by (apply Int.in_range_bounds; lia).
  lia.
Qed.

(** *** Runs of at most fifteen digits keep the accumulators small *)

Lemma digit_run_le_longest d : (digit_run d <= longest_run d)%nat.
Proof. destruct d; cbn [longest_run]; [simpl; lia|apply Nat.le_max_l]. Qed.

Lemma longest_run_tail c d : (longest_run d <= longest_run (c :: d))%nat.
Proof. cbn [longest_run]. apply Nat.le_max_r. Qed.

Lemma longest_run_skipn k : forall d, (longest_run (skipn k d) <= longest_run d)%nat.
Proof.
  induction k as [|k IH]; intros d; [simpl; lia|].
  destruct d as [|c d]; [simpl; lia|].
  change (skipn (S k) (c :: d)) with (skipn k d).
  pose proof (IH d). pose proof (longest_run_tail c d). lia.
Qed.

Lemma parse_loop_small fuel : forall d a,
  (longest_run d <= 15)%nat -> small a -> small (parse_loop fuel d a).
Proof.
  induction fuel as [|fuel IH]; intros d a Hl Ha; [exact Ha|].
  destruct d as [|c d]; [exact Ha|].
  rewrite parse_loop_step. cbv zeta.
  destruct (Nat.eqb _ 0 || Nat.leb _ _)%bool; [exact Ha|].
  pose proof (digit_run_le_longest (c :: d)) as Hr.
  apply IH.
  - pose proof (longest_run_skipn (digit_run (c :: d) + 1) (c :: d)). lia.
  - apply assign_small; [exact Ha|].
    apply digits_value_small; [apply digit_run_prefix|].
    rewrite length_firstn. lia.
Qed.

(** *** Distinct recognized units: the total is the sum over the groups *)

Lemma recognized_cases u :
  unit_seconds u <> None -> u = "H"%char \/ u = "M"%char \/ u = "S"%char.
Proof.
  unfold unit_seconds.
  destruct (Ascii.eqb_spec u "H"); [auto|].
  destruct (Ascii.eqb_spec u "M"); [auto|].
  destruct (Ascii.eqb_spec u "S"); [auto|congruence].
Qed.

Lemma field_assign_other u u' v a :
  u' <> u -> field u' (assign u v a) = field u' a.
Proof.
  unfold field, assign. intros Hne.
  destruct (Ascii.eqb_spec u "H"), (Ascii.eqb_spec u "M"), (Ascii.eqb_spec u "S"),
    (Ascii.eqb_spec u' "H"), (Ascii.eqb_spec u' "M"), (Ascii.eqb_spec u' "S");
    subst; simpl; congruence.
Qed.

Lemma step_weighted a g :
  wf_group g -> recognized g -> (length (g_digits g) <= 15)%nat ->
  field (g_unit g) a = 0 ->
  weighted (step_group a g) = weighted a + group_seconds g.
Proof.
  intros (_ & Hd & _) Hr Hl. unfold step_group, group_seconds, field.
  rewrite digits_value_magnitude by (auto; lia).
  destruct (recognized_cases _ Hr) as [E|[E|E]]; rewrite E;
    unfold weighted; simpl; intros H0; rewrite H0; lia.
Qed.

Lemma fold_weighted gs : forall a,
  Forall wf_group gs -> Forall recognized gs ->
  Forall (fun g => (length (g_digits g) <= 15)%nat) gs ->
  NoDup (map g_unit gs) ->
  (forall g, In g gs -> field (g_unit g) a = 0) ->
  weighted (fold_left step_group gs a) = weighted a + groups_sum gs.
Proof.
  induction gs as [|g gs IH]; intros a Hwf Hrec Hlen Hnd Hz; [simpl; lia|].
  inversion Hwf; inversion Hrec; inversion Hlen; inversion Hnd; subst.
  simpl fold_left. simpl groups_sum.
  rewrite IH; auto.
  - rewrite step_weighted; auto; [lia|]. apply Hz. now left.
  - intros g' Hin. unfold step_group. rewrite field_assign_other.
    + apply Hz. now right.
    + intros E. match goal with H : ~ In _ _ |- _ => apply H end.
      rewrite <- E. now apply in_map.
Qed.

Lemma fold_small gs : forall a,
  Forall wf_group gs -> Forall (fun g => (length (g_digits g) <= 15)%nat) gs ->
  small a -> small (fold_left step_group gs a).
Proof.
  induction gs as [|g gs IH]; intros a Hwf Hlen Ha; [exact Ha|].
  inversion Hwf as [|? ? (_ & Hd & _) ?]; inversion Hlen; subst.
  simpl. apply IH; auto. apply assign_small; auto.
  now apply digits_value_small.
Qed.

Lemma small_zero : small (HMS 0 0 0).
Proof. unfold small; simpl; lia. Qed.

Lemma has_marker d : HasPrefix d marker = true -> d = "P"%char :: "T"%char :: skipn 2 d.
Proof.
  destruct d as [|c1 [|c2 d]]; simpl; try discriminate.
  - now rewrite andb_false_r.
  - intros H. apply andb_prop in H as [H1 H2]. apply andb_prop in H2 as [H2 _].
    apply Ascii.eqb_eq in H1, H2. now subst.
Qed.

Lemma ParseDuration_marked d :
  ParseDuration (string_of_list_ascii ("P"%char :: "T"%char :: d)) =
  total (parse_loop (length d) d (HMS 0 0 0)).
Proof.
  unfold ParseDuration. rewrite list_ascii_of_string_of_list_ascii.
  reflexivity.
Qed.

(** *** The statements about [ParseDuration] *)

Local Open Scope string_scope.

(** C1, as the design document states it, fails: [ParseDuration] does not
    return the grammar's total on every input.  With a repeated unit the
    later group replaces the earlier one instead of being added
    ([PT1H1H] gives 3600, the sum is 7200), and a digit run followed by an
    unrecognized letter is skipped instead of clearing the total
    ([PT1H5X] gives 3600, not 0). *)
Lemma ParseDuration_not_spec_total :
  (ParseDuration "PT1H1H" = 3600 /\ spec_total "PT1H1H" = 7200) /\
  (ParseDuration "PT1H5X" = 3600 /\ spec_total "PT1H5X" = 0) /\
  ~ (forall s, ParseDuration s = spec_total s).
Proof.
  split; [split; reflexivity|]. split; [split; reflexivity|].
  intros H. specialize (H "PT1H1H"). discriminate H.
Qed.

(** C1 (amended): what [ParseDuration] returns on every input.
    - Without the marker [PT] the result is 0.
    - After the marker the input is a sequence of groups (a non-empty digit
      run and the byte after it) and a tail at which the scan stops (empty,
      beginning with a byte that is no digit, or digits only).  Every input
      has this shape.  The result is [hours*3600 + minutes*60 + seconds] in
      64-bit arithmetic, where each accumulator holds the value of the last
      group with the unit H, M or S; groups with another unit byte and the
      tail contribute nothing.
    - With no group at all the result is 0.
    - When the units are recognized and pairwise distinct and every digit
      run has at most 15 digits, the result is the sum over the groups of
      digits times 3600, 60 or 1.
    - The eight values the document lists. *)
Theorem ParseDuration_grammar :
  (forall s, HasPrefix (list_ascii_of_string s) marker = false ->
     ParseDuration s = 0) /\
  (forall s, HasPrefix (list_ascii_of_string s) marker = true ->
     exists gs tail,
       s = string_of_list_ascii (marker ++ render gs ++ tail) /\
       Forall wf_group gs /\ stops tail) /\
  (forall gs tail, Forall wf_group gs -> stops tail ->
     ParseDuration (string_of_list_ascii (marker ++ render gs ++ tail)) =
     total (fold_left step_group gs (HMS 0 0 0))) /\
  (forall tail, stops tail ->
     ParseDuration (string_of_list_ascii (marker ++ tail)) = 0) /\
  (forall gs tail, Forall wf_group gs -> stops tail ->
     Forall recognized gs -> NoDup (map g_unit gs) ->
     Forall (fun g => (length (g_digits g) <= 15)%nat) gs ->
     ParseDuration (string_of_list_ascii (marker ++ render gs ++ tail)) =
     groups_sum gs) /\
  (ParseDuration "PT0S" = 0 /\ ParseDuration "PT30S" = 30 /\
   ParseDuration "PT5M" = 300 /\ ParseDuration "PT2H" = 7200 /\
   ParseDuration "PT1H30M45S" = 5445 /\ ParseDuration "" = 0 /\
   ParseDuration "P1D" = 0 /\ ParseDuration "1H30M" = 0).
Proof.
  assert (Hchar : forall gs tail, Forall wf_group gs -> stops tail ->
     ParseDuration (string_of_list_ascii (marker ++ render gs ++ tail)) =
     total (fold_left step_group gs (HMS 0 0 0))).
  { intros gs tail Hwf Hs. unfold marker. simpl app.
    rewrite ParseDuration_marked. f_equal.
    apply parse_loop_groups; auto. }
  split; [|split; [|split; [|split; [|split]]]].
  - intros s H. unfold ParseDuration, ParseDuration_bytes. now rewrite H.
  - intros s H. apply has_marker in H.
    destruct (groups_exist _ (skipn 2 (list_ascii_of_string s)) (le_n _))
      as (gs & tail & Heq & Hwf & Hs).
    exists gs, tail. split; [|auto].
    unfold marker. simpl app. rewrite <- Heq, <- H.
    now rewrite string_of_list_ascii_of_string.
  - exact Hchar.
  - intros tail Hs. apply (Hchar [] tail); auto.
  - intros gs tail Hwf Hs Hrec Hnd Hlen. rewrite Hchar by auto.
    destruct (total_small (fold_left step_group gs (HMS 0 0 0))) as [-> _].
    { apply fold_small; auto using small_zero. }
    rewrite fold_weighted; auto.
    intros g _. unfold field. simpl.
    destruct (Ascii.eqb (g_unit g) "H"); [reflexivity|].
    destruct (Ascii.eqb (g_unit g) "M"); [reflexivity|].
    destruct (Ascii.eqb (g_unit g) "S"); reflexivity.
  - repeat split; reflexivity.
Qed.

(** C1, at the input [PT1H30M45S]: three well-formed groups with distinct
    recognized units. *)
Lemma ParseDuration_grammar_witness :
  Forall wf_group
    [Group ["1"%char] "H"; Group ["3"%char; "0"%char] "M";
     Group ["4"%char; "5"%char] "S"] /\
  stops [] /\
  ParseDuration "PT1H30M45S" = 1 * 3600 + 30 * 60 + 45.
Proof.
  assert (Hwf : Forall wf_group
    [Group ["1"%char] "H"; Group ["3"%char; "0"%char] "M";
     Group ["4"%char; "5"%char] "S"]).
  { repeat constructor; simpl; discriminate. }
  assert (Hs : stops []) by (left; reflexivity).
  split; [exact Hwf|]. split; [exact Hs|].
  refine (proj1 (proj2 (proj2 (proj2 (proj2 ParseDuration_grammar))))
            _ [] Hwf Hs _ _ _).
  - repeat constructor; simpl; discriminate.
  - repeat constructor; simpl; intuition discriminate.
  - repeat constructor; simpl; lia.
Defined.

(** C7, as stated, fails: a digit run long enough to leave the 64-bit
    range wraps around, and the result is negative.  Sixteen digits of
    hours are enough. *)
Lemma ParseDuration_negative :
  ParseDuration "PT9223372036854775808S" = -9223372036854775808 /\
  ParseDuration "PT9999999999999999H" = -893488147419106832 /\
  ~ (forall s, 0 <= ParseDuration s).
Proof.
  split; [reflexivity|]. split; [reflexivity|].
  intros H. specialize (H "PT9223372036854775808S").
  apply H. reflexivity.
Qed.

(** C7 (amended): when no run of consecutive digits in the input is longer
    than 15 digits, [ParseDuration] returns a non-negative integer (no
    operation wraps around). *)
Theorem ParseDuration_nonneg (s : string) :
  (longest_run (list_ascii_of_string s) <= 15)%nat ->
  0 <= ParseDuration s.
Proof.
  intros Hl. unfold ParseDuration, ParseDuration_bytes.
  destruct (negb _); [lia|]. cbv zeta.
  apply total_small, parse_loop_small; [|apply small_zero].
  pose proof (longest_run_skipn 2 (list_ascii_of_string s)). lia.
Qed.

(** C7, at an input whose hours run has exactly 15 digits. *)
Lemma ParseDuration_nonneg_witness :
  (longest_run (list_ascii_of_string "PT999999999999999H59M59S") <= 15)%nat /\
  0 <= ParseDuration "PT999999999999999H59M59S".
Proof.
  assert (H : (longest_run (list_ascii_of_string "PT999999999999999H59M59S") <= 15)%nat).
  { apply Nat.leb_le. vm_compute. reflexivity. }
  split; [exact H|]. exact (ParseDuration_nonneg _ H).
Defined.

End DurationFacts.

(** ** [transcripts.go] and [main.go]: SanitizeFilename *)

Module Sanitize.

Local Open Scope nat_scope.

(** The bytes of the character class of the regular expression:
    less-than, greater-than, colon, double quote (byte 34), slash,
    backslash (byte 92), bar, question mark and star. *)
Definition reserved_bytes : list ascii :=
  ["<"; ">"; ":"; ascii_of_nat 34; "/"; ascii_of_nat 92; "|"; "?"; "*"]%char.

Definition reserved (c : ascii) : bool := existsb (Ascii.eqb c) reserved_bytes.

(** [reg.ReplaceAllString(filename, "_")]: every byte of the class becomes
    an underscore.  The class holds ASCII bytes only, which never occur
    inside a multi-byte UTF-8 sequence, so the replacement acts byte by
    byte. *)
Definition ReplaceAllString (filename : list ascii) : list ascii :=
  map (fun c => if reserved c then "_"%char else c) filename.

(** The cutset [" ."] of [strings.Trim]. *)
Definition in_cutset (c : ascii) : bool := Ascii.eqb c " " || Ascii.eqb c ".".

Fixpoint TrimLeft (s : list ascii) : list ascii :=
  match s with
  | c :: s' => if in_cutset c then TrimLeft s' else s
  | [] => []
  end.

Definition TrimRight (s : list ascii) : list ascii := rev (TrimLeft (rev s)).

(** [strings.Trim(s, " .")] strips the right end, then the left end. *)
Definition Trim (s : list ascii) : list ascii := TrimLeft (TrimRight s).

Definition max_length : nat := 100.

Definition SanitizeFilename_bytes (filename : list ascii) : list ascii :=
  let sanitized := ReplaceAllString filename in
  let sanitized :=
    if max_length <? length sanitized then firstn max_length sanitized
    else sanitized in
  Trim sanitized.

(** [transcripts.go] *)
Definition SanitizeFilename (filename : string) : string :=
  string_of_list_ascii (SanitizeFilename_bytes (list_ascii_of_string filename)).

(** [main.go] carries its own copy of the same body. *)
Definition sanitizeFilename (filename : string) : string :=
  let sanitized := ReplaceAllString (list_ascii_of_string filename) in
  let sanitized :=
    if 100 <? length sanitized then firstn 100 sanitized else sanitized in
  string_of_list_ascii (Trim sanitized).

(** A list that does not begin with a byte of the cutset. *)
Definition clean_hd (s : list ascii) : Prop :=
  match s with
  | c :: _ => in_cutset c = false
  | [] => True
  end.

End Sanitize.

Module SanitizeFacts.
Import Sanitize.
Local Open Scope nat_scope.

Lemma TrimLeft_clean s : clean_hd (TrimLeft s).
Proof.
  induction s as [|c s IH]; simpl; [exact I|].
  destruct (in_cutset c) eqn:E; [exact IH|exact E].
Qed.

Lemma TrimLeft_id s : clean_hd s -> TrimLeft s = s.
Proof. destruct s as [|c s]; simpl; [reflexivity|]. now intros ->. Qed.

Lemma TrimLeft_suffix s : exists p, s = p ++ TrimLeft s.
Proof.
  induction s as [|c s [p IH]]; simpl; [now exists []|].
  destruct (in_cutset c).
  - exists (c :: p). simpl. now f_equal.
  - now exists [].
Qed.

Lemma TrimRight_prefix s : exists q, s = TrimRight s ++ q.
Proof.
  unfold TrimRight. destruct (TrimLeft_suffix (rev s)) as [p Hp].
  exists (rev p). rewrite <- rev_app_distr, <- Hp. now rewrite rev_involutive.
Qed.

Lemma clean_hd_rev_suffix p t : clean_hd (rev (p ++ t)) -> clean_hd (rev t).
Proof.
  rewrite rev_app_distr. destruct (rev t) as [|c l]; simpl; auto.
Qed.

Lemma Trim_clean s : clean_hd (Trim s) /\ clean_hd (rev (Trim s)).
Proof.
  unfold Trim. split; [apply TrimLeft_clean|].
  destruct (TrimLeft_suffix (TrimRight s)) as [p Hp].
  apply (clean_hd_rev_suffix p). rewrite <- Hp.
  unfold TrimRight. rewrite rev_involutive. apply TrimLeft_clean.
Qed.

Lemma Trim_id s : clean_hd s -> clean_hd (rev s) -> Trim s = s.
Proof.
  intros H1 H2. unfold Trim, TrimRight.
  rewrite (TrimLeft_id (rev s)) by exact H2.
  rewrite rev_involutive. now apply TrimLeft_id.
Qed.

Lemma Trim_sub s : exists p q, s = p ++ Trim s ++ q.
Proof.
  unfold Trim. destruct (TrimRight_prefix s) as [q Hq].
  destruct (TrimLeft_suffix (TrimRight s)) as [p Hp].
  exists p, q. rewrite app_assoc, <- Hp. exact Hq.
Qed.

Lemma Trim_length s : length (Trim s) <= length s.
Proof.
  destruct (Trim_sub s) as (p & q & H).
  apply (f_equal (@length _)) in H. rewrite !length_app in H. lia.
Qed.

Lemma Trim_In s c : In c (Trim s) -> In c s.
Proof.
  destruct (Trim_sub s) as (p & q & H). intros Hin. rewrite H.
  apply in_or_app. right. apply in_or_app. now left.
Qed.

Lemma underscore_free : reserved "_" = false.
Proof. reflexivity. Qed.

Lemma ReplaceAllString_free s c : In c (ReplaceAllString s) -> reserved c = false.
Proof.
  unfold ReplaceAllString. rewrite in_map_iff. intros (x & Hx & _).
  destruct (reserved x) eqn:E; subst; [apply underscore_free|exact E].
Qed.

Lemma ReplaceAllString_id s :
  (forall c, In c s -> reserved c = false) -> ReplaceAllString s = s.
Proof.
  unfold ReplaceAllString. intros H. induction s as [|c s IH]; simpl; [reflexivity|].
  rewrite (H c) by now left. f_equal. apply IH. intros x Hx. apply H. now right.
Qed.

Lemma truncate_length (s : list ascii) :
  length (if max_length <? length s then firstn max_length s else s) <= max_length.
Proof.
  destruct (Nat.ltb_spec max_length (length s)); [|lia].
  rewrite length_firstn. lia.
Qed.

Lemma truncate_In (s : list ascii) c :
  In c (if max_length <? length s then firstn max_length s else s) -> In c s.
Proof.
  destruct (max_length <? length s); [|auto].
  intros H. rewrite <- (firstn_skipn max_length s). apply in_or_app. now left.
Qed.

Lemma SanitizeFilename_bytes_spec s :
  let r := SanitizeFilename_bytes s in
  length r <= max_length /\ clean_hd r /\ clean_hd (rev r) /\
  (forall c, In c r -> reserved c = false).
Proof.
  cbv zeta. unfold SanitizeFilename_bytes. cbv zeta.
  split; [|split; [|split]].
  - etransitivity; [apply Trim_length|apply truncate_length].
  - apply Trim_clean.
  - apply Trim_clean.
  - intros c H. apply Trim_In, truncate_In in H.
    now apply ReplaceAllString_free in H.
Qed.

Lemma SanitizeFilename_bytes_fixpoint r :
  length r <= max_length -> clean_hd r -> clean_hd (rev r) ->
  (forall c, In c r -> reserved c = false) ->
  SanitizeFilename_bytes r = r.
Proof.
  intros Hl H1 H2 Hr. unfold SanitizeFilename_bytes. cbv zeta.
  rewrite ReplaceAllString_id by exact Hr.
  replace (max_length <? length r) with false
    by (symmetry; apply Nat.ltb_ge; exact Hl).
  now apply Trim_id.
Qed.

Lemma length_list_ascii s : length (list_ascii_of_string s) = String.length s.
Proof. induction s; simpl; auto. Qed.

Lemma clean_hd_error r c :
  clean_hd r -> hd_error r = Some c -> c <> " "%char /\ c <> "."%char.
Proof.
  destruct r as [|x r]; simpl; [discriminate|].
  intros H E. injection E as ->. unfold in_cutset in H.
  apply orb_false_elim in H as [H1 H2].
  apply Ascii.eqb_neq in H1, H2. auto.
Qed.

Lemma reserved_false_not_In c : reserved c = false -> ~ In c reserved_bytes.
Proof.
  unfold reserved. intros H Hin.
  assert (existsb (Ascii.eqb c) reserved_bytes = true); [|congruence].
  apply existsb_exists. exists c. split; [exact Hin|apply Ascii.eqb_refl].
Qed.

(** The cases of [transcripts_test.go]. *)
Example SanitizeFilename_tests :
  SanitizeFilename "hello world" = "hello world"%string /\
  SanitizeFilename "  filename" = "filename"%string /\
  SanitizeFilename "filename.." = "filename"%string /\
  SanitizeFilename "..." = ""%string /\
  SanitizeFilename "My Video: Part 1/2 | Q&A?" = "My Video_ Part 1_2 _ Q&A_"%string.
Proof. repeat split; reflexivity. Qed.

(** C8: sanitizing twice is sanitizing once, and the result has at most
    100 bytes, neither begins nor ends with a space or a period, and holds
    none of the reserved bytes; the copy in [main.go] computes the same
    function. *)
Theorem SanitizeFilename_idempotent (s : string) :
  SanitizeFilename (SanitizeFilename s) = SanitizeFilename s /\
  String.length (SanitizeFilename s) <= 100 /\
  (forall c,
     hd_error (list_ascii_of_string (SanitizeFilename s)) = Some c \/
     hd_error (rev (list_ascii_of_string (SanitizeFilename s))) = Some c ->
     c <> " "%char /\ c <> "."%char) /\
  (forall c, In c (list_ascii_of_string (SanitizeFilename s)) ->
     ~ In c reserved_bytes) /\
  sanitizeFilename s = SanitizeFilename s.
Proof.
  unfold SanitizeFilename.
  rewrite !list_ascii_of_string_of_list_ascii.
  destruct (SanitizeFilename_bytes_spec (list_ascii_of_string s))
    as (Hl & H1 & H2 & Hr).
  split; [|split; [|split; [|split]]].
  - f_equal. now apply SanitizeFilename_bytes_fixpoint.
  - rewrite <- length_list_ascii, list_ascii_of_string_of_list_ascii. exact Hl.
  - intros c [E|E];
      [exact (clean_hd_error _ c H1 E)|exact (clean_hd_error _ c H2 E)].
  - intros c Hin. apply reserved_false_not_In, Hr, Hin.
  - reflexivity.
Qed.

(** C8, at a title with reserved bytes, a leading space and trailing
    periods. *)
Lemma SanitizeFilename_idempotent_witness :
  SanitizeFilename " My Video: Part 1/2 | Q&A?.." = "My Video_ Part 1_2 _ Q&A_"%string /\
  SanitizeFilename (SanitizeFilename " My Video: Part 1/2 | Q&A?..") =
    SanitizeFilename " My Video: Part 1/2 | Q&A?.." /\
  String.length (SanitizeFilename " My Video: Part 1/2 | Q&A?..") <= 100.
Proof.
  split; [reflexivity|].
  split; [exact (proj1 (SanitizeFilename_idempotent " My Video: Part 1/2 | Q&A?.."))|].
  exact (proj1 (proj2 (SanitizeFilename_idempotent " My Video: Part 1/2 | Q&A?.."))).
Defined.

End SanitizeFacts.

(** ** Errors and remote calls *)

Module Go.

(** A Go [error], through its message; [fmt.Errorf] with the verb [%w]
    puts the message of the wrapped error behind the context. *)
Definition Error := string.

(** The outcome of one remote call: the response, or the transport or
    remote error. *)
Inductive result (A : Type) : Type :=
| Ok (a : A)
| Err (e : Error).
Arguments Ok {A} a.
Arguments Err {A} e.

End Go.

(** ** [videos.go]: ListVideos *)

Module Catalog.
Import Duration Go.

Local Open Scope string_scope.

(** *** The records of the remote API that the code reads *)

(** [item.Snippet.ResourceId.VideoId] *)
Record PlaylistItem := { ResourceId_VideoId : string }.

Record PlaylistItemListResponse := {
  PlaylistItems : list PlaylistItem;
  NextPageToken : string
}.

Record Video := {
  Id : string;
  Snippet_Title : string;
  Snippet_PublishedAt : string;
  Statistics_ViewCount : Z;
  ContentDetails_Duration : string
}.

Record VideoListResponse := { Videos : list Video }.

Record Channel := {
  Channel_Id : string;
  RelatedPlaylists_Uploads : string
}.

Record ChannelListResponse := { Channels : list Channel }.

(** *** The requests *)

Record ChannelsListCall := {
  channels_part : list string;
  channels_mine : bool;
  channels_id : option string
}.

Record PlaylistItemsListCall := {
  playlist_part : list string;
  playlist_id : string;
  playlist_maxResults : Z;
  playlist_pageToken : option string
}.

Record VideosListCall := {
  videos_part : list string;
  videos_id : string
}.

(** The remote service: every [Do()] reads and may change the state of the
    world [W] behind the wire. *)
Record Service (W : Type) := {
  ChannelsDo : ChannelsListCall -> W -> W * result ChannelListResponse;
  PlaylistItemsDo : PlaylistItemsListCall -> W -> W * result PlaylistItemListResponse;
  VideosDo : VideosListCall -> W -> W * result VideoListResponse
}.
Arguments ChannelsDo {W} _ _ _.
Arguments PlaylistItemsDo {W} _ _ _.
Arguments VideosDo {W} _ _ _.

(** What went over the wire, with the error of a call that failed. *)
Inductive Event :=
| EvChannels (call : ChannelsListCall) (err : option Error)
| EvPlaylistItems (call : PlaylistItemsListCall) (err : option Error)
| EvVideos (call : VideosListCall) (err : option Error).

Definition error_of {A} (r : result A) : option Error :=
  match r with
  | Ok _ => None
  | Err e => Some e
  end.

(** The error a page fetch or a batch detail fetch of the trace came back
    with. *)
Definition failed_fetch (ev : Event) : option Error :=
  match ev with
  | EvPlaylistItems _ err => err
  | EvVideos _ err => err
  | EvChannels _ _ => None
  end.

Definition is_videos_call (ev : Event) : bool :=
  match ev with
  | EvVideos _ _ => true
  | _ => false
  end.

(** *** The result *)

Record VideoInfo := {
  VideoID : string;
  Title : string;
  ViewCount : Z;
  Date : string
}.

(** What a Go function of type [([]VideoInfo, error)] hands back: [None]
    is [nil]. *)
Definition returned : Type := option (list VideoInfo) * option Error.

Section WithService.

Context {W : Type} (svc : Service W).

(** The world behind the service and the calls made so far. *)
Record State := { world : W; trace : list Event }.

Definition doChannels (call : ChannelsListCall) (st : State)
  : State * result ChannelListResponse :=
  let (w, r) := ChannelsDo svc call (world st) in
  ({| world := w; trace := (trace st ++ [EvChannels call (error_of r)])%list |}, r).

Definition doPlaylistItems (call : PlaylistItemsListCall) (st : State)
  : State * result PlaylistItemListResponse :=
  let (w, r) := PlaylistItemsDo svc call (world st) in
  ({| world := w; trace := (trace st ++ [EvPlaylistItems call (error_of r)])%list |}, r).

Definition doVideos (call : VideosListCall) (st : State)
  : State * result VideoListResponse :=
  let (w, r) := VideosDo svc call (world st) in
  ({| world := w; trace := (trace st ++ [EvVideos call (error_of r)])%list |}, r).

(** [c.Service.Channels.List(...).Mine(true)] *)
Definition getAuthenticatedChannelID (st : State) : State * (string * option Error) :=
  let channelsCall :=
    {| channels_part := ["id"; "statistics"]; channels_mine := true;
       channels_id := None |} in
  let (st, r) := doChannels channelsCall st in
  match r with
  | Err err => (st, ("", Some ("error retrieving user's channel: " ++ err)))
  | Ok channelsResponse =>
      match Channels channelsResponse with
      | [] => (st, ("", Some "no channel found for authenticated user"))
      | ch :: _ => (st, (Channel_Id ch, None))
      end
  end.

(** [c.Service.Channels.List(...).Id(channelID)] *)
Definition getUploadsPlaylistID (channelID : string) (st : State)
  : State * (string * option Error) :=
  let channelCall :=
    {| channels_part := ["contentDetails"]; channels_mine := false;
       channels_id := Some channelID |} in
  let (st, r) := doChannels channelCall st in
  match r with
  | Err err => (st, ("", Some ("error retrieving channel details: " ++ err)))
  | Ok channelResponse =>
      match Channels channelResponse with
      | [] => (st, ("", Some ("channel " ++ channelID ++ " not found")))
      | ch :: _ => (st, (RelatedPlaylists_Uploads ch, None))
      end
  end.

Definition summary (video : Video) : VideoInfo :=
  {| VideoID := Id video;
     Title := Snippet_Title video;
     ViewCount := Statistics_ViewCount video;
     Date := Snippet_PublishedAt video |}.

(** [for _, video := range videosResponse.Items { if isShort(...) {
    continue }; videos = append(videos, VideoInfo{...}) }] *)
Definition appendVideos (minDurationSeconds : Z) (videos : list VideoInfo)
    (items : list Video) : list VideoInfo :=
  fold_left
    (fun (videos : list VideoInfo) video =>
       if isShort (ContentDetails_Duration video) minDurationSeconds then videos
       else (videos ++ [summary video])%list)
    items videos.

(** [strings.Join(videoIDs, ",")] *)
Definition Join (elems : list string) (sep : string) : string :=
  String.concat sep elems.

Definition playlistItemsCall (uploadsPlaylistID nextPageToken : string)
  : PlaylistItemsListCall :=
  let playlistCall :=
    {| playlist_part := ["snippet"]; playlist_id := uploadsPlaylistID;
       playlist_maxResults := 50; playlist_pageToken := None |} in
  if negb (String.eqb nextPageToken "") then
    {| playlist_part := playlist_part playlistCall;
       playlist_id := playlist_id playlistCall;
       playlist_maxResults := playlist_maxResults playlistCall;
       playlist_pageToken := Some nextPageToken |}
  else playlistCall.

Definition videosCall (videoIDs : list string) : VideosListCall :=
  {| videos_part := ["snippet"; "statistics"; "contentDetails"];
     videos_id := Join videoIDs "," |}.

(** The loop [for { ... }] over the pages.  The service decides how many
    pages there are, so the loop is bounded by [fuel] iterations here;
    the answer [None] says that it is still running after them.  The lines
    written to the error stream under [YTT_DEBUG] change neither the calls
    nor the result and are left out. *)
Fixpoint listPages (fuel : nat) (uploadsPlaylistID : string)
    (minDurationSeconds : Z) (videos : list VideoInfo) (nextPageToken : string)
    (st : State) : State * option returned :=
  match fuel with
  | O => (st, None)
  | S fuel' =>
      let playlistCall := playlistItemsCall uploadsPlaylistID nextPageToken in
      let (st, r) := doPlaylistItems playlistCall st in
      match r with
      | Err err =>
          (st, Some (None, Some ("error retrieving playlist items: " ++ err)))
      | Ok playlistResponse =>
          let videoIDs := map ResourceId_VideoId (PlaylistItems playlistResponse) in
          if (0 <? length videoIDs)%nat then
            let (st, r) := doVideos (videosCall videoIDs) st in
            match r with
            | Err err =>
                (st, Some (None, Some ("error retrieving video statistics: " ++ err)))
            | Ok videosResponse =>
                let videos := appendVideos minDurationSeconds videos (Videos videosResponse) in
                let nextPageToken := NextPageToken playlistResponse in
                if String.eqb nextPageToken "" then (st, Some (Some videos, None))
                else listPages fuel' uploadsPlaylistID minDurationSeconds videos nextPageToken st
            end
          else
            let nextPageToken := NextPageToken playlistResponse in
            if String.eqb nextPageToken "" then (st, Some (Some videos, None))
            else listPages fuel' uploadsPlaylistID minDurationSeconds videos nextPageToken st
      end
  end.

(** The lines before the loop: the channel, then its uploads playlist. *)
Definition resolveUploads (channelID : string) (st : State)
  : State * (string * option Error) :=
  let '(st, (channelID, err)) :=
    if String.eqb channelID "" then getAuthenticatedChannelID st
    else (st, (channelID, None)) in
  match err with
  | Some err => (st, ("", Some err))
  | None => getUploadsPlaylistID channelID st
  end.

Definition ListVideos (fuel : nat) (channelID : string) (minDurationSeconds : Z)
    (st : State) : State * option returned :=
  let '(st, (uploadsPlaylistID, err)) := resolveUploads channelID st in
  match err with
  | Some err => (st, Some (None, Some err))
  | None => listPages fuel uploadsPlaylistID minDurationSeconds [] "" st
  end.

(** The batch detail fetch of one page, seen from the wire: one call for
    all the identifiers of the page, and no call for a page without any. *)
Definition batchDetails (videoIDs : list string) (w : W) : W * result (list Video) :=
  match videoIDs with
  | [] => (w, Ok [])
  | _ :: _ =>
      let (w, r) := VideosDo svc (videosCall videoIDs) w in
      (w, match r with Ok resp => Ok (Videos resp) | Err e => Err e end)
  end.

Definition batchEvents (videoIDs : list string) : list Event :=
  match videoIDs with
  | [] => []
  | _ :: _ => [EvVideos (videosCall videoIDs) None]
  end.

End WithService.

Arguments State W : clear implicits.

(** The video identifiers a page lists. *)
Definition ids_of (p : PlaylistItemListResponse) : list string :=
  map ResourceId_VideoId (PlaylistItems p).

(** The videos the filter lets through. *)
Definition kept (minDurationSeconds : Z) (video : Video) : bool :=
  negb (isShort (ContentDetails_Duration video) minDurationSeconds).

Definition fetch_ok (ev : Event) : Prop := failed_fetch ev = None.

(** What a run of the loop leaves in the trace: fetches that succeeded,
    followed, exactly when the loop returns an error, by the one fetch
    that failed. *)
Definition loop_outcome (evs : list Event) (out : option returned) : Prop :=
  match out with
  | None => Forall fetch_ok evs
  | Some (Some _, None) => Forall fetch_ok evs
  | Some (None, Some msg) =>
      exists evs0 ev e,
        evs = (evs0 ++ [ev])%list /\ Forall fetch_ok evs0 /\
        failed_fetch ev = Some e /\
        (msg = "error retrieving playlist items: " ++ e \/
         msg = "error retrieving video statistics: " ++ e)
  | Some (_, _) => False
  end.

(** The two-page property as the design document words it: whatever the
    detail records are, N + M summaries without a repeated identifier. *)
Definition two_pages_as_stated : Prop :=
  forall (W : Type) (svc : Service W) (fuel : nat) (channelID : string) (m : Z)
         (st0 st1 : State W) (pl : string) (w2 w3 w4 w5 : W)
         (p1 p2 : PlaylistItemListResponse) (v1 v2 : list Video) (N M : nat),
    resolveUploads svc channelID st0 = (st1, (pl, None)) ->
    PlaylistItemsDo svc (playlistItemsCall pl "") (world st1) = (w2, Ok p1) ->
    length (PlaylistItems p1) = N -> NextPageToken p1 <> "" ->
    batchDetails svc (ids_of p1) w2 = (w3, Ok v1) ->
    PlaylistItemsDo svc (playlistItemsCall pl (NextPageToken p1)) w3 = (w4, Ok p2) ->
    length (PlaylistItems p2) = M -> NextPageToken p2 = "" ->
    batchDetails svc (ids_of p2) w4 = (w5, Ok v2) ->
    (2 <= fuel)%nat ->
    exists vs,
      snd (ListVideos svc fuel channelID m st0) = Some (Some vs, None) /\
      length vs = (N + M)%nat /\ NoDup (map VideoID vs).

(** *** Simulated listings

    A service without state whose answers are functions of the request:
    [pages] answers a page fetch from its cursor, [details] a batch fetch
    from the joined identifiers. *)
Definition simulated
    (pages : option string -> result PlaylistItemListResponse)
    (details : string -> result VideoListResponse) : Service unit :=
  {| ChannelsDo := fun _ w =>
       (w, Ok {| Channels := [{| Channel_Id := "UC1"; RelatedPlaylists_Uploads := "UU1" |}] |});
     PlaylistItemsDo := fun call w => (w, pages (playlist_pageToken call));
     VideosDo := fun call w => (w, details (videos_id call)) |}.

Definition page (ids : list string) (next : string) : PlaylistItemListResponse :=
  {| PlaylistItems := map (fun i => {| ResourceId_VideoId := i |}) ids;
     NextPageToken := next |}.

Definition clip (id duration : string) : Video :=
  {| Id := id; Snippet_Title := id; Snippet_PublishedAt := "2024-01-01T00:00:00Z";
     Statistics_ViewCount := 1; ContentDetails_Duration := duration |}.

(** Two pages of one video each; the first video lasts 30 seconds. *)
Definition listing_short : Service unit :=
  simulated
    (fun cursor => match cursor with
                   | None => Ok (page ["a"] "t2")
                   | Some _ => Ok (page ["b"] "")
                   end)
    (fun ids => if String.eqb ids "a" then Ok {| Videos := [clip "a" "PT30S"] |}
                else Ok {| Videos := [clip "b" "PT5M"] |}).

(** Two pages that list the same video. *)
Definition listing_repeated : Service unit :=
  simulated
    (fun cursor => match cursor with
                   | None => Ok (page ["a"] "t2")
                   | Some _ => Ok (page ["a"] "")
                   end)
    (fun _ => Ok {| Videos := [clip "a" "PT5M"] |}).

(** Two pages; the remote has no detail record for the second video. *)
Definition listing_missing : Service unit :=
  simulated
    (fun cursor => match cursor with
                   | None => Ok (page ["a"] "t2")
                   | Some _ => Ok (page ["b"] "")
                   end)
    (fun ids => if String.eqb ids "a" then Ok {| Videos := [clip "a" "PT5M"] |}
                else Ok {| Videos := [] |}).

(** Two pages of two and one videos, all of five minutes. *)
Definition listing_long : Service unit :=
  simulated
    (fun cursor => match cursor with
                   | None => Ok (page ["a"; "b"] "t2")
                   | Some _ => Ok (page ["c"] "")
                   end)
    (fun ids => if String.eqb ids "a,b"
                then Ok {| Videos := [clip "a" "PT5M"; clip "b" "PT5M"] |}
                else Ok {| Videos := [clip "c" "PT5M"] |}).

(** The second page fetch fails. *)
Definition listing_broken : Service unit :=
  simulated
    (fun cursor => match cursor with
                   | None => Ok (page ["a"] "t2")
                   | Some _ => Err "connection reset"
                   end)
    (fun _ => Ok {| Videos := [clip "a" "PT5M"] |}).

(** A channel without uploads. *)
Definition listing_empty : Service unit :=
  simulated (fun _ => Ok (page [] "")) (fun _ => Err "not called").

Definition start : State unit := {| world := tt; trace := [] |}.

End Catalog.

Module CatalogFacts.
Import Duration Go Catalog.

Local Open Scope string_scope.

Section WithService.

Context {W : Type} (svc : Service W).

(** *** The filter *)

Lemma appendVideos_filter m items : forall videos,
  appendVideos m videos items = (videos ++ map summary (filter (kept m) items))%list.
Proof.
  unfold appendVideos, kept.
  induction items as [|v items IH]; intros videos; simpl.
  - now rewrite app_nil_r.
  - rewrite IH. destruct (isShort _ m); simpl; [reflexivity|].
    now rewrite <- app_assoc.
Qed.

Lemma appendVideos_all_kept m videos items :
  (forall v, In v items -> isShort (ContentDetails_Duration v) m = false) ->
  appendVideos m videos items = (videos ++ map summary items)%list.
Proof.
  intros H. rewrite appendVideos_filter. do 2 f_equal.
  induction items as [|v items IH]; simpl; [reflexivity|].
  unfold kept at 1. rewrite (H v) by now left. simpl. f_equal.
  apply IH. intros x Hx. apply H. now right.
Qed.

(** *** One iteration of the loop *)

Lemma doPlaylistItems_eq call (st : State W) w r :
  PlaylistItemsDo svc call (world st) = (w, r) ->
  doPlaylistItems svc call st =
  ({| world := w; trace := trace st ++ [EvPlaylistItems call (error_of r)] |}, r).
Proof. unfold doPlaylistItems. now intros ->. Qed.

Lemma doVideos_eq call (st : State W) w r :
  VideosDo svc call (world st) = (w, r) ->
  doVideos svc call st =
  ({| world := w; trace := trace st ++ [EvVideos call (error_of r)] |}, r).
Proof. unfold doVideos. now intros ->. Qed.

Lemma listPages_S fuel pl m videos tok (st : State W) :
  listPages svc (S fuel) pl m videos tok st =
  let (st1, r) := doPlaylistItems svc (playlistItemsCall pl tok) st in
  match r with
  | Err err => (st1, Some (None, Some ("error retrieving playlist items: " ++ err)))
  | Ok playlistResponse =>
      if (0 <? length (ids_of playlistResponse))%nat then
        let (st2, r) := doVideos svc (videosCall (ids_of playlistResponse)) st1 in
        match r with
        | Err err =>
            (st2, Some (None, Some ("error retrieving video statistics: " ++ err)))
        | Ok videosResponse =>
            if String.eqb (NextPageToken playlistResponse) ""
            then (st2, Some (Some (appendVideos m videos (Videos videosResponse)), None))
            else listPages svc fuel pl m (appendVideos m videos (Videos videosResponse))
                   (NextPageToken playlistResponse) st2
        end
      else
        if String.eqb (NextPageToken playlistResponse) ""
        then (st1, Some (Some videos, None))
        else listPages svc fuel pl m videos (NextPageToken playlistResponse) st1
  end.
Proof. reflexivity. Qed.

(** A page whose fetch and whose batch detail fetch both succeed. *)
Lemma listPages_page fuel pl m videos tok (st : State W) w w' p vs :
  PlaylistItemsDo svc (playlistItemsCall pl tok) (world st) = (w, Ok p) ->
  batchDetails svc (ids_of p) w = (w', Ok vs) ->
  listPages svc (S fuel) pl m videos tok st =
  let st' :=
    {| world := w';
       trace := trace st ++
                EvPlaylistItems (playlistItemsCall pl tok) None :: batchEvents (ids_of p) |} in
  if String.eqb (NextPageToken p) ""
  then (st', Some (Some (appendVideos m videos vs), None))
  else listPages svc fuel pl m (appendVideos m videos vs) (NextPageToken p) st'.
Proof.
  intros Hp Hd. rewrite listPages_S, (doPlaylistItems_eq _ _ _ _ Hp).
  unfold batchDetails, batchEvents in *.
  destruct (ids_of p) as [|i ids] eqn:Hids.
  - injection Hd as <- <-. reflexivity.
  - change (0 <? length (i :: ids))%nat with true. cbv iota.
    destruct (VideosDo svc (videosCall (i :: ids)) w) as [w2 [resp|e]] eqn:Hv;
      [|discriminate].
    injection Hd as <- <-.
    rewrite (doVideos_eq _ {| world := w; trace := _ |} _ _ Hv).
    simpl. rewrite <- app_assoc. reflexivity.
Qed.

(** *** The calls of a run *)

Lemma resolveUploads_trace channelID (st st' : State W) res :
  resolveUploads svc channelID st = (st', res) ->
  exists evs, trace st' = (trace st ++ evs)%list /\
              Forall fetch_ok evs /\ filter is_videos_call evs = [].
Proof.
  unfold resolveUploads, getAuthenticatedChannelID, getUploadsPlaylistID, doChannels.
  destruct (String.eqb channelID "").
  - destruct (ChannelsDo svc _ (world st)) as [w1 [r1|e1]]; simpl.
    + destruct (Channels r1) as [|ch chs]; simpl.
      * intros E; injection E as <- <-. simpl.
        eexists; split; [reflexivity|]. split; [repeat constructor|reflexivity].
      * destruct (ChannelsDo svc _ w1) as [w2 [r2|e2]]; simpl.
        -- destruct (Channels r2); intros E; injection E as <- <-; simpl;
             rewrite <- app_assoc; (eexists; split; [reflexivity|]);
             (split; [repeat constructor|reflexivity]).
        -- intros E; injection E as <- <-; simpl.
           rewrite <- app_assoc. eexists; split; [reflexivity|].
           split; [repeat constructor|reflexivity].
    + intros E; injection E as <- <-. simpl.
      eexists; split; [reflexivity|]. split; [repeat constructor|reflexivity].
  - destruct (ChannelsDo svc _ (world st)) as [w1 [r1|e1]]; simpl.
    + destruct (Channels r1); intros E; injection E as <- <-; simpl;
        (eexists; split; [reflexivity|]);
        (split; [repeat constructor|reflexivity]).
    + intros E; injection E as <- <-. simpl.
      eexists; split; [reflexivity|]. split; [repeat constructor|reflexivity].
Qed.

Lemma loop_outcome_cons ev evs out :
  fetch_ok ev -> loop_outcome evs out -> loop_outcome (ev :: evs) out.
Proof.
  intros Hev. destruct out as [[[vs|] [msg|]]|]; simpl; auto.
  intros (evs0 & ev' & e & -> & H0 & Hf & Hm).
  exists (ev :: evs0), ev', e. repeat split; auto.
Qed.

Lemma listPages_trace fuel : forall pl m videos tok (st st' : State W) out,
  listPages svc fuel pl m videos tok st = (st', out) ->
  exists evs, trace st' = (trace st ++ evs)%list /\ loop_outcome evs out.
Proof.
  induction fuel as [|fuel IH]; intros pl m videos tok st st' out.
  - simpl. intros E; injection E as <- <-. exists []. rewrite app_nil_r.
    split; [reflexivity|constructor].
  - rewrite listPages_S. unfold doPlaylistItems, doVideos.
    destruct (PlaylistItemsDo svc _ (world st)) as [w1 [p|e]]; simpl.
    2:{ intros E; injection E as <- <-. simpl. eexists; split; [reflexivity|].
        exists [], (EvPlaylistItems (playlistItemsCall pl tok) (Some e)), e.
        repeat split; auto. }
    destruct (0 <? length (ids_of p))%nat.
    + destruct (VideosDo svc _ w1) as [w2 [resp|e]]; simpl.
      2:{ intros E; injection E as <- <-. simpl. rewrite <- app_assoc.
          eexists; split; [reflexivity|].
          exists [EvPlaylistItems (playlistItemsCall pl tok) None],
                 (EvVideos (videosCall (ids_of p)) (Some e)), e.
          repeat split; auto. repeat constructor. }
      destruct (String.eqb (NextPageToken p) "").
      * intros E; injection E as <- <-. simpl. rewrite <- app_assoc.
        eexists; split; [reflexivity|]. repeat constructor.
      * intros E. apply IH in E as (evs & Ht & Ho). simpl in Ht.
        rewrite <- !app_assoc in Ht. eexists; split; [exact Ht|].
        simpl. apply loop_outcome_cons; [reflexivity|].
        apply loop_outcome_cons; [reflexivity|exact Ho].
    + destruct (String.eqb (NextPageToken p) "").
      * intros E; injection E as <- <-. simpl.
        eexists; split; [reflexivity|]. repeat constructor.
      * intros E. apply IH in E as (evs & Ht & Ho). simpl in Ht.
        rewrite <- !app_assoc in Ht. eexists; split; [exact Ht|].
        simpl. apply loop_outcome_cons; [reflexivity|exact Ho].
Qed.

(** *** The statements about [ListVideos] *)

(** C10: when the first page of the uploads listing comes back with no
    item and an empty cursor, [ListVideos] returns an empty, non-nil
    sequence and no error after that single page fetch, and the run holds
    no batch detail call. *)
Theorem ListVideos_empty_listing
    (fuel : nat) (channelID : string) (m : Z) (st0 st1 : State W)
    (pl : string) (w2 : W) (p : PlaylistItemListResponse) :
  resolveUploads svc channelID st0 = (st1, (pl, None)) ->
  PlaylistItemsDo svc (playlistItemsCall pl "") (world st1) = (w2, Ok p) ->
  PlaylistItems p = [] -> NextPageToken p = "" ->
  (1 <= fuel)%nat ->
  ListVideos svc fuel channelID m st0 =
    ({| world := w2;
        trace := trace st1 ++ [EvPlaylistItems (playlistItemsCall pl "") None] |},
     Some (Some [], None)) /\
  filter is_videos_call
    (trace st1 ++ [EvPlaylistItems (playlistItemsCall pl "") None]) =
  filter is_videos_call (trace st0).
Proof.
  intros Hres Hp Hitems Htok Hfuel.
  assert (Hids : ids_of p = []) by (unfold ids_of; now rewrite Hitems).
  split.
  - unfold ListVideos. rewrite Hres.
    destruct fuel as [|fuel]; [lia|].
    rewrite (listPages_page fuel pl m [] "" st1 w2 w2 p []); auto.
    + cbv zeta. rewrite Htok, Hids. reflexivity.
    + now rewrite Hids.
  - destruct (resolveUploads_trace _ _ _ _ Hres) as (evs & -> & _ & Hv).
    rewrite !filter_app, Hv. simpl. now rewrite !app_nil_r.
Qed.

(** C2 (amended): two pages, the first with N items and a cursor and the
    second with M items and an empty cursor.  When every batch detail
    fetch returns exactly the records of the identifiers its page lists,
    no record is below the threshold, and no identifier is listed twice,
    [ListVideos] returns the N + M summaries of those records, in listing
    order and without a repeated identifier; it fetches a page twice, the
    second time with the cursor of the first page, and stops there. *)
Theorem ListVideos_two_pages
    (fuel : nat) (channelID : string) (m : Z) (st0 st1 : State W) (pl : string)
    (w2 w3 w4 w5 : W) (p1 p2 : PlaylistItemListResponse) (v1 v2 : list Video)
    (N M : nat) :
  resolveUploads svc channelID st0 = (st1, (pl, None)) ->
  PlaylistItemsDo svc (playlistItemsCall pl "") (world st1) = (w2, Ok p1) ->
  length (PlaylistItems p1) = N -> NextPageToken p1 <> "" ->
  batchDetails svc (ids_of p1) w2 = (w3, Ok v1) ->
  PlaylistItemsDo svc (playlistItemsCall pl (NextPageToken p1)) w3 = (w4, Ok p2) ->
  length (PlaylistItems p2) = M -> NextPageToken p2 = "" ->
  batchDetails svc (ids_of p2) w4 = (w5, Ok v2) ->
  map Id v1 = ids_of p1 -> map Id v2 = ids_of p2 ->
  (forall v, In v (v1 ++ v2) -> isShort (ContentDetails_Duration v) m = false) ->
  NoDup (ids_of p1 ++ ids_of p2) ->
  (2 <= fuel)%nat ->
  exists vs,
    ListVideos svc fuel channelID m st0 =
      ({| world := w5;
          trace := trace st1 ++
            EvPlaylistItems (playlistItemsCall pl "") None :: batchEvents (ids_of p1) ++
            EvPlaylistItems (playlistItemsCall pl (NextPageToken p1)) None ::
            batchEvents (ids_of p2) |},
       Some (Some vs, None)) /\
    vs = map summary (v1 ++ v2) /\
    length vs = (N + M)%nat /\
    map VideoID vs = (ids_of p1 ++ ids_of p2)%list /\
    NoDup (map VideoID vs).
Proof.
  intros Hres Hp1 HN Ht1 Hd1 Hp2 HM Ht2 Hd2 Hm1 Hm2 Hlong Hnd Hfuel.
  exists (map summary (v1 ++ v2)).
  assert (Hids : map VideoID (map summary (v1 ++ v2)) = (ids_of p1 ++ ids_of p2)%list).
  { rewrite map_map. simpl. rewrite map_app. now rewrite <- Hm1, <- Hm2. }
  split; [|split; [reflexivity|split; [|split]]].
  - unfold ListVideos. rewrite Hres.
    destruct fuel as [|[|fuel]]; try lia.
    rewrite (listPages_page (S fuel) pl m [] "" st1 w2 w3 p1 v1 Hp1 Hd1).
    cbv zeta. apply String.eqb_neq in Ht1. rewrite Ht1.
    rewrite (listPages_page fuel pl m _ _ {| world := w3; trace := _ |} w4 w5 p2 v2 Hp2 Hd2).
    cbv zeta. rewrite Ht2. simpl String.eqb. cbv iota.
    rewrite !appendVideos_all_kept.
    + simpl trace. rewrite <- app_assoc. simpl. rewrite map_app. reflexivity.
    + intros v Hv. apply Hlong, in_or_app. now left.
    + intros v Hv. apply Hlong, in_or_app. now right.
  - rewrite <- (length_map VideoID), Hids, length_app.
    unfold ids_of. rewrite !length_map. lia.
  - exact Hids.
  - rewrite Hids. exact Hnd.
Qed.

(** C5: a run in which a page fetch or a batch detail fetch came back with
    an error ends with [nil] for the sequence and an error that wraps the
    one of that fetch; the summaries collected before it are not
    returned. *)
Theorem ListVideos_all_or_nothing
    (fuel : nat) (channelID : string) (m : Z) (w : W) (st' : State W)
    (out : option returned) (ev : Event) (e : Error) :
  ListVideos svc fuel channelID m {| world := w; trace := [] |} = (st', out) ->
  In ev (trace st') -> failed_fetch ev = Some e ->
  exists msg,
    out = Some (None, Some msg) /\
    (msg = "error retrieving playlist items: " ++ e \/
     msg = "error retrieving video statistics: " ++ e).
Proof.
  unfold ListVideos. intros Hrun Hin Hfail.
  destruct (resolveUploads svc channelID {| world := w; trace := [] |})
    as [st1 [pl err]] eqn:Hres.
  destruct (resolveUploads_trace _ _ _ _ Hres) as (evs1 & Ht1 & Hok1 & _).
  simpl in Ht1.
  assert (Hnot : forall evs, Forall fetch_ok evs -> ~ In ev evs).
  { intros evs Hall Hi. rewrite Forall_forall in Hall.
    specialize (Hall ev Hi). unfold fetch_ok in Hall. congruence. }
  destruct err as [err|].
  - injection Hrun as <- <-. rewrite Ht1 in Hin. now apply Hnot in Hin.
  - apply listPages_trace in Hrun as (evs & Ht & Ho).
    rewrite Ht, Ht1 in Hin. apply in_app_or in Hin as [Hin|Hin];
      [now apply Hnot in Hin|].
    destruct out as [[[vs|] [msg|]]|]; simpl in Ho;
      try contradiction; try (now apply Hnot in Hin).
    destruct Ho as (evs0 & ev' & e' & -> & H0 & Hf & Hm).
    apply in_app_or in Hin as [Hin|[<-|[]]]; [now apply Hnot in Hin|].
    assert (e' = e) by congruence. subst e'.
    exists msg. split; [reflexivity|exact Hm].
Qed.

End WithService.

(** C2, as stated, fails on simulated listings of one item per page
    ([N = M = 1]): a video below the threshold is filtered out, the same
    identifier listed on both pages is returned twice, and a video without
    a detail record is not returned. *)
Lemma two_pages_not_as_stated :
  snd (ListVideos listing_short 2 "UC1" 60 start) =
    Some (Some [summary (clip "b" "PT5M")], None) /\
  snd (ListVideos listing_repeated 2 "UC1" 60 start) =
    Some (Some [summary (clip "a" "PT5M"); summary (clip "a" "PT5M")], None) /\
  snd (ListVideos listing_missing 2 "UC1" 60 start) =
    Some (Some [summary (clip "a" "PT5M")], None) /\
  ~ two_pages_as_stated.
Proof.
  split; [reflexivity|]. split; [reflexivity|]. split; [reflexivity|].
  intros H.
  destruct (H unit listing_short 2%nat "UC1" 60 start
              {| world := tt;
                 trace := [EvChannels {| channels_part := ["contentDetails"];
                                         channels_mine := false;
                                         channels_id := Some "UC1" |} None] |}
              "UU1" tt tt tt tt (page ["a"] "t2") (page ["b"] "")
              [clip "a" "PT30S"] [clip "b" "PT5M"] 1%nat 1%nat)
    as (vs & Hvs & Hlen & _); try reflexivity.
  - discriminate.
  - injection Hvs as <-. discriminate Hlen.
Qed.

(** C2, at a listing of two and one videos of five minutes each. *)
Lemma ListVideos_two_pages_witness :
  exists vs,
    ListVideos listing_long 2 "UC1" 60 start =
      ({| world := tt;
          trace :=
            trace (fst (resolveUploads listing_long "UC1" start)) ++
            EvPlaylistItems (playlistItemsCall "UU1" "") None ::
            batchEvents ["a"; "b"] ++
            EvPlaylistItems (playlistItemsCall "UU1" "t2") None ::
            batchEvents ["c"] |},
       Some (Some vs, None)) /\
    vs = map summary [clip "a" "PT5M"; clip "b" "PT5M"; clip "c" "PT5M"] /\
    length vs = (2 + 1)%nat /\
    map VideoID vs = ["a"; "b"; "c"] /\
    NoDup (map VideoID vs).
Proof.
  refine (ListVideos_two_pages listing_long 2 "UC1" 60 start
            (fst (resolveUploads listing_long "UC1" start)) "UU1" tt tt tt tt
            (page ["a"; "b"] "t2") (page ["c"] "")
            [clip "a" "PT5M"; clip "b" "PT5M"] [clip "c" "PT5M"] 2 1
            _ _ _ _ _ _ _ _ _ _ _ _ _ _); try reflexivity.
  - discriminate.
  - intros v Hv. simpl in Hv.
    destruct Hv as [<-|[<-|[<-|[]]]]; reflexivity.
  - repeat constructor; simpl; intuition discriminate.
Defined.


(** C5, at a listing whose second page fetch fails after the first page
    gave one summary. *)
Lemma ListVideos_all_or_nothing_witness :
  exists msg,
    snd (ListVideos listing_broken 5 "UC1" 60 start) = Some (None, Some msg) /\
    (msg = "error retrieving playlist items: connection reset" \/
     msg = "error retrieving video statistics: connection reset").
Proof.
  apply (ListVideos_all_or_nothing listing_broken 5 "UC1" 60 tt
           (fst (ListVideos listing_broken 5 "UC1" 60 start))
           (snd (ListVideos listing_broken 5 "UC1" 60 start))
           (EvPlaylistItems (playlistItemsCall "UU1" "t2") (Some "connection reset"))
           "connection reset").
  - reflexivity.
  - simpl. right. right. right. left. reflexivity.
  - reflexivity.
Defined.

(** C10, at a channel without uploads. *)
Lemma ListVideos_empty_listing_witness :
  ListVideos listing_empty 1 "UC1" 60 start =
    ({| world := tt;
        trace := trace (fst (resolveUploads listing_empty "UC1" start)) ++
                 [EvPlaylistItems (playlistItemsCall "UU1" "") None] |},
     Some (Some [], None)) /\
  filter is_videos_call
    (trace (fst (resolveUploads listing_empty "UC1" start)) ++
     [EvPlaylistItems (playlistItemsCall "UU1" "") None]) =
  filter is_videos_call (trace start).
Proof.
  apply (ListVideos_empty_listing listing_empty 1 "UC1" 60 start
           (fst (resolveUploads listing_empty "UC1" start)) "UU1" tt (page [] ""));
    try reflexivity; try lia.
Defined.

End CatalogFacts.

(** ** [client.go]: the credential file, the callback listener and
    getHTTPClient *)

Module Auth.
Import Go.

Local Open Scope string_scope.

(** [oauth2.Token]; [Expiry] is an instant on the clock of [time.Now]. *)
Record Token := {
  AccessToken : string;
  TokenType : string;
  RefreshToken : string;
  Expiry : Z
}.

(** The fields of [oauth2.Config] that the code touches. *)
Record Config := { ClientID : string; RedirectURL : string }.

(** [config.Client(ctx, tok)]: the client and the token it is bound to. *)
Record Client := { client_config : Config; client_token : Token }.

(** A call either returns or blocks for ever. *)
Inductive outcome (A : Type) : Type :=
| Returns (a : A)
| Blocks.
Arguments Returns {A} a.
Arguments Blocks {A}.

(** *** The one-shot callback listener of getTokenFromWeb

    The listener is the unbuffered channel [codeChan], the handler
    goroutines of the HTTP server, and the calling goroutine that receives
    from the channel once.  A send on an unbuffered channel completes
    when a receiver waits and blocks otherwise; a receive takes the
    sender that has blocked first and waits when there is none. *)

Record Request := { query : list (string * string) }.

(** [r.URL.Query().Get(key)]: the first value of [key], or the empty
    string. *)
Fixpoint Get (q : list (string * string)) (key : string) : string :=
  match q with
  | [] => ""
  | (k, v) :: q' => if String.eqb k key then v else Get q' key
  end.

(** Where the calling goroutine stands: before [authCode := <-codeChan],
    blocked in it, or past it with the value received. *)
Inductive caller :=
| Running
| Receiving
| Received (authCode : string).

Record Listener := {
  main : caller;
  sendq : list string;       (* the codes of the handlers blocked in their send *)
  pages : list string;       (* the bodies written to the browser *)
  serving : bool;            (* cleared by server.Shutdown *)
  handoffs : list string     (* the values that went through codeChan *)
}.

Definition respond (body : string) (l : Listener) : Listener :=
  {| main := main l; sendq := sendq l; pages := pages l ++ [body];
     serving := serving l; handoffs := handoffs l |}.

(** [codeChan <- code] *)
Definition send (code : string) (l : Listener) : Listener :=
  match main l with
  | Receiving =>
      {| main := Received code; sendq := sendq l; pages := pages l;
         serving := serving l; handoffs := handoffs l ++ [code] |}
  | _ =>
      {| main := main l; sendq := sendq l ++ [code]; pages := pages l;
         serving := serving l; handoffs := handoffs l |}
  end.

(** The handler registered on the pattern of every path. *)
Definition handler (r : Request) (l : Listener) : Listener :=
  let code := Get (query r) "code" in
  if negb (String.eqb code "") then
    send code (respond "Authorization successful! You can close this tab." l)
  else
    send "" (respond "Authorization failed: no code received" l).

(** [authCode := <-codeChan] *)
Definition receive (l : Listener) : Listener :=
  match main l with
  | Running =>
      match sendq l with
      | code :: q =>
          {| main := Received code; sendq := q; pages := pages l;
             serving := serving l; handoffs := handoffs l ++ [code] |}
      | [] =>
          {| main := Receiving; sendq := sendq l; pages := pages l;
             serving := serving l; handoffs := handoffs l |}
      end
  | _ => l
  end.

(** [server.Shutdown(ctx)], which the caller reaches after the receive. *)
Definition shutdown (l : Listener) : Listener :=
  match main l with
  | Received _ =>
      {| main := main l; sendq := sendq l; pages := pages l;
         serving := false; handoffs := handoffs l |}
  | _ => l
  end.

(** What can happen next: the handler of a request arrives at its send,
    the caller arrives at its receive, the caller shuts the server
    down. *)
Inductive Action :=
| Arrives (r : Request)
| Receives
| ShutsDown.

Definition step (l : Listener) (a : Action) : Listener :=
  match a with
  | Arrives r => if serving l then handler r l else l
  | Receives => receive l
  | ShutsDown => shutdown l
  end.

Definition run (sched : list Action) (l : Listener) : Listener :=
  fold_left step sched l.

(** The state after [go server.ListenAndServe()]. *)
Definition listening : Listener :=
  {| main := Running; sendq := []; pages := []; serving := true; handoffs := [] |}.

(** What [authCode := <-codeChan] gives the caller under a schedule.  The
    caller arrives at its receive at the latest after the last event of
    the schedule; when no handler has arrived by then, it blocks for
    ever. *)
Definition awaitCode (sched : list Action) : outcome string :=
  match main (run (sched ++ [Receives]) listening) with
  | Received authCode => Returns authCode
  | _ => Blocks
  end.

(** The body the handler writes for a request. *)
Definition page_of (r : Request) : string :=
  if negb (String.eqb (Get (query r) "code") "")
  then "Authorization successful! You can close this tab."
  else "Authorization failed: no code received".

(** A listener that no request has reached yet. *)
Definition idle (l : Listener) : Prop :=
  pages l = [] /\ serving l = true /\ handoffs l = [] /\
  ((main l = Running /\ sendq l = []) \/ main l = Receiving).

(** The request whose handler arrives first. *)
Fixpoint first_request (sched : list Action) : option Request :=
  match sched with
  | [] => None
  | Arrives r :: _ => Some r
  | _ :: sched' => first_request sched'
  end.

(** The first request that carries a code, wherever it stands among the
    requests. *)
Fixpoint first_coded (sched : list Action) : option Request :=
  match sched with
  | [] => None
  | Arrives r :: sched' =>
      if negb (String.eqb (Get (query r) "code") "") then Some r
      else first_coded sched'
  | _ :: sched' => first_coded sched'
  end.

(** The one-shot property as the design document words it: in every
    execution the first request that carries a code has its code
    delivered to the caller, once. *)
Definition one_shot_as_stated : Prop :=
  forall (sched : list Action) (r : Request),
    first_coded sched = Some r -> In Receives sched ->
    main (run sched listening) = Received (Get (query r) "code") /\
    handoffs (run sched listening) = [Get (query r) "code"].

(** [config.RedirectURL = "http://localhost:8080"] *)
Definition redirected (c : Config) : Config :=
  {| ClientID := ClientID c; RedirectURL := "http://localhost:8080" |}.

(** *** The environment of getHTTPClient *)

Inductive Event :=
| EvStderr (line : string)
| EvRefresh (tok : Token) (err : option Error)
| EvListen (addr : string)
| EvShutdown
| EvExchange (code : string) (err : option Error)
| EvWriteFile (path data : string).

Definition is_flow (ev : Event) : bool :=
  match ev with
  | EvListen _ => true
  | _ => false
  end.

Definition is_write (ev : Event) : bool :=
  match ev with
  | EvWriteFile _ _ => true
  | _ => false
  end.

(** The token endpoint, the JSON codec and the path library. *)
Record OAuth (R : Type) := {
  TokenSource_Token : Config -> Token -> R -> R * result Token;
  Exchange : Config -> string -> R -> R * result Token;
  AuthCodeURL : Config -> string -> string;
  Decode : string -> Token * option Error;
  Encode : Token -> string;
  filepath_Dir : string -> string
}.
Arguments TokenSource_Token {R} _ _ _ _.
Arguments Exchange {R} _ _ _ _.
Arguments AuthCodeURL {R} _ _ _.
Arguments Decode {R} _ _.
Arguments Encode {R} _ _.
Arguments filepath_Dir {R} _ _.

(** The machine the program runs on: the files by path ([None]: absent or
    unreadable), the directories and files that cannot be created, the
    files that cannot be written in full ([Some (n, err)]: a write to the
    file fails with [err] after [n] bytes at most), the clock, the interleaving of the listener that the browser and the
    scheduler produce during an authorization flow, the state behind the
    token endpoint, the configuration object that [config] points to, and
    what the run has done so far. *)
Record Env (R : Type) := {
  files : string -> option string;
  mkdir_error : string -> option Error;
  open_error : string -> option Error;
  write_error : string -> option (nat * Error);
  now : Z;
  schedule : list Action;
  remote : R;
  config : Config;
  log : list Event
}.
Arguments files {R} _ _.
Arguments mkdir_error {R} _ _.
Arguments open_error {R} _ _.
Arguments write_error {R} _ _.
Arguments now {R} _.
Arguments schedule {R} _.
Arguments remote {R} _.
Arguments config {R} _.
Arguments log {R} _.

Section WithOAuth.

Context {R : Type} (oauth : OAuth R).

Definition emit (ev : Event) (env : Env R) : Env R :=
  {| files := files env; mkdir_error := mkdir_error env;
     open_error := open_error env; write_error := write_error env;
     now := now env; schedule := schedule env;
     remote := remote env; config := config env; log := log env ++ [ev] |}.

Definition with_remote (r : R) (env : Env R) : Env R :=
  {| files := files env; mkdir_error := mkdir_error env;
     open_error := open_error env; write_error := write_error env;
     now := now env; schedule := schedule env;
     remote := r; config := config env; log := log env |}.

Definition with_config (c : Config) (env : Env R) : Env R :=
  {| files := files env; mkdir_error := mkdir_error env;
     open_error := open_error env; write_error := write_error env;
     now := now env; schedule := schedule env;
     remote := remote env; config := c; log := log env |}.

Definition with_schedule (s : list Action) (env : Env R) : Env R :=
  {| files := files env; mkdir_error := mkdir_error env;
     open_error := open_error env; write_error := write_error env;
     now := now env; schedule := s;
     remote := remote env; config := config env; log := log env |}.

Definition write_file (path data : string) (env : Env R) : Env R :=
  {| files := fun p => if String.eqb p path then Some data else files env p;
     mkdir_error := mkdir_error env; open_error := open_error env;
     write_error := write_error env;
     now := now env; schedule := schedule env; remote := remote env;
     config := config env; log := log env ++ [EvWriteFile path data] |}.

(** What a write of [data] leaves in a file that was opened with
    truncation: all of it, or its first [n] bytes at most when the write
    fails. *)
Definition written (failure : option (nat * Error)) (data : string) : string :=
  match failure with
  | Some (n, _) => substring 0 n data
  | None => data
  end.

(** [tokenFromFile]: open the file and decode it.  The caller reads the
    token only when the error is nil. *)
Definition tokenFromFile (file : string) (env : Env R) : Env R * result Token :=
  match files env file with
  | None => (env, Err ("open " ++ file ++ ": no such file or directory"))
  | Some data =>
      let (tok, err) := Decode oauth data in
      match err with
      | Some err => (env, Err err)
      | None => (env, Ok tok)
      end
  end.

(** [saveToken]: the directory, the notice, the file opened with
    truncation, the encoded token written to it; the error of the
    encoder's write is returned as it is.  The modes 0700 and 0600 are
    not modelled. *)
Definition saveToken (path : string) (token : Token) (env : Env R)
  : Env R * option Error :=
  let dir := filepath_Dir oauth path in
  match mkdir_error env dir with
  | Some err => (env, Some ("unable to create token directory: " ++ err))
  | None =>
      let env := emit (EvStderr ("Saving credential file to: " ++ path)) env in
      match open_error env path with
      | Some err => (env, Some ("unable to cache oauth token: " ++ err))
      | None =>
          let failure := write_error env path in
          (write_file path (written failure (Encode oauth token)) env,
           option_map snd failure)
      end
  end.

(** [getTokenFromWeb]: start the listener, print the consent address,
    receive the code, shut the listener down, exchange the code.  The
    reminder printed one second later is left out. *)
Definition getTokenFromWeb (env : Env R) : Env R * outcome (result Token) :=
  let env := emit (EvListen ":8080") env in
  let env := with_config (redirected (config env)) env in
  let authURL := AuthCodeURL oauth (config env) "state-token" in
  let env := emit (EvStderr ("Opening browser for authorization... " ++ authURL)) env in
  match awaitCode (schedule env) with
  | Returns authCode =>
      let env := emit EvShutdown (with_schedule [] env) in
      if String.eqb authCode "" then
        (env, Returns (Err "authorization failed"))
      else
        let (r, res) := Exchange oauth (config env) authCode (remote env) in
        let env :=
          emit (EvExchange authCode (match res with Ok _ => None | Err e => Some e end))
               (with_remote r env) in
        match res with
        | Err err =>
            (env, Returns (Err ("unable to retrieve token from web: " ++ err)))
        | Ok tok => (env, Returns (Ok tok))
        end
  | Blocks => (env, Blocks)
  end.

(** [tok, err = getTokenFromWeb(config)], [saveToken(tokenPath, tok)]: the
    lines that both branches of getHTTPClient share. *)
Definition authorize (tokenPath : string) (env : Env R)
  : Env R * outcome (result Client) :=
  let (env, o) := getTokenFromWeb env in
  match o with
  | Blocks => (env, Blocks)
  | Returns (Err err) => (env, Returns (Err err))
  | Returns (Ok tok) =>
      let (env, err) := saveToken tokenPath tok env in
      match err with
      | Some err => (env, Returns (Err err))
      | None =>
          (env, Returns (Ok {| client_config := config env; client_token := tok |}))
      end
  end.

Definition getHTTPClient (tokenPath : string) (env : Env R)
  : Env R * outcome (result Client) :=
  let (env, r) := tokenFromFile tokenPath env in
  match r with
  | Err _ => authorize tokenPath env
  | Ok tok =>
      if (Expiry tok <? now env)%Z then
        let (r, res) := TokenSource_Token oauth (config env) tok (remote env) in
        let env :=
          emit (EvRefresh tok (match res with Ok _ => None | Err e => Some e end))
               (with_remote r env) in
        match res with
        | Err err =>
            let env := emit (EvStderr ("Token refresh failed: " ++ err)) env in
            let env := emit (EvStderr "Re-authenticating...") env in
            authorize tokenPath env
        | Ok newTok =>
            if negb (String.eqb (AccessToken newTok) (AccessToken tok)) then
              let tok := newTok in
              let (env, err) := saveToken tokenPath tok env in
              match err with
              | Some err => (env, Returns (Err err))
              | None =>
                  (env, Returns (Ok {| client_config := config env; client_token := tok |}))
              end
            else
              (env, Returns (Ok {| client_config := config env; client_token := tok |}))
        end
      else
        (env, Returns (Ok {| client_config := config env; client_token := tok |}))
  end.

(** The number of authorization flows and the file writes of a run. *)
Definition flows (env : Env R) : nat := length (filter is_flow (log env)).

Definition writes (env : Env R) : list Event := filter is_write (log env).

(** The refresh fallback as the design document words it: an expired
    token and a failing refresh always end in one flow, a persisted token
    and a client bound to it. *)
Definition fallback_as_stated : Prop :=
  forall (tokenPath data : string) (env : Env R) (tok : Token) (r : R) (e : Error),
    files env tokenPath = Some data ->
    Decode oauth data = (tok, None) ->
    (Expiry tok < now env)%Z ->
    TokenSource_Token oauth (config env) tok (remote env) = (r, Err e) ->
    exists env' tok' client,
      getHTTPClient tokenPath env = (env', Returns (Ok client)) /\
      flows env' = (flows env + 1)%nat /\
      files env' tokenPath = Some (Encode oauth tok') /\
      client_token client = tok'.

End WithOAuth.

(** *** A simulated machine

    The credential file holds the word [expired] for a token that ran out
    at instant 100, or [fresh] for one that lasts until 900; the token
    endpoint refreshes the refresh token [r-good] only and exchanges the
    code [ABC] only. *)

Definition stored (access refresh : string) (expiry : Z) : Token :=
  {| AccessToken := access; TokenType := "Bearer";
     RefreshToken := refresh; Expiry := expiry |}.

Definition endpoint (renewed : string) : OAuth unit :=
  {| TokenSource_Token := fun _ tok r =>
       (r, if String.eqb (RefreshToken tok) "r-good"
           then Ok (stored renewed "r-good" 1000)
           else Err "invalid_grant");
     Exchange := fun _ code r =>
       (r, if String.eqb code "ABC" then Ok (stored "a-web" "r-good" 1000)
           else Err "invalid code");
     AuthCodeURL := fun c state => "https://accounts.example/auth?state=" ++ state;
     Decode := fun data =>
       if String.eqb data "expired" then (stored "a-old" "r-good" 100, None)
       else if String.eqb data "revoked" then (stored "a-old" "r-bad" 100, None)
       else if String.eqb data "fresh" then (stored "a-old" "r-good" 900, None)
       else (stored "" "" 0, Some "invalid character");
     Encode := fun tok => AccessToken tok;
     filepath_Dir := fun _ => "secrets" |}.

Definition machine (data : string) (sched : list Action) : Env unit :=
  {| files := fun p => if String.eqb p "secrets/token.json" then Some data else None;
     mkdir_error := fun _ => None;
     open_error := fun _ => None;
     write_error := fun _ => None;
     now := 500;
     schedule := sched;
     remote := tt;
     config := {| ClientID := "ytt"; RedirectURL := "" |};
     log := [] |}.

(** The same machine with a disk that is full: a file can be opened and
    truncated, and no byte can be written to it. *)
Definition full_disk (env : Env unit) : Env unit :=
  {| files := files env; mkdir_error := mkdir_error env;
     open_error := open_error env;
     write_error := fun _ => Some (0%nat, "no space left on device");
     now := now env; schedule := schedule env; remote := remote env;
     config := config env; log := log env |}.

Definition redirect (code : string) : Request := {| query := [("code", code)] |}.

(** The redirect of a consent that was denied carries no code. *)
Definition denied : Request := {| query := [("error", "access_denied")] |}.

End Auth.

Module AuthFacts.
Import Go Auth.

Local Open Scope string_scope.

(** *** The listener *)

Lemma run_app a b l : run (a ++ b) l = run b (run a l).
Proof. apply fold_left_app. Qed.

Lemma handler_send r l :
  handler r l = send (Get (query r) "code") (respond (page_of r) l).
Proof.
  unfold handler, page_of.
  destruct (String.eqb_spec (Get (query r) "code") "") as [E|E]; simpl;
    [now rewrite E|reflexivity].
Qed.

(** Once the caller has received, nothing changes what it holds. *)
Lemma step_received l a c :
  main l = Received c ->
  main (step l a) = Received c /\ handoffs (step l a) = handoffs l.
Proof.
  intros Hm. destruct a as [r| |]; simpl.
  - destruct (serving l); [|auto].
    rewrite handler_send. unfold send, respond. simpl. rewrite Hm. simpl. auto.
  - unfold receive. rewrite Hm. auto.
  - unfold shutdown. rewrite Hm. simpl. auto.
Qed.

Lemma run_received sched : forall l c,
  main l = Received c ->
  main (run sched l) = Received c /\ handoffs (run sched l) = handoffs l.
Proof.
  induction sched as [|a sched IH]; intros l c Hm; simpl; [auto|].
  destruct (step_received l a c Hm) as [Hm' Hh'].
  destruct (IH _ _ Hm') as [H1 H2]. split; [exact H1|congruence].
Qed.

Lemma run_received_once sched l c :
  main l = Received c -> handoffs l = [c] ->
  main (run sched l) = Received c /\ handoffs (run sched l) = [c].
Proof.
  intros Hm Hh. destruct (run_received sched l c Hm) as [H1 H2].
  split; [exact H1|congruence].
Qed.

(** A handler blocked in its send while the caller is still on its way:
    the head of the queue is what the caller will receive. *)
Lemma run_queued sched : forall l c q,
  main l = Running -> sendq l = c :: q -> handoffs l = [] ->
  In Receives sched ->
  main (run sched l) = Received c /\ handoffs (run sched l) = [c].
Proof.
  induction sched as [|a sched IH]; intros l c q Hm Hq Hh Hin; [destruct Hin|].
  destruct a as [r| |]; simpl.
  - destruct Hin as [Hin|Hin]; [discriminate|].
    destruct (serving l); [|eauto].
    rewrite handler_send. apply (IH _ c (q ++ [Get (query r) "code"])%list); auto;
      unfold send, respond; simpl; rewrite Hm; simpl; auto.
    now rewrite Hq.
  - assert (Hr : receive l =
                 {| main := Received c; sendq := q; pages := pages l;
                    serving := serving l; handoffs := [c] |}).
    { unfold receive. now rewrite Hm, Hq, Hh. }
    rewrite Hr. apply run_received_once; reflexivity.
  - destruct Hin as [Hin|Hin]; [discriminate|].
    unfold shutdown. rewrite Hm. eauto.
Qed.

(** The caller blocked in its receive: the next handler hands it its
    code. *)
Lemma run_receiving sched : forall l r,
  main l = Receiving -> serving l = true -> handoffs l = [] ->
  first_request sched = Some r ->
  main (run sched l) = Received (Get (query r) "code") /\
  handoffs (run sched l) = [Get (query r) "code"].
Proof.
  induction sched as [|a sched IH]; intros l r Hm Hs Hh Hf; [discriminate|].
  destruct a as [r'| |]; simpl in *.
  - injection Hf as ->. rewrite Hs, handler_send.
    assert (Hsend : send (Get (query r) "code") (respond (page_of r) l) =
                    {| main := Received (Get (query r) "code"); sendq := sendq l;
                       pages := (pages l ++ [page_of r])%list; serving := serving l;
                       handoffs := [Get (query r) "code"] |}).
    { unfold send, respond. simpl. now rewrite Hm, Hh. }
    rewrite Hsend. apply run_received_once; reflexivity.
  - unfold receive. rewrite Hm. auto.
  - unfold shutdown. rewrite Hm. auto.
Qed.

Lemma run_listening sched : forall l r,
  main l = Running -> sendq l = [] -> serving l = true -> handoffs l = [] ->
  first_request sched = Some r -> In Receives sched ->
  main (run sched l) = Received (Get (query r) "code") /\
  handoffs (run sched l) = [Get (query r) "code"].
Proof.
  induction sched as [|a sched IH]; intros l r Hm Hq Hs Hh Hf Hin; [discriminate|].
  destruct a as [r'| |]; simpl in *.
  - injection Hf as ->. destruct Hin as [Hin|Hin]; [discriminate|].
    rewrite Hs, handler_send.
    apply (run_queued sched _ _ []); auto;
      unfold send, respond; simpl; rewrite Hm; simpl; auto.
    now rewrite Hq.
  - apply run_receiving; auto; unfold receive; rewrite Hm, Hq; simpl; auto.
  - destruct Hin as [Hin|Hin]; [discriminate|].
    unfold shutdown. rewrite Hm. auto.
Qed.

(** The first page the listener writes is the one of the first request. *)
Lemma step_pages_head l a p :
  hd_error (pages l) = Some p -> hd_error (pages (step l a)) = Some p.
Proof.
  intros H. destruct a as [r| |]; simpl.
  - destruct (serving l); [|exact H].
    rewrite handler_send. unfold send, respond. simpl.
    destruct (pages l) as [|x xs]; [discriminate|].
    destruct (main l); exact H.
  - unfold receive. destruct (main l); auto. destruct (sendq l); auto.
  - unfold shutdown. destruct (main l); auto.
Qed.

Lemma run_pages_head sched : forall l p,
  hd_error (pages l) = Some p -> hd_error (pages (run sched l)) = Some p.
Proof.
  induction sched as [|a sched IH]; intros l p H; simpl; [exact H|].
  apply IH, step_pages_head, H.
Qed.

Lemma run_idle_page sched : forall l r,
  idle l -> first_request sched = Some r ->
  hd_error (pages (run sched l)) = Some (page_of r).
Proof.
  induction sched as [|a sched IH]; intros l r Hidle Hf; [discriminate|].
  destruct Hidle as (Hp & Hs & Hh & Hm).
  destruct a as [r'| |]; simpl in *.
  - injection Hf as ->. rewrite Hs, handler_send.
    apply run_pages_head. unfold send, respond. simpl. rewrite Hp.
    destruct (main l); reflexivity.
  - apply IH; [|exact Hf]. unfold receive, idle.
    destruct Hm as [[Hm Hq]|Hm]; rewrite Hm; [rewrite Hq|]; simpl; auto 10.
  - apply IH; [|exact Hf]. unfold shutdown, idle.
    destruct Hm as [[Hm Hq]|Hm]; rewrite Hm; simpl; auto 10.
Qed.

Lemma idle_listening : idle listening.
Proof. unfold idle, listening; simpl; auto 10. Qed.

Lemma first_request_app sched later r :
  first_request sched = Some r -> first_request (sched ++ later) = Some r.
Proof.
  induction sched as [|a sched IH]; simpl; [discriminate|].
  destruct a; auto.
Qed.

(** The first handler to arrive decides what the caller receives, with or
    without a code in its request. *)
Lemma listener_first_wins sched r :
  first_request sched = Some r -> In Receives sched ->
  forall later,
    main (run (sched ++ later) listening) = Received (Get (query r) "code") /\
    handoffs (run (sched ++ later) listening) = [Get (query r) "code"].
Proof.
  intros Hf Hin later. rewrite run_app.
  destruct (run_listening sched listening r) as [H1 H2]; auto.
  now apply run_received_once.
Qed.

Lemma awaitCode_first sched r :
  first_request sched = Some r -> awaitCode sched = Returns (Get (query r) "code").
Proof.
  intros Hf. unfold awaitCode.
  destruct (run_listening (sched ++ [Receives]) listening r) as [H1 _]; auto.
  - now apply first_request_app.
  - apply in_or_app. right. now left.
  - now rewrite H1.
Qed.

Lemma first_request_none_app sched later :
  first_request sched = None ->
  first_request (sched ++ later) = first_request later.
Proof.
  induction sched as [|a sched IH]; simpl; [reflexivity|].
  destruct a; auto. discriminate.
Qed.

(** Without a request the caller never gets past its receive. *)
Lemma run_no_request sched : forall l,
  first_request sched = None ->
  (forall c, main l <> Received c) -> sendq l = [] ->
  (forall c, main (run sched l) <> Received c) /\ sendq (run sched l) = [].
Proof.
  induction sched as [|a sched IH]; intros l Hf Hm Hq; [simpl; auto|].
  change (run (a :: sched) l) with (run sched (step l a)).
  destruct a as [r| |]; simpl in Hf; [discriminate| |]; cbn [step].
  - assert (Hr : receive l = l \/
                 receive l = {| main := Receiving; sendq := sendq l; pages := pages l;
                                serving := serving l; handoffs := handoffs l |}).
    { unfold receive. destruct (main l); auto. rewrite Hq. auto. }
    apply IH; [exact Hf| |]; destruct Hr as [-> | ->]; auto.
    intros c. discriminate.
  - assert (Hs : shutdown l = l).
    { unfold shutdown. destruct (main l) eqn:E; auto.
      exfalso. apply (Hm authCode). reflexivity. }
    rewrite Hs. apply IH; auto.
Qed.

(** The caller blocks for ever exactly when no request arrives. *)
Lemma awaitCode_blocks sched :
  awaitCode sched = Blocks <-> first_request sched = None.
Proof.
  split.
  - intros Hb. destruct (first_request sched) as [r|] eqn:Hf; [|reflexivity].
    rewrite (awaitCode_first sched r Hf) in Hb. discriminate.
  - intros Hf. unfold awaitCode.
    destruct (run_no_request (sched ++ [Receives]) listening) as [Hm _].
    + rewrite (first_request_none_app _ _ Hf). reflexivity.
    + intros c. discriminate.
    + reflexivity.
    + destruct (main (run (sched ++ [Receives]) listening)) eqn:E; try reflexivity.
      exfalso. apply (Hm authCode). reflexivity.
Qed.

(** Only the first request is honoured: after a redirect without a code
    the caller holds the empty string, and the code of a later redirect
    stays in the queue of blocked senders. *)
Example listener_denied_first :
  awaitCode [Arrives denied; Arrives (redirect "ABC")] = Returns "" /\
  sendq (run [Arrives denied; Receives; Arrives (redirect "ABC")] listening) = ["ABC"] /\
  handoffs (run [Arrives denied; Receives; Arrives (redirect "ABC")] listening) = [""] /\
  awaitCode [] = Blocks.
Proof. repeat split; reflexivity. Qed.

(** C9 (amended): in every execution of the listener in which the caller
    arrives at its receive, the caller receives exactly the code
    parameter of the first request whose handler arrives at its send,
    empty or not; the channel carries that one value; nothing that
    happens later (further requests, with or without a code, or the
    shutdown) is received or changes the value; and the page written
    first tells whether that request carried a code.  The redirect with
    [code=ABC] is therefore delivered when it is the first request, and
    only then. *)
Theorem listener_one_shot (sched : list Action) (r : Request) (code : string) :
  first_request sched = Some r ->
  Get (query r) "code" = code ->
  In Receives sched ->
  main (run sched listening) = Received code /\
  handoffs (run sched listening) = [code] /\
  (forall later,
     main (run (sched ++ later) listening) = Received code /\
     handoffs (run (sched ++ later) listening) = [code]) /\
  awaitCode sched = Returns code /\
  hd_error (pages (run sched listening)) = Some (page_of r) /\
  (code <> "" ->
   page_of r = "Authorization successful! You can close this tab.") /\
  (code = "" -> page_of r = "Authorization failed: no code received").
Proof.
  intros Hf Hc Hin. subst code.
  pose proof (listener_first_wins sched r Hf Hin) as Hlater.
  destruct (Hlater []) as [H1 H2]. rewrite app_nil_r in H1, H2.
  split; [exact H1|]. split; [exact H2|]. split; [exact Hlater|].
  split; [now apply awaitCode_first|].
  split; [exact (run_idle_page sched listening r idle_listening Hf)|].
  unfold page_of. split.
  - intros Hne. apply String.eqb_neq in Hne. now rewrite Hne.
  - intros ->. reflexivity.
Qed.

(** C9, as stated, fails: when a request without a code arrives first,
    the caller receives the empty string, and the code of the redirect
    that follows, the first request to carry one, is never delivered. *)
Lemma one_shot_not_as_stated :
  first_coded [Arrives denied; Arrives (redirect "ABC"); Receives] =
    Some (redirect "ABC") /\
  main (run [Arrives denied; Arrives (redirect "ABC"); Receives] listening) =
    Received "" /\
  (forall later,
     handoffs (run ([Arrives denied; Arrives (redirect "ABC"); Receives] ++ later)
                 listening) = [""]) /\
  ~ one_shot_as_stated.
Proof.
  split; [reflexivity|]. split; [reflexivity|]. split.
  - intros later. rewrite run_app.
    apply (run_received_once later _ ""); reflexivity.
  - intros H.
    destruct (H [Arrives denied; Arrives (redirect "ABC"); Receives] (redirect "ABC"))
      as [Hmain _]; [reflexivity|simpl; auto|].
    discriminate Hmain.
Qed.

(** C9, at an execution in which the redirect with [code=ABC] arrives
    before the caller receives and is followed by a second redirect, the
    shutdown and a request without a code. *)
Lemma listener_one_shot_witness :
  main (run [Arrives (redirect "ABC"); Receives; Arrives (redirect "XYZ");
             ShutsDown; Arrives denied] listening) = Received "ABC" /\
  handoffs (run [Arrives (redirect "ABC"); Receives; Arrives (redirect "XYZ");
                 ShutsDown; Arrives denied] listening) = ["ABC"] /\
  (forall later,
     main (run ([Arrives (redirect "ABC"); Receives; Arrives (redirect "XYZ");
                 ShutsDown; Arrives denied] ++ later) listening) = Received "ABC" /\
     handoffs (run ([Arrives (redirect "ABC"); Receives; Arrives (redirect "XYZ");
                     ShutsDown; Arrives denied] ++ later) listening) = ["ABC"]) /\
  awaitCode [Arrives (redirect "ABC"); Receives; Arrives (redirect "XYZ");
             ShutsDown; Arrives denied] = Returns "ABC" /\
  hd_error (pages (run [Arrives (redirect "ABC"); Receives; Arrives (redirect "XYZ");
                        ShutsDown; Arrives denied] listening)) =
    Some "Authorization successful! You can close this tab.".
Proof.
  destruct (listener_one_shot
              [Arrives (redirect "ABC"); Receives; Arrives (redirect "XYZ");
               ShutsDown; Arrives denied] (redirect "ABC") "ABC")
    as (H1 & H2 & H3 & H4 & H5 & _).
  - reflexivity.
  - reflexivity.
  - simpl. right. left. reflexivity.
  - split; [exact H1|]. split; [exact H2|]. split; [exact H3|].
    split; [exact H4|exact H5].
Defined.

(** *** getHTTPClient *)

(** The fields of a machine after each of its updates. *)

Lemma files_emit {R} ev (env : Env R) :
  files (emit ev env) = files env.
Proof. reflexivity. Qed.

Lemma mkdir_error_emit {R} ev (env : Env R) :
  mkdir_error (emit ev env) = mkdir_error env.
Proof. reflexivity. Qed.

Lemma open_error_emit {R} ev (env : Env R) :
  open_error (emit ev env) = open_error env.
Proof. reflexivity. Qed.

Lemma write_error_emit {R} ev (env : Env R) :
  write_error (emit ev env) = write_error env.
Proof. reflexivity. Qed.

Lemma now_emit {R} ev (env : Env R) :
  now (emit ev env) = now env.
Proof. reflexivity. Qed.

Lemma schedule_emit {R} ev (env : Env R) :
  schedule (emit ev env) = schedule env.
Proof. reflexivity. Qed.

Lemma remote_emit {R} ev (env : Env R) :
  remote (emit ev env) = remote env.
Proof. reflexivity. Qed.

Lemma config_emit {R} ev (env : Env R) :
  config (emit ev env) = config env.
Proof. reflexivity. Qed.

Lemma log_emit {R} ev (env : Env R) :
  log (emit ev env) = (log env ++ [ev])%list.
Proof. reflexivity. Qed.

Lemma files_with_remote {R} r (env : Env R) :
  files (with_remote r env) = files env.
Proof. reflexivity. Qed.

Lemma mkdir_error_with_remote {R} r (env : Env R) :
  mkdir_error (with_remote r env) = mkdir_error env.
Proof. reflexivity. Qed.

Lemma open_error_with_remote {R} r (env : Env R) :
  open_error (with_remote r env) = open_error env.
Proof. reflexivity. Qed.

Lemma write_error_with_remote {R} r (env : Env R) :
  write_error (with_remote r env) = write_error env.
Proof. reflexivity. Qed.

Lemma now_with_remote {R} r (env : Env R) :
  now (with_remote r env) = now env.
Proof. reflexivity. Qed.

Lemma schedule_with_remote {R} r (env : Env R) :
  schedule (with_remote r env) = schedule env.
Proof. reflexivity. Qed.

Lemma remote_with_remote {R} r (env : Env R) :
  remote (with_remote r env) = r.
Proof. reflexivity. Qed.

Lemma config_with_remote {R} r (env : Env R) :
  config (with_remote r env) = config env.
Proof. reflexivity. Qed.

Lemma log_with_remote {R} r (env : Env R) :
  log (with_remote r env) = log env.
Proof. reflexivity. Qed.

Lemma files_with_config {R} c (env : Env R) :
  files (with_config c env) = files env.
Proof. reflexivity. Qed.

Lemma mkdir_error_with_config {R} c (env : Env R) :
  mkdir_error (with_config c env) = mkdir_error env.
Proof. reflexivity. Qed.

Lemma open_error_with_config {R} c (env : Env R) :
  open_error (with_config c env) = open_error env.
Proof. reflexivity. Qed.

Lemma write_error_with_config {R} c (env : Env R) :
  write_error (with_config c env) = write_error env.
Proof. reflexivity. Qed.

Lemma now_with_config {R} c (env : Env R) :
  now (with_config c env) = now env.
Proof. reflexivity. Qed.

Lemma schedule_with_config {R} c (env : Env R) :
  schedule (with_config c env) = schedule env.
Proof. reflexivity. Qed.

Lemma remote_with_config {R} c (env : Env R) :
  remote (with_config c env) = remote env.
Proof. reflexivity. Qed.

Lemma config_with_config {R} c (env : Env R) :
  config (with_config c env) = c.
Proof. reflexivity. Qed.

Lemma log_with_config {R} c (env : Env R) :
  log (with_config c env) = log env.
Proof. reflexivity. Qed.

Lemma files_with_schedule {R} s (env : Env R) :
  files (with_schedule s env) = files env.
Proof. reflexivity. Qed.

Lemma mkdir_error_with_schedule {R} s (env : Env R) :
  mkdir_error (with_schedule s env) = mkdir_error env.
Proof. reflexivity. Qed.

Lemma open_error_with_schedule {R} s (env : Env R) :
  open_error (with_schedule s env) = open_error env.
Proof. reflexivity. Qed.

Lemma write_error_with_schedule {R} s (env : Env R) :
  write_error (with_schedule s env) = write_error env.
Proof. reflexivity. Qed.

Lemma now_with_schedule {R} s (env : Env R) :
  now (with_schedule s env) = now env.
Proof. reflexivity. Qed.

Lemma schedule_with_schedule {R} s (env : Env R) :
  schedule (with_schedule s env) = s.
Proof. reflexivity. Qed.

Lemma remote_with_schedule {R} s (env : Env R) :
  remote (with_schedule s env) = remote env.
Proof. reflexivity. Qed.

Lemma config_with_schedule {R} s (env : Env R) :
  config (with_schedule s env) = config env.
Proof. reflexivity. Qed.

Lemma log_with_schedule {R} s (env : Env R) :
  log (with_schedule s env) = log env.
Proof. reflexivity. Qed.

Lemma files_write_file {R} path data (env : Env R) :
  files (write_file path data env) = fun p => if String.eqb p path then Some data else files env p.
Proof. reflexivity. Qed.

Lemma mkdir_error_write_file {R} path data (env : Env R) :
  mkdir_error (write_file path data env) = mkdir_error env.
Proof. reflexivity. Qed.

Lemma open_error_write_file {R} path data (env : Env R) :
  open_error (write_file path data env) = open_error env.
Proof. reflexivity. Qed.

Lemma write_error_write_file {R} path data (env : Env R) :
  write_error (write_file path data env) = write_error env.
Proof. reflexivity. Qed.

Lemma now_write_file {R} path data (env : Env R) :
  now (write_file path data env) = now env.
Proof. reflexivity. Qed.

Lemma schedule_write_file {R} path data (env : Env R) :
  schedule (write_file path data env) = schedule env.
Proof. reflexivity. Qed.

Lemma remote_write_file {R} path data (env : Env R) :
  remote (write_file path data env) = remote env.
Proof. reflexivity. Qed.

Lemma config_write_file {R} path data (env : Env R) :
  config (write_file path data env) = config env.
Proof. reflexivity. Qed.

Lemma log_write_file {R} path data (env : Env R) :
  log (write_file path data env) = (log env ++ [EvWriteFile path data])%list.
Proof. reflexivity. Qed.

Create Rewrite HintDb env.

#[local] Hint Rewrite
  @files_emit
  @mkdir_error_emit
  @open_error_emit
  @write_error_emit
  @now_emit
  @schedule_emit
  @remote_emit
  @config_emit
  @log_emit
  @files_with_remote
  @mkdir_error_with_remote
  @open_error_with_remote
  @write_error_with_remote
  @now_with_remote
  @schedule_with_remote
  @remote_with_remote
  @config_with_remote
  @log_with_remote
  @files_with_config
  @mkdir_error_with_config
  @open_error_with_config
  @write_error_with_config
  @now_with_config
  @schedule_with_config
  @remote_with_config
  @config_with_config
  @log_with_config
  @files_with_schedule
  @mkdir_error_with_schedule
  @open_error_with_schedule
  @write_error_with_schedule
  @now_with_schedule
  @schedule_with_schedule
  @remote_with_schedule
  @config_with_schedule
  @log_with_schedule
  @files_write_file
  @mkdir_error_write_file
  @open_error_write_file
  @write_error_write_file
  @now_write_file
  @schedule_write_file
  @remote_write_file
  @config_write_file
  @log_write_file
  : env.

Ltac env_simpl :=
  unfold flows, writes; autorewrite with env;
  rewrite ?filter_app, ?length_app;
  cbn [filter is_flow is_write length app];
  rewrite ?app_nil_r, ?Nat.add_0_r.

Section WithOAuth.

Context {R : Type} (oauth : OAuth R).

(** What saveToken does to the machine: nothing when the directory or
    the file cannot be made; otherwise the file is truncated and holds
    what could be written of the encoded token. *)
Lemma saveToken_effect path token (env env' : Env R) err :
  saveToken oauth path token env = (env', err) ->
  flows env' = flows env /\ config env' = config env /\
  (forall p, p <> path -> files env' p = files env p) /\
  match err with
  | None =>
      mkdir_error env (filepath_Dir oauth path) = None /\
      open_error env path = None /\
      write_error env path = None /\
      files env' path = Some (Encode oauth token) /\
      writes env' = (writes env ++ [EvWriteFile path (Encode oauth token)])%list
  | Some msg =>
      (exists e,
         mkdir_error env (filepath_Dir oauth path) = Some e /\
         msg = "unable to create token directory: " ++ e /\
         files env' = files env /\ writes env' = writes env) \/
      (exists e,
         mkdir_error env (filepath_Dir oauth path) = None /\
         open_error env path = Some e /\
         msg = "unable to cache oauth token: " ++ e /\
         files env' = files env /\ writes env' = writes env) \/
      (exists n,
         mkdir_error env (filepath_Dir oauth path) = None /\
         open_error env path = None /\
         write_error env path = Some (n, msg) /\
         files env' path = Some (substring 0 n (Encode oauth token)) /\
         writes env' =
           (writes env ++ [EvWriteFile path (substring 0 n (Encode oauth token))])%list)
  end.
Proof.
  unfold saveToken.
  destruct (mkdir_error env (filepath_Dir oauth path)) as [e1|] eqn:Hm.
  - intros E; apply pair_equal_spec in E as [<- <-].
    repeat apply conj; auto. left. exists e1. auto.
  - cbv zeta. autorewrite with env.
    destruct (open_error env path) as [e2|] eqn:Ho.
    + intros E; apply pair_equal_spec in E as [<- <-]. env_simpl.
      repeat apply conj; auto. right. left. exists e2. auto.
    + destruct (write_error env path) as [[n e3]|] eqn:Hw;
        intros E; apply pair_equal_spec in E as [<- <-]; env_simpl;
        cbn [option_map snd written]; rewrite String.eqb_refl.
      * repeat apply conj; auto.
        -- intros p Hp. apply String.eqb_neq in Hp. now rewrite Hp.
        -- right. right. exists n. auto.
      * repeat apply conj; auto.
        intros p Hp. apply String.eqb_neq in Hp. now rewrite Hp.
Qed.

(** What one authorization flow does to the machine. *)
Lemma getTokenFromWeb_effect (env env' : Env R) o :
  getTokenFromWeb oauth env = (env', o) ->
  flows env' = (flows env + 1)%nat /\ files env' = files env /\
  writes env' = writes env /\ mkdir_error env' = mkdir_error env /\
  open_error env' = open_error env /\ write_error env' = write_error env /\
  config env' = redirected (config env) /\
  match awaitCode (schedule env) with
  | Blocks => o = Blocks
  | Returns code =>
      if String.eqb code "" then o = Returns (Err "authorization failed")
      else
        match snd (Exchange oauth (redirected (config env)) code (remote env)) with
        | Ok tok => o = Returns (Ok tok)
        | Err err => o = Returns (Err ("unable to retrieve token from web: " ++ err))
        end
  end.
Proof.
  unfold getTokenFromWeb. cbv zeta. autorewrite with env.
  destruct (awaitCode (schedule env)) as [code|].
  - destruct (String.eqb code "").
    + intros E; apply pair_equal_spec in E as [<- <-]. env_simpl.
      repeat apply conj; reflexivity.
    + destruct (Exchange oauth (redirected (config env)) code (remote env))
        as [r' [tok|err]]; intros E; apply pair_equal_spec in E as [<- <-];
        env_simpl; repeat apply conj; reflexivity.
  - intros E; apply pair_equal_spec in E as [<- <-]. env_simpl.
    repeat apply conj; reflexivity.
Qed.

(** With an expired token and a failing refresh, getHTTPClient goes on
    with the flow on a machine that differs from the first in its log
    and in the state behind the endpoint only. *)
Lemma getHTTPClient_refresh_failed tokenPath data (env : Env R) tok r e :
  files env tokenPath = Some data ->
  Decode oauth data = (tok, None) ->
  (Expiry tok < now env)%Z ->
  TokenSource_Token oauth (config env) tok (remote env) = (r, Err e) ->
  getHTTPClient oauth tokenPath env =
  authorize oauth tokenPath
    (emit (EvStderr "Re-authenticating...")
       (emit (EvStderr ("Token refresh failed: " ++ e))
          (emit (EvRefresh tok (Some e)) (with_remote r env)))).
Proof.
  intros Hfile Hdec Hexp Href. unfold getHTTPClient, tokenFromFile.
  rewrite Hfile, Hdec. apply Z.ltb_lt in Hexp. rewrite Hexp, Href. reflexivity.
Qed.

(** C3 (amended): with a stored token whose expiry is in the past and a
    refresh that fails, getHTTPClient starts the authorization flow
    exactly once, and what it returns is settled by the flow and the
    save.  When the first request to reach the listener carries no code,
    or the exchange fails, or the directory or the credential file
    cannot be made, the error and no client are returned and every file
    is as it was.  When the file was opened and the write of the encoded
    token fails, the error of the write and no client are returned, and
    the credential file, truncated at the open, holds what was written:
    the stored token is lost.  Otherwise the token of the flow is written
    to the file and a client bound to it is returned; whenever a client
    is returned, the file holds the token the client is bound to.  No
    other file changes, and the call does not return exactly when no
    request ever reaches the listener. *)
Theorem refresh_failure_reauthorizes
    (tokenPath data : string) (env : Env R) (tok : Token) (r : R) (e : Error)
    (env' : Env R) (out : outcome (result Client)) :
  files env tokenPath = Some data ->
  Decode oauth data = (tok, None) ->
  (Expiry tok < now env)%Z ->
  TokenSource_Token oauth (config env) tok (remote env) = (r, Err e) ->
  getHTTPClient oauth tokenPath env = (env', out) ->
  flows env' = (flows env + 1)%nat /\
  (out = Blocks <-> awaitCode (schedule env) = Blocks) /\
  (awaitCode (schedule env) = Returns "" ->
     out = Returns (Err "authorization failed") /\
     files env' = files env /\ writes env' = writes env) /\
  (forall code r' e',
     awaitCode (schedule env) = Returns code -> code <> "" ->
     Exchange oauth (redirected (config env)) code r = (r', Err e') ->
     out = Returns (Err ("unable to retrieve token from web: " ++ e')) /\
     files env' = files env /\ writes env' = writes env) /\
  (forall code r' tok',
     awaitCode (schedule env) = Returns code -> code <> "" ->
     Exchange oauth (redirected (config env)) code r = (r', Ok tok') ->
     (forall e1,
        mkdir_error env (filepath_Dir oauth tokenPath) = Some e1 ->
        out = Returns (Err ("unable to create token directory: " ++ e1)) /\
        files env' = files env /\ writes env' = writes env) /\
     (forall e2,
        mkdir_error env (filepath_Dir oauth tokenPath) = None ->
        open_error env tokenPath = Some e2 ->
        out = Returns (Err ("unable to cache oauth token: " ++ e2)) /\
        files env' = files env /\ writes env' = writes env) /\
     (forall n e3,
        mkdir_error env (filepath_Dir oauth tokenPath) = None ->
        open_error env tokenPath = None ->
        write_error env tokenPath = Some (n, e3) ->
        out = Returns (Err e3) /\
        files env' tokenPath = Some (substring 0 n (Encode oauth tok'))) /\
     (mkdir_error env (filepath_Dir oauth tokenPath) = None ->
      open_error env tokenPath = None ->
      write_error env tokenPath = None ->
      out = Returns (Ok {| client_config := redirected (config env);
                           client_token := tok' |}) /\
      files env' tokenPath = Some (Encode oauth tok') /\
      writes env' = (writes env ++ [EvWriteFile tokenPath (Encode oauth tok')])%list)) /\
  (forall client, out = Returns (Ok client) ->
     files env' tokenPath = Some (Encode oauth (client_token client)) /\
     writes env' =
       (writes env ++ [EvWriteFile tokenPath (Encode oauth (client_token client))])%list) /\
  (forall p, p <> tokenPath -> files env' p = files env p) /\
  (out = Blocks <-> first_request (schedule env) = None) /\
  (forall r0,
     first_request (schedule env) = Some r0 -> Get (query r0) "code" = "" ->
     out = Returns (Err "authorization failed")).
Proof.
  intros Hfile Hdec Hexp Href Hrun.
  enough (Hmain :
    flows env' = (flows env + 1)%nat /\
    (out = Blocks <-> awaitCode (schedule env) = Blocks) /\
    (awaitCode (schedule env) = Returns "" ->
       out = Returns (Err "authorization failed") /\
       files env' = files env /\ writes env' = writes env) /\
    (forall code r' e',
       awaitCode (schedule env) = Returns code -> code <> "" ->
       Exchange oauth (redirected (config env)) code r = (r', Err e') ->
       out = Returns (Err ("unable to retrieve token from web: " ++ e')) /\
       files env' = files env /\ writes env' = writes env) /\
    (forall code r' tok',
       awaitCode (schedule env) = Returns code -> code <> "" ->
       Exchange oauth (redirected (config env)) code r = (r', Ok tok') ->
       (forall e1,
          mkdir_error env (filepath_Dir oauth tokenPath) = Some e1 ->
          out = Returns (Err ("unable to create token directory: " ++ e1)) /\
          files env' = files env /\ writes env' = writes env) /\
       (forall e2,
          mkdir_error env (filepath_Dir oauth tokenPath) = None ->
          open_error env tokenPath = Some e2 ->
          out = Returns (Err ("unable to cache oauth token: " ++ e2)) /\
          files env' = files env /\ writes env' = writes env) /\
       (forall n e3,
          mkdir_error env (filepath_Dir oauth tokenPath) = None ->
          open_error env tokenPath = None ->
          write_error env tokenPath = Some (n, e3) ->
          out = Returns (Err e3) /\
          files env' tokenPath = Some (substring 0 n (Encode oauth tok'))) /\
       (mkdir_error env (filepath_Dir oauth tokenPath) = None ->
        open_error env tokenPath = None ->
        write_error env tokenPath = None ->
        out = Returns (Ok {| client_config := redirected (config env);
                             client_token := tok' |}) /\
        files env' tokenPath = Some (Encode oauth tok') /\
        writes env' =
          (writes env ++ [EvWriteFile tokenPath (Encode oauth tok')])%list)) /\
    (forall client, out = Returns (Ok client) ->
       files env' tokenPath = Some (Encode oauth (client_token client)) /\
       writes env' =
         (writes env ++
          [EvWriteFile tokenPath (Encode oauth (client_token client))])%list) /\
    (forall p, p <> tokenPath -> files env' p = files env p)).
  { destruct Hmain as (H1 & H2 & H3 & H4 & H5 & H6 & H7).
    split; [exact H1|]. split; [exact H2|]. split; [exact H3|].
    split; [exact H4|]. split; [exact H5|]. split; [exact H6|].
    split; [exact H7|]. split.
    - rewrite <- awaitCode_blocks. exact H2.
    - intros r0 Hf Hc. apply H3.
      rewrite (awaitCode_first _ _ Hf), Hc. reflexivity. }
  rewrite (getHTTPClient_refresh_failed _ _ _ _ _ _ Hfile Hdec Hexp Href) in Hrun.
  remember (emit (EvStderr "Re-authenticating...") _) as env2 eqn:Henv2.
  assert (E2 : flows env2 = flows env /\ writes env2 = writes env /\
               files env2 = files env /\ mkdir_error env2 = mkdir_error env /\
               open_error env2 = open_error env /\
               write_error env2 = write_error env /\
               schedule env2 = schedule env /\
               config env2 = config env /\ remote env2 = r).
  { subst env2. env_simpl. repeat apply conj; reflexivity. }
  clear Henv2. destruct E2 as (F2 & W2 & Fi2 & M2 & O2 & We2 & S2 & C2 & R2).
  unfold authorize in Hrun.
  destruct (getTokenFromWeb oauth env2) as [env3 o] eqn:Hweb.
  apply getTokenFromWeb_effect in Hweb
    as (Hflows & Hfiles & Hwrites & Hmk & Hop & Hwe & Hcfg & Hout).
  rewrite ?F2, ?W2, ?Fi2, ?M2, ?O2, ?We2, ?S2, ?C2, ?R2 in *.
  destruct (awaitCode (schedule env)) as [code|] eqn:Haw.
  - destruct (String.eqb_spec code "") as [Hcode|Hcode].
    + (* the first request carries no code *)
      subst o code. apply pair_equal_spec in Hrun as [<- <-].
      split; [lia|]. split; [split; discriminate|].
      split; [intros _; repeat split; congruence|].
      split; [intros c r' e' Hc Hne; congruence|].
      split; [intros c r' t Hc Hne; congruence|].
      split; [discriminate|]. intros p _. congruence.
    + destruct (Exchange oauth (redirected (config env)) code r)
        as [r2 [t2|e2]] eqn:Hex; cbn [snd] in Hout; subst o.
      * (* the flow gives a token *)
        destruct (saveToken oauth tokenPath t2 env3) as [env4 serr] eqn:Hsave.
        apply saveToken_effect in Hsave as (Hf4 & Hc4 & Hframe & Hcase).
        rewrite Hmk, Hop, Hwe in Hcase.
        assert (Hother : forall p, p <> tokenPath -> files env4 p = files env p).
        { intros p Hp. rewrite (Hframe p Hp). congruence. }
        destruct serr as [msg|]; apply pair_equal_spec in Hrun as [<- <-].
        -- split; [lia|]. split; [split; discriminate|].
           split; [intros Hc; congruence|].
           split; [intros c r' e' Hc _ Hx; congruence|].
           split; [|split; [discriminate|exact Hother]].
           intros c r' t Hc _ Hx. assert (c = code) by congruence. subst c.
           rewrite Hx in Hex. apply pair_equal_spec in Hex as [_ Hex].
           injection Hex as <-.
           destruct Hcase as [(e1 & Hm1 & -> & Hfi & Hwr)
                             |[(e1 & Hm1 & Ho1 & -> & Hfi & Hwr)
                              |(n & Hm1 & Ho1 & Hw1 & Hfi & Hwr)]].
           ++ split; [|split; [|split]].
              ** intros e0 Hm0. assert (e0 = e1) by congruence. subst e0.
                 repeat split; congruence.
              ** intros e0 Hm0. congruence.
              ** intros n0 e3 Hm0. congruence.
              ** intros Hm0. congruence.
           ++ split; [|split; [|split]].
              ** intros e0 Hm0. congruence.
              ** intros e0 _ Ho0. assert (e0 = e1) by congruence. subst e0.
                 repeat split; congruence.
              ** intros n0 e3 _ Ho0. congruence.
              ** intros _ Ho0. congruence.
           ++ split; [|split; [|split]].
              ** intros e0 Hm0. congruence.
              ** intros e0 _ Ho0. congruence.
              ** intros n0 e3 _ _ Hw0.
                 assert (Hn : (n0, e3) = (n, msg)) by congruence.
                 injection Hn as -> ->. split; [reflexivity|exact Hfi].
              ** intros _ _ Hw0. congruence.
        -- destruct Hcase as (Hm1 & Ho1 & Hw1 & Hfi & Hwr).
           split; [lia|]. split; [split; discriminate|].
           split; [intros Hc; congruence|].
           split; [intros c r' e' Hc _ Hx; congruence|].
           split; [|split; [|exact Hother]].
           ++ intros c r' t Hc _ Hx. assert (c = code) by congruence. subst c.
              rewrite Hx in Hex. apply pair_equal_spec in Hex as [_ Hex].
              injection Hex as <-.
              split; [|split; [|split]].
              ** intros e0 Hm0. congruence.
              ** intros e0 _ Ho0. congruence.
              ** intros n0 e3 _ _ Hw0. congruence.
              ** intros _ _ _. rewrite Hc4, Hcfg. repeat split; congruence.
           ++ intros client Hcl. injection Hcl as <-. cbn [client_token].
              split; congruence.
      * (* the exchange fails *)
        apply pair_equal_spec in Hrun as [<- <-].
        split; [lia|]. split; [split; discriminate|].
        split; [intros Hc; congruence|].
        split.
        { intros c r' e' Hc _ Hx. assert (c = code) by congruence. subst c.
          rewrite Hx in Hex. apply pair_equal_spec in Hex as [_ Hex].
          injection Hex as <-. repeat split; congruence. }
        split; [intros c r' t Hc _ Hx; congruence|].
        split; [discriminate|]. intros p _. congruence.
  - (* no request ever reaches the listener *)
    subst o. apply pair_equal_spec in Hrun as [<- <-].
    split; [lia|]. split; [split; reflexivity|].
    split; [discriminate|].
    split; [intros c r' e' Hc; discriminate Hc|].
    split; [intros c r' t Hc; discriminate Hc|].
    split; [discriminate|]. intros p _. congruence.
Qed.

(** C4: with a stored token whose expiry is in the past and a refresh
    that succeeds with the same access token, getHTTPClient writes
    nothing, leaves every file as it is, and returns a client; with a
    different access token it writes the refreshed token to the
    credential file, when the file can be made and written, and returns
    the error of the write over what was written of it otherwise; and a
    write occurs only when the access tokens differ. *)
Theorem refresh_same_token_skips_write
    (tokenPath data : string) (env : Env R) (tok newTok : Token) (r : R) :
  files env tokenPath = Some data ->
  Decode oauth data = (tok, None) ->
  (Expiry tok < now env)%Z ->
  TokenSource_Token oauth (config env) tok (remote env) = (r, Ok newTok) ->
  (AccessToken newTok = AccessToken tok ->
     getHTTPClient oauth tokenPath env =
       (emit (EvRefresh tok None) (with_remote r env),
        Returns (Ok {| client_config := config env; client_token := tok |})) /\
     files (fst (getHTTPClient oauth tokenPath env)) = files env /\
     writes (fst (getHTTPClient oauth tokenPath env)) = writes env) /\
  (AccessToken newTok <> AccessToken tok ->
     mkdir_error env (filepath_Dir oauth tokenPath) = None ->
     open_error env tokenPath = None ->
     write_error env tokenPath = None ->
     snd (getHTTPClient oauth tokenPath env) =
       Returns (Ok {| client_config := config env; client_token := newTok |}) /\
     files (fst (getHTTPClient oauth tokenPath env)) tokenPath =
       Some (Encode oauth newTok) /\
     writes (fst (getHTTPClient oauth tokenPath env)) =
       (writes env ++ [EvWriteFile tokenPath (Encode oauth newTok)])%list) /\
  (AccessToken newTok <> AccessToken tok ->
     mkdir_error env (filepath_Dir oauth tokenPath) = None ->
     open_error env tokenPath = None ->
     forall n e,
       write_error env tokenPath = Some (n, e) ->
       snd (getHTTPClient oauth tokenPath env) = Returns (Err e) /\
       files (fst (getHTTPClient oauth tokenPath env)) tokenPath =
         Some (substring 0 n (Encode oauth newTok))) /\
  (writes (fst (getHTTPClient oauth tokenPath env)) <> writes env ->
     AccessToken newTok <> AccessToken tok).
Proof.
  intros Hfile Hdec Hexp Href.
  assert (Hsame : AccessToken newTok = AccessToken tok ->
     getHTTPClient oauth tokenPath env =
       (emit (EvRefresh tok None) (with_remote r env),
        Returns (Ok {| client_config := config env; client_token := tok |}))).
  { intros Heq. unfold getHTTPClient, tokenFromFile.
    rewrite Hfile, Hdec. apply Z.ltb_lt in Hexp. rewrite Hexp, Href.
    apply String.eqb_eq in Heq. rewrite Heq. reflexivity. }
  split; [|split; [|split]].
  - intros Heq. rewrite (Hsame Heq). split; [reflexivity|].
    cbn [fst]. env_simpl. split; reflexivity.
  - intros Hne Hmk Hop Hwe. unfold getHTTPClient, tokenFromFile.
    rewrite Hfile, Hdec. apply Z.ltb_lt in Hexp. rewrite Hexp, Href.
    apply String.eqb_neq in Hne. rewrite Hne. cbv zeta. cbn [negb].
    destruct (saveToken oauth tokenPath newTok _) as [env4 serr] eqn:Hsave.
    apply saveToken_effect in Hsave as (_ & Hc4 & _ & Hcase).
    autorewrite with env in *. revert Hcase. env_simpl. intros Hcase.
    destruct serr as [serr|].
    + destruct Hcase as [(e1 & H & _)|[(e1 & _ & H & _)|(n & _ & _ & H & _)]];
        congruence.
    + destruct Hcase as (_ & _ & _ & Hfi & Hwr). cbn [fst snd].
      rewrite Hc4. repeat apply conj; auto.
  - intros Hne Hmk Hop n e Hwe. unfold getHTTPClient, tokenFromFile.
    rewrite Hfile, Hdec. apply Z.ltb_lt in Hexp. rewrite Hexp, Href.
    apply String.eqb_neq in Hne. rewrite Hne. cbv zeta. cbn [negb].
    destruct (saveToken oauth tokenPath newTok _) as [env4 serr] eqn:Hsave.
    apply saveToken_effect in Hsave as (_ & _ & _ & Hcase).
    autorewrite with env in *. revert Hcase. env_simpl. intros Hcase.
    destruct serr as [serr|].
    + destruct Hcase as [(e1 & H & _)
                        |[(e1 & _ & H & _)|(n' & _ & _ & Hw & Hfi & _)]];
        try congruence.
      assert (Hn : (n', serr) = (n, e)) by congruence. injection Hn as -> ->.
      cbn [fst snd]. split; [reflexivity|exact Hfi].
    + destruct Hcase as (_ & _ & Hw & _). congruence.
  - intros Hw Heq. apply Hw. rewrite (Hsame Heq). cbn [fst]. env_simpl. reflexivity.
Qed.

End WithOAuth.

(** C3, as stated, fails: when the consent is denied, the first request
    to reach the listener carries no code; getHTTPClient returns the
    error of the flow, no client, and the credential file keeps the
    expired token.  And when the flow succeeds on a disk that is full,
    getHTTPClient returns the error of the write and no client, over a
    credential file that is now empty. *)
Lemma fallback_not_as_stated :
  snd (getHTTPClient (endpoint "a-old") "secrets/token.json"
         (machine "revoked" [Arrives denied; Arrives (redirect "ABC")])) =
    Returns (Err "authorization failed") /\
  files (fst (getHTTPClient (endpoint "a-old") "secrets/token.json"
                (machine "revoked" [Arrives denied; Arrives (redirect "ABC")])))
    "secrets/token.json" = Some "revoked" /\
  snd (getHTTPClient (endpoint "a-old") "secrets/token.json"
         (full_disk (machine "revoked" [Arrives (redirect "ABC")]))) =
    Returns (Err "no space left on device") /\
  files (fst (getHTTPClient (endpoint "a-old") "secrets/token.json"
                (full_disk (machine "revoked" [Arrives (redirect "ABC")]))))
    "secrets/token.json" = Some "" /\
  ~ fallback_as_stated (endpoint "a-old").
Proof.
  split; [reflexivity|]. split; [reflexivity|].
  split; [reflexivity|]. split; [reflexivity|].
  intros H.
  destruct (H "secrets/token.json" "revoked"
              (machine "revoked" [Arrives denied; Arrives (redirect "ABC")])
              (stored "a-old" "r-bad" 100) tt "invalid_grant")
    as (env' & tok' & client & Hrun & _); try reflexivity.
  apply (f_equal snd) in Hrun. discriminate Hrun.
Qed.

(** C3, on a machine whose stored token cannot be refreshed and whose
    listener first sees the redirect with [code=ABC]. *)
Lemma refresh_failure_reauthorizes_witness :
  flows (fst (getHTTPClient (endpoint "a-old") "secrets/token.json"
                (machine "revoked" [Arrives (redirect "ABC")]))) = 1%nat /\
  snd (getHTTPClient (endpoint "a-old") "secrets/token.json"
         (machine "revoked" [Arrives (redirect "ABC")])) =
    Returns (Ok {| client_config := redirected {| ClientID := "ytt"; RedirectURL := "" |};
                   client_token := stored "a-web" "r-good" 1000 |}) /\
  files (fst (getHTTPClient (endpoint "a-old") "secrets/token.json"
                (machine "revoked" [Arrives (redirect "ABC")])))
    "secrets/token.json" = Some "a-web".
Proof.
  destruct (refresh_failure_reauthorizes (endpoint "a-old")
              "secrets/token.json" "revoked"
              (machine "revoked" [Arrives (redirect "ABC")])
              (stored "a-old" "r-bad" 100) tt "invalid_grant"
              (fst (getHTTPClient (endpoint "a-old") "secrets/token.json"
                      (machine "revoked" [Arrives (redirect "ABC")])))
              (snd (getHTTPClient (endpoint "a-old") "secrets/token.json"
                      (machine "revoked" [Arrives (redirect "ABC")])))
              eq_refl eq_refl eq_refl eq_refl (surjective_pairing _))
    as (Hflows & _ & _ & _ & Hok & _).
  split; [exact Hflows|].
  destruct (Hok "ABC" tt (stored "a-web" "r-good" 1000) eq_refl
              ltac:(discriminate) eq_refl)
    as (_ & _ & _ & Hsaved).
  destruct (Hsaved eq_refl eq_refl eq_refl) as (Hout & Hfile & _).
  split; [exact Hout|exact Hfile].
Defined.

(** C4, on a machine whose refresh gives the stored access token back. *)
Lemma refresh_same_token_skips_write_witness :
  snd (getHTTPClient (endpoint "a-old") "secrets/token.json" (machine "expired" [])) =
    Returns (Ok {| client_config := {| ClientID := "ytt"; RedirectURL := "" |};
                   client_token := stored "a-old" "r-good" 100 |}) /\
  files (fst (getHTTPClient (endpoint "a-old") "secrets/token.json"
                (machine "expired" []))) =
    files (machine "expired" []) /\
  writes (fst (getHTTPClient (endpoint "a-old") "secrets/token.json"
                 (machine "expired" []))) = [].
Proof.
  destruct (refresh_same_token_skips_write (endpoint "a-old")
              "secrets/token.json" "expired" (machine "expired" [])
              (stored "a-old" "r-good" 100) (stored "a-old" "r-good" 1000) tt
              eq_refl eq_refl eq_refl eq_refl)
    as (Hsame & _).
  destruct (Hsame eq_refl) as (Hrun & Hfiles & Hwrites).
  split; [|split; [exact Hfiles|exact Hwrites]].
  rewrite Hrun. reflexivity.
Defined.

End AuthFacts.

(** ** Further properties of the duration parser *)

Module DurationMore.
Import Duration DurationFacts.

Lemma assign_comm u u' v v' a :
  u <> u' -> assign u v (assign u' v' a) = assign u' v' (assign u v a).
Proof.
  unfold assign. intros Hne.
  destruct (Ascii.eqb_spec u "H"), (Ascii.eqb_spec u "M"), (Ascii.eqb_spec u "S"),
    (Ascii.eqb_spec u' "H"), (Ascii.eqb_spec u' "M"), (Ascii.eqb_spec u' "S");
    subst; simpl; try congruence; reflexivity.
Qed.

Lemma fold_step_group_perm gs gs' :
  Permutation gs gs' -> NoDup (map g_unit gs) ->
  forall a, fold_left step_group gs a = fold_left step_group gs' a.
Proof.
  induction 1 as [|g l l' Hp IH|g g' l|l l' l'' Hp1 IH1 Hp2 IH2]; intros Hnd a.
  - reflexivity.
  - simpl. apply IH. now inversion Hnd.
  - simpl. f_equal. unfold step_group. apply assign_comm.
    simpl in Hnd. inversion Hnd as [|? ? Hnot _]; subst.
    intros E. apply Hnot. left. now symmetry.
  - rewrite IH1 by exact Hnd. apply IH2.
    apply (Permutation_NoDup (l := map g_unit l)); [|exact Hnd].
    now apply Permutation_map.
Qed.

Lemma ParseDuration_groups gs tail :
  Forall wf_group gs -> stops tail ->
  ParseDuration (string_of_list_ascii (marker ++ render gs ++ tail)) =
  total (fold_left step_group gs (HMS 0 0 0)).
Proof.
  intros Hwf Hs. unfold marker. simpl app.
  rewrite ParseDuration_marked. f_equal. now apply parse_loop_groups.
Qed.

(** With pairwise distinct unit bytes the result depends neither on the
    order of the groups nor on what follows them: the input from the
    first place where the scan stops is never read. *)
Theorem ParseDuration_order_and_tail
    (gs gs' : list group) (tail tail' : list ascii) :
  Forall wf_group gs -> Permutation gs gs' -> NoDup (map g_unit gs) ->
  stops tail -> stops tail' ->
  ParseDuration (string_of_list_ascii (marker ++ render gs ++ tail)) =
  ParseDuration (string_of_list_ascii (marker ++ render gs' ++ tail')).
Proof.
  intros Hwf Hp Hnd Hs Hs'.
  rewrite !ParseDuration_groups; auto.
  - f_equal. now apply fold_step_group_perm.
  - eapply Permutation_Forall; eauto.
Qed.

Lemma ParseDuration_order_and_tail_witness :
  ParseDuration "PT1H30M45S" = ParseDuration "PT45S1H30M+0.5".
Proof.
  apply (ParseDuration_order_and_tail
           [Group ["1"%char] "H"; Group ["3"%char; "0"%char] "M";
            Group ["4"%char; "5"%char] "S"]
           [Group ["4"%char; "5"%char] "S"; Group ["1"%char] "H";
            Group ["3"%char; "0"%char] "M"]
           [] ["+"%char; "0"%char; "."%char; "5"%char]).
  - repeat constructor; simpl; discriminate.
  - apply Permutation_sym, (Permutation_cons_app [_; _] []). reflexivity.
  - repeat constructor; simpl; intuition discriminate.
  - left. reflexivity.
  - left. reflexivity.
Defined.

End DurationMore.

(** ** Further properties of SanitizeFilename *)

Module SanitizeMore.
Import Sanitize SanitizeFacts.
Local Open Scope nat_scope.

Lemma TrimLeft_split s :
  exists p, s = p ++ TrimLeft s /\ forallb in_cutset p = true.
Proof.
  induction s as [|c s (p & Hp & Hc)]; simpl; [now exists []|].
  destruct (in_cutset c) eqn:E.
  - exists (c :: p). simpl. rewrite E, Hc. split; [now f_equal|reflexivity].
  - now exists [].
Qed.

Lemma forallb_rev {A} (f : A -> bool) l : forallb f (rev l) = forallb f l.
Proof.
  induction l as [|x l IH]; simpl; [reflexivity|].
  rewrite forallb_app, IH. simpl. rewrite andb_true_r. apply andb_comm.
Qed.

Lemma TrimRight_split s :
  exists q, s = TrimRight s ++ q /\ forallb in_cutset q = true.
Proof.
  unfold TrimRight. destruct (TrimLeft_split (rev s)) as (p & Hp & Hc).
  exists (rev p). rewrite forallb_rev. split; [|exact Hc].
  rewrite <- rev_app_distr, <- Hp. now rewrite rev_involutive.
Qed.

Lemma truncate_skipn (x : list ascii) :
  (if max_length <? length x then firstn max_length x else x) ++ skipn max_length x = x.
Proof.
  destruct (Nat.ltb_spec max_length (length x)).
  - apply firstn_skipn.
  - rewrite skipn_all2 by exact H. apply app_nil_r.
Qed.

Lemma cutset_not_reserved c : in_cutset c = true -> reserved c = false.
Proof.
  unfold in_cutset. intros H. apply orb_prop in H as [H|H];
    apply Ascii.eqb_eq in H; subst; reflexivity.
Qed.

(** What SanitizeFilename removes and what it keeps.  After the reserved
    bytes are replaced, the result is one contiguous piece of the title:
    in front of it only spaces and periods are dropped, behind it only
    spaces and periods and whatever lies beyond the hundredth byte.
    Nothing is reordered or inserted. *)
Theorem SanitizeFilename_segment (s : string) :
  exists p q,
    ReplaceAllString (list_ascii_of_string s) =
      p ++ list_ascii_of_string (SanitizeFilename s) ++ q ++
      skipn 100 (ReplaceAllString (list_ascii_of_string s)) /\
    forallb in_cutset p = true /\ forallb in_cutset q = true.
Proof.
  unfold SanitizeFilename. rewrite list_ascii_of_string_of_list_ascii.
  unfold SanitizeFilename_bytes. cbv zeta.
  set (x := ReplaceAllString (list_ascii_of_string s)).
  set (t := if max_length <? length x then firstn max_length x else x).
  destruct (TrimRight_split t) as (q & Hq & Hcq).
  destruct (TrimLeft_split (TrimRight t)) as (p & Hp & Hcp).
  exists p, q. split; [|split; assumption].
  unfold Trim. rewrite <- (truncate_skipn x) at 1. fold t.
  rewrite Hq at 1. rewrite Hp at 1.
  now rewrite <- !app_assoc.
Qed.

(** A name is left as it is exactly when it is already sanitized: at
    most 100 bytes, no space or period at either end, no reserved
    byte. *)
Theorem SanitizeFilename_fixed_iff (s : string) :
  SanitizeFilename s = s <->
  (String.length s <= 100 /\
   clean_hd (list_ascii_of_string s) /\
   clean_hd (rev (list_ascii_of_string s)) /\
   forall c, In c (list_ascii_of_string s) -> reserved c = false).
Proof.
  split.
  - intros Hfix.
    pose proof (SanitizeFilename_bytes_spec (list_ascii_of_string s)) as Hspec.
    cbv zeta in Hspec.
    assert (E : SanitizeFilename_bytes (list_ascii_of_string s) = list_ascii_of_string s).
    { unfold SanitizeFilename in Hfix. rewrite <- Hfix at 2.
      now rewrite list_ascii_of_string_of_list_ascii. }
    rewrite E in Hspec. rewrite <- length_list_ascii. exact Hspec.
  - intros (Hl & H1 & H2 & Hr). unfold SanitizeFilename.
    rewrite SanitizeFilename_bytes_fixpoint; auto.
    + apply string_of_list_ascii_of_string.
    + now rewrite length_list_ascii.
Qed.

(** A title made of spaces and periods only, the empty title included,
    sanitizes to the empty string. *)
Theorem SanitizeFilename_blank (s : string) :
  forallb in_cutset (list_ascii_of_string s) = true ->
  SanitizeFilename s = ""%string.
Proof.
  intros Hcut. unfold SanitizeFilename.
  pose proof (SanitizeFilename_bytes_spec (list_ascii_of_string s)) as Hspec.
  cbv zeta in Hspec. destruct Hspec as (_ & Hhd & _ & _).
  destruct (SanitizeFilename_bytes (list_ascii_of_string s)) as [|c r] eqn:E;
    [reflexivity|].
  exfalso. simpl in Hhd.
  assert (Hin : In c (ReplaceAllString (list_ascii_of_string s))).
  { apply truncate_In, Trim_In. unfold SanitizeFilename_bytes in E. cbv zeta in E.
    rewrite E. now left. }
  rewrite ReplaceAllString_id in Hin.
  - rewrite forallb_forall in Hcut. rewrite (Hcut c Hin) in Hhd. discriminate.
  - intros x Hx. apply cutset_not_reserved. rewrite forallb_forall in Hcut. auto.
Qed.

Lemma SanitizeFilename_blank_witness :
  SanitizeFilename ". . ." = ""%string.
Proof. apply SanitizeFilename_blank. reflexivity. Defined.

End SanitizeMore.

(** ** [videos.go]: listings of any number of pages *)

Module Paging.
Import Duration Go Catalog.

Local Open Scope string_scope.

Section WithService.

Context {W : Type} (svc : Service W).

(** [listing pl cursor w items w' n]: from the world [w], the uploads
    playlist [pl] read from [cursor] on has [n] pages, every page fetch
    and batch detail fetch succeeds, the detail records are [items] in
    the order of the fetches, and the last page leaves the world [w']. *)
Inductive listing (pl : string) : string -> W -> list Video -> W -> nat -> Prop :=
| listing_last cursor w w1 w2 p vs :
    PlaylistItemsDo svc (playlistItemsCall pl cursor) w = (w1, Ok p) ->
    batchDetails svc (ids_of p) w1 = (w2, Ok vs) ->
    NextPageToken p = "" ->
    listing pl cursor w vs w2 1
| listing_more cursor w w1 w2 p vs rest w3 n :
    PlaylistItemsDo svc (playlistItemsCall pl cursor) w = (w1, Ok p) ->
    batchDetails svc (ids_of p) w1 = (w2, Ok vs) ->
    NextPageToken p <> "" ->
    listing pl (NextPageToken p) w2 rest w3 n ->
    listing pl cursor w (vs ++ rest)%list w3 (S n).

End WithService.

(** A list obtained from another by dropping elements. *)
Inductive subseq {A : Type} : list A -> list A -> Prop :=
| subseq_nil : subseq [] []
| subseq_skip x l l' : subseq l l' -> subseq l (x :: l')
| subseq_keep x l l' : subseq l l' -> subseq (x :: l) (x :: l').

(** What two runs under a lower and a higher threshold hand back. *)
Definition narrower (high low : option returned) : Prop :=
  match high, low with
  | None, None => True
  | Some (Some vs2, None), Some (Some vs1, None) => subseq vs2 vs1
  | Some (None, Some e2), Some (None, Some e1) => e2 = e1
  | _, _ => False
  end.

Definition is_page_call (ev : Event) : bool :=
  match ev with
  | EvPlaylistItems _ _ => true
  | _ => false
  end.

Definition is_channels_call (ev : Event) : bool :=
  match ev with
  | EvChannels _ _ => true
  | _ => false
  end.

(** A page fetch asks for the snippet part and for 50 items. *)
Definition page_call_ok (ev : Event) : Prop :=
  match ev with
  | EvPlaylistItems call _ =>
      playlist_part call = ["snippet"] /\ playlist_maxResults call = 50%Z
  | _ => True
  end.

Definition count (f : Event -> bool) (tr : list Event) : nat :=
  length (filter f tr).

(** One page of three videos, of 60, 59 and 61 seconds. *)
Definition listing_threshold : Service unit :=
  simulated
    (fun _ => Ok (page ["a"; "b"; "c"] ""))
    (fun _ => Ok {| Videos := [clip "a" "PT60S"; clip "b" "PT59S";
                               clip "c" "PT1M1S"] |}).

(** A service that knows no channel. *)
Definition no_channel : Service unit :=
  {| ChannelsDo := fun _ w => (w, Ok {| Channels := [] |});
     PlaylistItemsDo := fun _ w => (w, Err "not called");
     VideosDo := fun _ w => (w, Err "not called") |}.

End Paging.

Module CatalogMore.
Import Duration DurationFacts Go Catalog CatalogFacts Paging.

Local Open Scope string_scope.

Lemma subseq_refl {A} (l : list A) : subseq l l.
Proof. induction l; [apply subseq_nil|now apply subseq_keep]. Qed.

Lemma subseq_app {A} (a a' b b' : list A) :
  subseq a a' -> subseq b b' -> subseq (a ++ b) (a' ++ b').
Proof.
  induction 1 as [|x l l' _ IH|x l l' _ IH]; simpl; intros Hb.
  - exact Hb.
  - apply subseq_skip. now apply IH.
  - apply subseq_keep. now apply IH.
Qed.

Lemma subseq_map {A B} (f : A -> B) l l' :
  subseq l l' -> subseq (map f l) (map f l').
Proof.
  induction 1 as [|x l l' _ IH|x l l' _ IH]; simpl.
  - apply subseq_nil.
  - now apply subseq_skip.
  - now apply subseq_keep.
Qed.

Lemma subseq_filter {A} (f g : A -> bool) l :
  (forall x, g x = true -> f x = true) -> subseq (filter g l) (filter f l).
Proof.
  intros H. induction l as [|x l IH]; simpl; [apply subseq_nil|].
  destruct (g x) eqn:Eg.
  - rewrite (H x Eg). now apply subseq_keep.
  - destruct (f x); [now apply subseq_skip|exact IH].
Qed.

Lemma kept_mono m1 m2 v : (m1 <= m2)%Z -> kept m2 v = true -> kept m1 v = true.
Proof.
  unfold kept, isShort. intros Hle H.
  apply negb_true_iff in H. apply negb_true_iff.
  apply Z.ltb_ge in H. apply Z.ltb_ge. lia.
Qed.

Lemma appendVideos_mono m1 m2 vs1 vs2 items :
  (m1 <= m2)%Z -> subseq vs2 vs1 ->
  subseq (appendVideos m2 vs2 items) (appendVideos m1 vs1 items).
Proof.
  intros Hle Hs. rewrite !appendVideos_filter.
  apply subseq_app; [exact Hs|]. apply subseq_map, subseq_filter.
  intros x. now apply kept_mono.
Qed.

Section WithService.

Context {W : Type} (svc : Service W).

(** *** Any number of pages *)

Lemma listPages_listing pl m cursor w items w' n :
  listing svc pl cursor w items w' n ->
  forall fuel videos (st : State W), world st = w -> (n <= fuel)%nat ->
  exists tr,
    listPages svc fuel pl m videos cursor st =
      ({| world := w'; trace := trace st ++ tr |},
       Some (Some (videos ++ map summary (filter (kept m) items))%list, None)) /\
    count is_page_call tr = n /\ Forall fetch_ok tr.
Proof.
  induction 1 as [cursor w w1 w2 p vs Hp Hd Hlast
                 |cursor w w1 w2 p vs rest w3 n Hp Hd Hnext Hrest IH];
    intros fuel videos st Hw Hfuel; subst w;
    (destruct fuel as [|fuel]; [lia|]);
    rewrite (listPages_page svc fuel pl m videos cursor st w1 w2 p vs Hp Hd); cbv zeta.
  - rewrite Hlast. simpl String.eqb. cbv iota.
    exists (EvPlaylistItems (playlistItemsCall pl cursor) None :: batchEvents (ids_of p)).
    rewrite appendVideos_filter. split; [reflexivity|].
    unfold batchEvents, count. destruct (ids_of p); simpl; split; auto;
      repeat constructor.
  - apply String.eqb_neq in Hnext. rewrite Hnext.
    destruct (IH fuel (appendVideos m videos vs)
                {| world := w2;
                   trace := trace st ++ EvPlaylistItems (playlistItemsCall pl cursor) None
                              :: batchEvents (ids_of p) |} eq_refl ltac:(lia))
      as (tr & Hrun & Hcount & Hok).
    exists ((EvPlaylistItems (playlistItemsCall pl cursor) None :: batchEvents (ids_of p))
            ++ tr)%list.
    rewrite Hrun. cbn [trace]. rewrite appendVideos_filter, filter_app, map_app.
    rewrite <- !app_assoc. split; [reflexivity|].
    unfold count in *. rewrite filter_app, length_app, Hcount.
    unfold batchEvents. destruct (ids_of p); simpl; split; auto;
      repeat constructor; auto.
Qed.

(** However many pages the uploads playlist has, when every fetch
    succeeds ListVideos returns the summaries of the detail records that
    pass the filter, in the order in which the remote gave them, after
    one page fetch per page. *)
Theorem ListVideos_all_pages
    (fuel : nat) (channelID : string) (m : Z) (st0 st1 : State W) (pl : string)
    (items : list Video) (w' : W) (n : nat) :
  resolveUploads svc channelID st0 = (st1, (pl, None)) ->
  listing svc pl "" (world st1) items w' n ->
  (n <= fuel)%nat ->
  exists tr,
    ListVideos svc fuel channelID m st0 =
      ({| world := w'; trace := trace st1 ++ tr |},
       Some (Some (map summary (filter (kept m) items)), None)) /\
    count is_page_call tr = n /\ Forall fetch_ok tr.
Proof.
  intros Hres Hlist Hfuel. unfold ListVideos. rewrite Hres.
  destruct (listPages_listing pl m "" _ items w' n Hlist fuel [] st1 eq_refl Hfuel)
    as (tr & Hrun & Hrest).
  exists tr. split; [exact Hrun|exact Hrest].
Qed.

(** *** The threshold *)

(** C6: the filter is a strict comparison.  [isShort d m] holds exactly
    when the parsed duration of [d] is below [m].  Whenever the channel
    resolves and every fetch of the listing succeeds, ListVideos returns
    the summaries of exactly the detail records whose parsed duration is
    at least the threshold: a video whose parsed duration equals the
    threshold is in the result of ListVideos, and a record below it is
    not among the records kept.  At 60 against 60 the answer is false,
    at 59 and at 0 against 60 it is true. *)
Theorem isShort_strict (d : string) (m : Z) :
  (isShort d m = true <-> (ParseDuration d < m)%Z) /\
  (ParseDuration d = m -> isShort d m = false) /\
  (forall fuel channelID (st0 st1 : State W) pl items w' n,
     resolveUploads svc channelID st0 = (st1, (pl, None)) ->
     listing svc pl "" (world st1) items w' n ->
     (n <= fuel)%nat ->
     snd (ListVideos svc fuel channelID m st0) =
       Some (Some (map summary
                     (filter (fun video =>
                                (m <=? ParseDuration (ContentDetails_Duration video))%Z)
                             items)), None) /\
     (forall video,
        In video items -> ContentDetails_Duration video = d -> ParseDuration d = m ->
        exists vs,
          snd (ListVideos svc fuel channelID m st0) = Some (Some vs, None) /\
          In (summary video) vs) /\
     (forall video,
        ContentDetails_Duration video = d -> (ParseDuration d < m)%Z ->
        ~ In video
            (filter (fun video =>
                       (m <=? ParseDuration (ContentDetails_Duration video))%Z)
                    items))) /\
  (ParseDuration d = 60 -> isShort d 60 = false) /\
  (ParseDuration d = 59 -> isShort d 60 = true) /\
  (ParseDuration d = 0 -> isShort d 60 = true) /\
  isShort "PT60S" 60 = false /\ isShort "PT59S" 60 = true /\
  isShort "PT0S" 60 = true.
Proof.
  assert (Heq : ParseDuration d = m -> (ParseDuration d <? m)%Z = false).
  { intros <-. apply Z.ltb_irrefl. }
  assert (Hkept : forall items,
            filter (kept m) items =
            filter (fun video =>
                      (m <=? ParseDuration (ContentDetails_Duration video))%Z) items).
  { intros items. apply filter_ext. intros video. unfold kept, isShort.
    rewrite Z.ltb_antisym. apply negb_involutive. }
  split; [unfold isShort; apply Z.ltb_lt|].
  split; [unfold isShort; exact Heq|]. split.
  - intros fuel channelID st0 st1 pl items w' n Hres Hlist Hfuel.
    assert (Hrun : snd (ListVideos svc fuel channelID m st0) =
                   Some (Some (map summary (filter (kept m) items)), None)).
    { unfold ListVideos. rewrite Hres.
      destruct (listPages_listing pl m "" _ items w' n Hlist fuel [] st1 eq_refl Hfuel)
        as (tr & Hrun & _).
      rewrite Hrun. reflexivity. }
    rewrite Hkept in Hrun. split; [exact Hrun|]. split.
    + intros video Hin Hd Hm. eexists. split; [exact Hrun|].
      apply in_map, filter_In. split; [exact Hin|].
      rewrite Hd. apply Z.leb_le. lia.
    + intros video Hd Hlt Hin. apply filter_In in Hin as [_ Hin].
      rewrite Hd in Hin. apply Z.leb_le in Hin. lia.
  - unfold isShort. repeat split; try reflexivity; intros ->; reflexivity.
Qed.

Lemma listPages_mono m1 m2 pl fuel :
  (m1 <= m2)%Z ->
  forall vs1 vs2 cursor (st : State W), subseq vs2 vs1 ->
  fst (listPages svc fuel pl m2 vs2 cursor st) =
  fst (listPages svc fuel pl m1 vs1 cursor st) /\
  narrower (snd (listPages svc fuel pl m2 vs2 cursor st))
           (snd (listPages svc fuel pl m1 vs1 cursor st)).
Proof.
  intros Hle. induction fuel as [|fuel IH]; intros vs1 vs2 cursor st Hs.
  - simpl. auto.
  - rewrite !listPages_S.
    destruct (doPlaylistItems svc (playlistItemsCall pl cursor) st) as [st1 [p|e]];
      [|simpl; auto].
    destruct (0 <? length (ids_of p))%nat.
    + destruct (doVideos svc (videosCall (ids_of p)) st1) as [st2 [resp|e]];
        [|simpl; auto].
      destruct (String.eqb (NextPageToken p) "").
      * simpl. split; [reflexivity|]. now apply appendVideos_mono.
      * apply IH. now apply appendVideos_mono.
    + destruct (String.eqb (NextPageToken p) "").
      * simpl. auto.
      * now apply IH.
Qed.

(** Raising the threshold changes nothing that goes over the wire: the
    two runs make the same calls and leave the same world, fail with the
    same error, and the summaries under the higher threshold are those
    under the lower one with some of them dropped. *)
Theorem ListVideos_threshold_monotone
    (fuel : nat) (channelID : string) (m1 m2 : Z) (st : State W) :
  (m1 <= m2)%Z ->
  fst (ListVideos svc fuel channelID m2 st) = fst (ListVideos svc fuel channelID m1 st) /\
  narrower (snd (ListVideos svc fuel channelID m2 st))
           (snd (ListVideos svc fuel channelID m1 st)).
Proof.
  intros Hle. unfold ListVideos.
  destruct (resolveUploads svc channelID st) as [st1 [pl [err|]]].
  - simpl. auto.
  - apply listPages_mono; [exact Hle|apply subseq_nil].
Qed.

End WithService.

Lemma ListVideos_all_pages_witness :
  exists tr,
    ListVideos listing_long 2 "UC1" 60 start =
      ({| world := tt;
          trace := trace (fst (resolveUploads listing_long "UC1" start)) ++ tr |},
       Some (Some (map summary
                     (filter (kept 60)
                        ([clip "a" "PT5M"; clip "b" "PT5M"] ++ [clip "c" "PT5M"]))), None)) /\
    count is_page_call tr = 2%nat /\ Forall fetch_ok tr.
Proof.
  apply (ListVideos_all_pages listing_long 2 "UC1" 60 start
           (fst (resolveUploads listing_long "UC1" start)) "UU1" _ tt 2).
  - reflexivity.
  - apply (listing_more listing_long "UU1" "" tt tt tt (page ["a"; "b"] "t2")
             [clip "a" "PT5M"; clip "b" "PT5M"] [clip "c" "PT5M"] tt 1).
    + reflexivity.
    + reflexivity.
    + discriminate.
    + apply (listing_last listing_long "UU1" "t2" tt tt tt (page ["c"] "")
               [clip "c" "PT5M"]); reflexivity.
  - apply le_n.
Defined.

Lemma ListVideos_threshold_monotone_witness :
  fst (ListVideos listing_short 2 "UC1" 60 start) =
  fst (ListVideos listing_short 2 "UC1" 10 start) /\
  narrower (snd (ListVideos listing_short 2 "UC1" 60 start))
           (snd (ListVideos listing_short 2 "UC1" 10 start)).
Proof.
  apply (ListVideos_threshold_monotone listing_short 2 "UC1" 10 60 start).
  intros E. discriminate E.
Defined.

(** C6, at a listing of three videos of 60, 59 and 61 seconds against
    the threshold 60. *)
Lemma isShort_strict_witness :
  isShort "PT60S" 60 = false /\
  snd (ListVideos listing_threshold 1 "UC1" 60 start) =
    Some (Some [summary (clip "a" "PT60S"); summary (clip "c" "PT1M1S")], None) /\
  exists vs,
    snd (ListVideos listing_threshold 1 "UC1" 60 start) = Some (Some vs, None) /\
    In (summary (clip "a" "PT60S")) vs.
Proof.
  destruct (isShort_strict listing_threshold "PT60S" 60) as (_ & Hat & Hlist & _).
  split; [exact (Hat eq_refl)|].
  destruct (Hlist 1%nat "UC1" start
              (fst (resolveUploads listing_threshold "UC1" start)) "UU1"
              [clip "a" "PT60S"; clip "b" "PT59S"; clip "c" "PT1M1S"] tt 1%nat)
    as (Hall & Hin & _).
  - reflexivity.
  - apply (listing_last listing_threshold "UU1" "" tt tt tt
             (page ["a"; "b"; "c"] "")
             [clip "a" "PT60S"; clip "b" "PT59S"; clip "c" "PT1M1S"]); reflexivity.
  - apply le_n.
  - split; [exact Hall|].
    apply (Hin (clip "a" "PT60S")); [left; reflexivity|reflexivity|reflexivity].
Defined.

(** *** The calls of a run *)

Section Calls.

Context {W : Type} (svc : Service W).

Lemma resolveUploads_calls channelID (st st' : State W) res :
  resolveUploads svc channelID st = (st', res) ->
  exists evs, trace st' = (trace st ++ evs)%list /\
              (length evs <= 2)%nat /\ forallb is_channels_call evs = true.
Proof.
  unfold resolveUploads, getAuthenticatedChannelID, getUploadsPlaylistID, doChannels.
  destruct (String.eqb channelID "").
  - destruct (ChannelsDo svc _ (world st)) as [w1 [r1|e1]]; simpl.
    + destruct (Channels r1) as [|ch chs]; simpl.
      * intros E; apply pair_equal_spec in E as [<- _]. simpl.
        eexists; split; [reflexivity|]. split; [simpl; lia|reflexivity].
      * destruct (ChannelsDo svc _ w1) as [w2 [r2|e2]]; simpl.
        -- destruct (Channels r2); intros E; apply pair_equal_spec in E as [<- _];
             simpl; rewrite <- app_assoc; (eexists; split; [reflexivity|]);
             (split; [simpl; lia|reflexivity]).
        -- intros E; apply pair_equal_spec in E as [<- _]; simpl.
           rewrite <- app_assoc. eexists; split; [reflexivity|].
           split; [simpl; lia|reflexivity].
    + intros E; apply pair_equal_spec in E as [<- _]. simpl.
      eexists; split; [reflexivity|]. split; [simpl; lia|reflexivity].
  - destruct (ChannelsDo svc _ (world st)) as [w1 [r1|e1]]; simpl.
    + destruct (Channels r1); intros E; apply pair_equal_spec in E as [<- _]; simpl;
        (eexists; split; [reflexivity|]); (split; [simpl; lia|reflexivity]).
    + intros E; apply pair_equal_spec in E as [<- _]. simpl.
      eexists; split; [reflexivity|]. split; [simpl; lia|reflexivity].
Qed.

Lemma playlistItemsCall_ok pl cursor err :
  page_call_ok (EvPlaylistItems (playlistItemsCall pl cursor) err).
Proof.
  unfold page_call_ok, playlistItemsCall. cbv zeta.
  destruct (negb (String.eqb cursor "")); simpl; auto.
Qed.

Lemma listPages_calls fuel : forall pl m videos cursor (st : State W),
  exists tr,
    trace (fst (listPages svc fuel pl m videos cursor st)) = (trace st ++ tr)%list /\
    (count is_videos_call tr <= count is_page_call tr <= fuel)%nat /\
    count is_channels_call tr = 0%nat /\ Forall page_call_ok tr.
Proof.
  unfold count.
  induction fuel as [|fuel IH]; intros pl m videos cursor st.
  - exists []. simpl. rewrite app_nil_r. repeat split; auto.
  - rewrite listPages_S. unfold doPlaylistItems, doVideos.
    pose proof (playlistItemsCall_ok pl cursor) as Hcall.
    destruct (PlaylistItemsDo svc _ (world st)) as [w1 [p|e]]; cbn [fst snd world trace].
    + destruct (0 <? length (ids_of p))%nat.
      * destruct (VideosDo svc _ w1) as [w2 [resp|e]]; cbn [fst snd world trace].
        -- destruct (String.eqb (NextPageToken p) "").
           ++ cbn [fst trace]. rewrite <- app_assoc.
              eexists; split; [reflexivity|]. simpl.
              split; [lia|]. split; [reflexivity|].
              apply Forall_cons; [apply Hcall|]. apply Forall_cons; [exact I|apply Forall_nil].
           ++ match goal with
              | |- context [listPages svc fuel ?a ?b ?c ?d ?e] =>
                  destruct (IH a b c d e) as (tr & Ht & (Hv & Hp) & Hc & Hok)
              end.
              rewrite Ht. cbn [trace]. rewrite <- !app_assoc.
              eexists; split; [reflexivity|]. simpl.
              split; [lia|]. split; [exact Hc|].
              apply Forall_cons; [apply Hcall|]. apply Forall_cons; [exact I|exact Hok].
        -- cbn [fst trace]. rewrite <- app_assoc.
           eexists; split; [reflexivity|]. simpl.
           split; [lia|]. split; [reflexivity|].
           apply Forall_cons; [apply Hcall|]. apply Forall_cons; [exact I|apply Forall_nil].
      * destruct (String.eqb (NextPageToken p) "").
        -- cbn [fst trace]. eexists; split; [reflexivity|]. simpl.
           split; [lia|]. split; [reflexivity|].
           apply Forall_cons; [apply Hcall|apply Forall_nil].
        -- match goal with
           | |- context [listPages svc fuel ?a ?b ?c ?d ?e] =>
               destruct (IH a b c d e) as (tr & Ht & (Hv & Hp) & Hc & Hok)
           end.
           rewrite Ht. cbn [trace]. rewrite <- !app_assoc.
           eexists; split; [reflexivity|]. simpl.
           split; [lia|]. split; [exact Hc|].
           apply Forall_cons; [apply Hcall|exact Hok].
    + cbn [fst trace]. eexists; split; [reflexivity|]. simpl.
      split; [lia|]. split; [reflexivity|].
      apply Forall_cons; [apply Hcall|apply Forall_nil].
Qed.

(** Whatever the remote answers, a run of ListVideos makes at most two
    channel lookups, at most one batch detail call per page fetch, and
    every page fetch asks for the snippet part and for 50 items. *)
Theorem ListVideos_call_budget (fuel : nat) (channelID : string) (m : Z) (w : W) :
  (count is_channels_call
     (trace (fst (ListVideos svc fuel channelID m {| world := w; trace := [] |}))) <= 2)%nat /\
  (count is_videos_call
     (trace (fst (ListVideos svc fuel channelID m {| world := w; trace := [] |}))) <=
   count is_page_call
     (trace (fst (ListVideos svc fuel channelID m {| world := w; trace := [] |}))) <= fuel)%nat /\
  Forall page_call_ok
    (trace (fst (ListVideos svc fuel channelID m {| world := w; trace := [] |}))).
Proof.
  unfold ListVideos.
  destruct (resolveUploads svc channelID {| world := w; trace := [] |})
    as [st1 [pl err]] eqn:Hres.
  destruct (resolveUploads_calls _ _ _ _ Hres) as (evs & Ht1 & Hlen & Hch).
  simpl in Ht1.
  assert (Hcount : count is_channels_call evs = length evs /\
                   count is_videos_call evs = 0%nat /\
                   count is_page_call evs = 0%nat /\ Forall page_call_ok evs).
  { clear Ht1 Hlen. unfold count. induction evs as [|ev evs IH]; simpl; [auto|].
    simpl in Hch. apply andb_prop in Hch as [Hev Hch].
    destruct (IH Hch) as (H1 & H2 & H3 & H4).
    destruct ev; try discriminate. simpl. rewrite H1.
    repeat split; auto. constructor; [exact I|exact H4]. }
  destruct Hcount as (Hc1 & Hc2 & Hc3 & Hc4).
  destruct err as [err|].
  - cbn [fst]. rewrite Ht1. repeat split; try lia; auto.
  - destruct (listPages_calls fuel pl m [] "" st1) as (tr & Ht & (Hv & Hp) & Hc & Hok).
    rewrite Ht, Ht1. unfold count in *.
    rewrite !filter_app, !length_app.
    repeat split; try lia. apply Forall_app. auto.
Qed.

(** When the channel cannot be resolved, ListVideos returns [nil] and
    the error after the one lookup that came back empty, and fetches no
    page: with an explicit identifier that the remote does not know, and
    with no identifier when the authenticated user has no channel. *)
Theorem ListVideos_channel_not_found
    (fuel : nat) (channelID : string) (m : Z) (st : State W) (w : W)
    (resp : ChannelListResponse) :
  Channels resp = [] ->
  (channelID <> "" ->
   ChannelsDo svc {| channels_part := ["contentDetails"]; channels_mine := false;
                     channels_id := Some channelID |} (world st) = (w, Ok resp) ->
   ListVideos svc fuel channelID m st =
     ({| world := w;
         trace := trace st ++
           [EvChannels {| channels_part := ["contentDetails"]; channels_mine := false;
                          channels_id := Some channelID |} None] |},
      Some (None, Some ("channel " ++ channelID ++ " not found")))) /\
  (channelID = "" ->
   ChannelsDo svc {| channels_part := ["id"; "statistics"]; channels_mine := true;
                     channels_id := None |} (world st) = (w, Ok resp) ->
   ListVideos svc fuel channelID m st =
     ({| world := w;
         trace := trace st ++
           [EvChannels {| channels_part := ["id"; "statistics"]; channels_mine := true;
                          channels_id := None |} None] |},
      Some (None, Some "no channel found for authenticated user"))).
Proof.
  intros Hempty. split; intros Hid Hcall.
  - unfold ListVideos, resolveUploads, getUploadsPlaylistID, doChannels.
    apply String.eqb_neq in Hid. rewrite Hid, Hcall. simpl. rewrite Hempty. reflexivity.
  - unfold ListVideos, resolveUploads, getAuthenticatedChannelID, doChannels.
    subst channelID. simpl String.eqb. cbv iota. rewrite Hcall. simpl.
    rewrite Hempty. reflexivity.
Qed.

End Calls.

Lemma ListVideos_channel_not_found_witness :
  ListVideos no_channel 5 "UCxyz" 60 start =
    ({| world := tt;
        trace := [EvChannels {| channels_part := ["contentDetails"];
                                channels_mine := false;
                                channels_id := Some "UCxyz" |} None] |},
     Some (None, Some "channel UCxyz not found")).
Proof.
  apply (proj1 (ListVideos_channel_not_found no_channel 5 "UCxyz" 60 start tt
                  {| Channels := [] |} eq_refl)).
  - discriminate.
  - reflexivity.
Defined.

(** *** Durations that do not parse *)

(** A video whose duration string lacks the marker, or has nothing the
    scan accepts behind it, counts as zero seconds: the filter drops it
    under every positive threshold and keeps it under every other. *)
Theorem unparsed_duration_is_filtered (d : string) (m : Z) :
  (HasPrefix (list_ascii_of_string d) marker = false \/
   exists tail, d = string_of_list_ascii (marker ++ tail) /\ stops tail) ->
  ParseDuration d = 0%Z /\
  ((0 < m)%Z ->
   forall videos items,
     (forall v, In v items -> ContentDetails_Duration v = d) ->
     appendVideos m videos items = videos) /\
  ((m <= 0)%Z ->
   forall videos items,
     (forall v, In v items -> ContentDetails_Duration v = d) ->
     appendVideos m videos items = (videos ++ map summary items)%list).
Proof.
  intros Hd.
  assert (H0 : ParseDuration d = 0%Z).
  { destruct Hd as [Hd|(tail & -> & Hs)].
    - unfold ParseDuration, ParseDuration_bytes. now rewrite Hd.
    - unfold marker. simpl app. rewrite ParseDuration_marked.
      now rewrite parse_loop_stops. }
  split; [exact H0|]. split; intros Hm videos items Hall.
  - rewrite appendVideos_filter.
    replace (filter (kept m) items) with (@nil Video); [apply app_nil_r|].
    symmetry. induction items as [|v items IH]; simpl; [reflexivity|].
    unfold kept at 1, isShort. rewrite (Hall v) by now left.
    rewrite H0. replace (0 <? m)%Z with true by (symmetry; now apply Z.ltb_lt).
    simpl. apply IH. intros x Hx. apply Hall. now right.
  - apply appendVideos_all_kept. intros v Hv. unfold isShort.
    rewrite (Hall v Hv), H0. apply Z.ltb_ge. exact Hm.
Qed.

Lemma unparsed_duration_is_filtered_witness :
  ParseDuration "P1DT2H" = 0%Z /\
  appendVideos 1 [] [clip "livestream" "P1DT2H"] = [].
Proof.
  destruct (unparsed_duration_is_filtered "P1DT2H" 1 (or_introl eq_refl))
    as (H0 & Hpos & _).
  split; [exact H0|].
  apply (Hpos eq_refl [] [clip "livestream" "P1DT2H"]).
  intros v [<-|[]]. reflexivity.
Defined.

End CatalogMore.

(** ** [client.go]: Authenticate and NewClient; [main.go]: getClient *)

Module Entry.
Import Go Auth.

Local Open Scope string_scope.

(** What holds of the listener at every moment of every execution: the
    channel has carried a value exactly when the caller holds it; a
    caller blocked in its receive means that no handler is blocked in its
    send; every request served has either handed its code over or is
    still blocked; and the server is shut down only after the caller has
    received. *)
Definition settled (l : Listener) : Prop :=
  match main l with
  | Running => handoffs l = []
  | Receiving => handoffs l = [] /\ sendq l = []
  | Received c => handoffs l = [c]
  end /\
  length (pages l) = (length (sendq l) + length (handoffs l))%nat /\
  (serving l = false -> exists c, main l = Received c).

(** [youtube.Service] over the HTTP client it was built with. *)
Record ApiClient := { Service_client : Client }.

Section WithOAuth.

Context {R : Type} (oauth : OAuth R).

(** [google.ConfigFromJSON] and [youtube.NewService]. *)
Variable ConfigFromJSON : string -> result Config.
Variable NewService : Client -> option Error.

(** [os.ReadFile] *)
Definition ReadFile (name : string) (env : Env R) : result string :=
  match files env name with
  | Some b => Ok b
  | None => Err ("open " ++ name ++ ": no such file or directory")
  end.

(** [Authenticate]: a fresh configuration, the flow, the token saved. *)
Definition Authenticate (oauthPath tokenPath : string) (env : Env R)
  : Env R * outcome (option Error) :=
  match ReadFile oauthPath env with
  | Err err => (env, Returns (Some ("unable to read client secret file: " ++ err)))
  | Ok b =>
      match ConfigFromJSON b with
      | Err err => (env, Returns (Some ("unable to parse client secret file: " ++ err)))
      | Ok cfg =>
          let env := with_config cfg env in
          let (env, o) := getTokenFromWeb oauth env in
          match o with
          | Blocks => (env, Blocks)
          | Returns (Err err) => (env, Returns (Some err))
          | Returns (Ok tok) =>
              let (env, err) := saveToken oauth tokenPath tok env in
              (env, Returns err)
          end
      end
  end.

(** [NewClient]: a fresh configuration, getHTTPClient, the service. *)
Definition NewClient (oauthPath tokenPath : string) (env : Env R)
  : Env R * outcome (result ApiClient) :=
  match ReadFile oauthPath env with
  | Err err => (env, Returns (Err ("unable to read client secret file: " ++ err)))
  | Ok b =>
      match ConfigFromJSON b with
      | Err err => (env, Returns (Err ("unable to parse client secret file: " ++ err)))
      | Ok cfg =>
          let env := with_config cfg env in
          let (env, o) := getHTTPClient oauth tokenPath env in
          match o with
          | Blocks => (env, Blocks)
          | Returns (Err err) => (env, Returns (Err err))
          | Returns (Ok httpClient) =>
              match NewService httpClient with
              | Some err =>
                  (env, Returns (Err ("unable to create YouTube service: " ++ err)))
              | None => (env, Returns (Ok {| Service_client := httpClient |}))
              end
          end
      end
  end.

(** *** [main.go]

    The first version of the program ends the process with [log.Fatal]
    where [client.go] returns an error. *)
Inductive ending (A : Type) : Type :=
| Done (a : A)
| Waits
| Fatal (msg : string).

(** [saveToken] of [main.go]: no directory is made; a file that cannot be
    opened ends the process; the error of the encoder's write is dropped.
    What [main.go] prints goes to the standard output and is left out. *)
Definition main_saveToken (path : string) (token : Token) (env : Env R)
  : Env R * ending unit :=
  match open_error env path with
  | Some err => (env, Fatal _ ("Unable to cache oauth token: " ++ err))
  | None =>
      (write_file path (written (write_error env path) (Encode oauth token)) env,
       Done _ tt)
  end.

(** [getTokenFromWeb] of [main.go]. *)
Definition main_getTokenFromWeb (env : Env R) : Env R * ending Token :=
  let env := emit (EvListen ":8080") env in
  let env := with_config (redirected (config env)) env in
  match awaitCode (schedule env) with
  | Returns authCode =>
      let env := emit EvShutdown (with_schedule [] env) in
      if String.eqb authCode "" then (env, Fatal _ "Authorization failed")
      else
        let (r, res) := Exchange oauth (config env) authCode (remote env) in
        let env :=
          emit (EvExchange authCode (match res with Ok _ => None | Err e => Some e end))
               (with_remote r env) in
        match res with
        | Err err => (env, Fatal _ ("Unable to retrieve token from web: " ++ err))
        | Ok tok => (env, Done _ tok)
        end
  | Blocks => (env, Waits _)
  end.

(** [getClient] of [main.go]: the stored token is used as it is. *)
Definition getClient (env : Env R) : Env R * ending Client :=
  let tokFile := "secrets/token.json" in
  let (env, r) := tokenFromFile oauth tokFile env in
  match r with
  | Ok tok => (env, Done _ {| client_config := config env; client_token := tok |})
  | Err _ =>
      let (env, o) := main_getTokenFromWeb env in
      match o with
      | Waits _ => (env, Waits _)
      | Fatal _ msg => (env, Fatal _ msg)
      | Done _ tok =>
          let (env, s) := main_saveToken tokFile tok env in
          match s with
          | Done _ _ =>
              (env, Done _ {| client_config := config env; client_token := tok |})
          | Waits _ => (env, Waits _)
          | Fatal _ msg => (env, Fatal _ msg)
          end
      end
  end.

End WithOAuth.

(** A secret file that parses to the configuration of [machine]. *)
Definition secret_parser (b : string) : result Config :=
  if String.eqb b "{client}" then Ok {| ClientID := "ytt"; RedirectURL := "" |}
  else Err "unexpected end of JSON input".

Definition with_secret (env : Env unit) : Env unit :=
  {| files := fun p => if String.eqb p "secrets/oauth.json" then Some "{client}"
                       else files env p;
     mkdir_error := mkdir_error env; open_error := open_error env;
     write_error := write_error env;
     now := now env; schedule := schedule env; remote := remote env;
     config := config env; log := log env |}.

(** An endpoint like [endpoint] whose encoder writes the word that its
    decoder reads as the token: [fresh] for a token that lasts until
    900, [expired] for one that ran out at 100. *)
Definition codec_endpoint : OAuth unit :=
  {| TokenSource_Token := TokenSource_Token (endpoint "a-new");
     Exchange := fun _ code r =>
       (r, if String.eqb code "ABC" then Ok (stored "a-old" "r-good" 900)
           else Err "invalid code");
     AuthCodeURL := AuthCodeURL (endpoint "a-new");
     Decode := Decode (endpoint "a-new");
     Encode := fun tok =>
       if (Expiry tok =? 900)%Z then "fresh"
       else if (Expiry tok =? 100)%Z then "expired" else "other";
     filepath_Dir := filepath_Dir (endpoint "a-new") |}.

(** A machine without a credential file. *)
Definition first_run (sched : list Action) : Env unit :=
  {| files := fun _ => None;
     mkdir_error := fun _ => None;
     open_error := fun _ => None;
     write_error := fun _ => None;
     now := 500;
     schedule := sched;
     remote := tt;
     config := {| ClientID := "ytt"; RedirectURL := "" |};
     log := [] |}.

End Entry.

Module AuthMore.
Import Go Auth AuthFacts Entry.

Local Open Scope string_scope.

(** *** The listener at every moment *)

Lemma settled_step l a : settled l -> settled (step l a).
Proof.
  unfold settled. destruct l as [m q pg sv h]. cbn [main sendq pages serving handoffs].
  intros (Hm & Hlen & Hsv).
  destruct a as [r| |]; cbn [step serving].
  - destruct sv; [|auto].
    rewrite handler_send. unfold send, respond.
    cbn [main sendq pages serving handoffs].
    destruct m as [| |c]; cbn [main sendq pages serving handoffs].
    + subst h. rewrite !length_app in *. simpl in *.
      repeat split; auto; try lia; try (intros E; discriminate E).
    + destruct Hm as [-> ->]. rewrite !length_app in *. simpl in *.
      repeat split; auto; try lia; try (intros E; discriminate E).
    + subst h. rewrite !length_app in *. simpl in *.
      repeat split; auto; try lia; try (intros E; discriminate E).
  - unfold receive. cbn [main sendq pages serving handoffs].
    destruct m as [| |c].
    + destruct q as [|c q]; cbn [main sendq pages serving handoffs].
      * subst h. repeat split; auto.
        intros E. destruct (Hsv E) as [c Hc]. discriminate Hc.
      * subst h. simpl in *. repeat split; auto; try lia.
        intros _. now exists c.
    + cbn [main sendq pages serving handoffs]. auto.
    + cbn [main sendq pages serving handoffs]. auto.
  - unfold shutdown. cbn [main].
    destruct m as [| |c]; cbn [main sendq pages serving handoffs]; auto.
    repeat split; auto. intros _. now exists c.
Qed.

Lemma settled_listening : settled listening.
Proof. unfold settled, listening. simpl. repeat split; auto. discriminate. Qed.

Lemma settled_run sched : forall l, settled l -> settled (run sched l).
Proof.
  induction sched as [|a sched IH]; intros l Hl; simpl; [exact Hl|].
  apply IH, settled_step, Hl.
Qed.

(** In every execution of the listener, at every moment: at most one
    value has gone through the channel, and it is the one the caller
    holds; every request that was served and did not hand its code over
    is still blocked in its send; the server is shut down only after the
    caller has received. *)
Theorem listener_settled (sched : list Action) :
  (length (handoffs (run sched listening)) <= 1)%nat /\
  (forall c, main (run sched listening) = Received c <->
             handoffs (run sched listening) = [c]) /\
  length (pages (run sched listening)) =
    (length (sendq (run sched listening)) +
     length (handoffs (run sched listening)))%nat /\
  (serving (run sched listening) = false ->
   exists c, main (run sched listening) = Received c).
Proof.
  pose proof (settled_run sched listening settled_listening) as (Hm & Hlen & Hsv).
  split; [|split; [|split; [exact Hlen|exact Hsv]]].
  - destruct (main (run sched listening)) as [| |c].
    + rewrite Hm. simpl. lia.
    + destruct Hm as [-> _]. simpl. lia.
    + rewrite Hm. simpl. lia.
  - intros c. destruct (main (run sched listening)) as [| |c'].
    + rewrite Hm. split; discriminate.
    + destruct Hm as [-> _]. split; discriminate.
    + rewrite Hm. split; intros E; injection E as ->; reflexivity.
Qed.

Lemma step_shut l a c :
  main l = Received c -> serving l = false -> step l a = l.
Proof.
  destruct l as [m q pg sv h]. simpl. intros -> ->.
  destruct a; reflexivity.
Qed.

Lemma run_shut later : forall l c,
  main l = Received c -> serving l = false -> run later l = l.
Proof.
  induction later as [|a later IH]; intros l c H1 H2; [reflexivity|].
  simpl. rewrite (step_shut l a c H1 H2). now apply (IH l c).
Qed.

(** Once the caller has received and shut the server down, nothing that
    happens afterwards changes the listener: no further request is
    served. *)
Theorem listener_shut_for_good (sched later : list Action) (c : string) :
  main (run sched listening) = Received c ->
  run (sched ++ ShutsDown :: later) listening = run (sched ++ [ShutsDown]) listening.
Proof.
  intros Hm. rewrite !run_app.
  change (run (ShutsDown :: later) (run sched listening))
    with (run later (step (run sched listening) ShutsDown)).
  change (run [ShutsDown] (run sched listening))
    with (step (run sched listening) ShutsDown).
  apply (run_shut later _ c); simpl; unfold shutdown; rewrite Hm; reflexivity.
Qed.

Lemma listener_shut_for_good_witness :
  run ([Arrives (redirect "ABC"); Receives] ++
       ShutsDown :: [Arrives (redirect "XYZ"); Arrives denied]) listening =
  run ([Arrives (redirect "ABC"); Receives] ++ [ShutsDown]) listening.
Proof.
  apply (listener_shut_for_good [Arrives (redirect "ABC"); Receives]
           [Arrives (redirect "XYZ"); Arrives denied] "ABC").
  reflexivity.
Defined.

(** *** getHTTPClient and the credential file *)

#[local] Hint Rewrite
  @files_emit
  @mkdir_error_emit
  @open_error_emit
  @write_error_emit
  @now_emit
  @schedule_emit
  @remote_emit
  @config_emit
  @log_emit
  @files_with_remote
  @mkdir_error_with_remote
  @open_error_with_remote
  @write_error_with_remote
  @now_with_remote
  @schedule_with_remote
  @remote_with_remote
  @config_with_remote
  @log_with_remote
  @files_with_config
  @mkdir_error_with_config
  @open_error_with_config
  @write_error_with_config
  @now_with_config
  @schedule_with_config
  @remote_with_config
  @config_with_config
  @log_with_config
  @files_with_schedule
  @mkdir_error_with_schedule
  @open_error_with_schedule
  @write_error_with_schedule
  @now_with_schedule
  @schedule_with_schedule
  @remote_with_schedule
  @config_with_schedule
  @log_with_schedule
  @files_write_file
  @mkdir_error_write_file
  @open_error_write_file
  @write_error_write_file
  @now_write_file
  @schedule_write_file
  @remote_write_file
  @config_write_file
  @log_write_file
  : env.

Section WithOAuth.

Context {R : Type} (oauth : OAuth R).

Lemma tokenFromFile_env file (env : Env R) :
  fst (tokenFromFile oauth file env) = env.
Proof.
  unfold tokenFromFile. destruct (files env file); [|reflexivity].
  destruct (Decode oauth s) as [tok [err|]]; reflexivity.
Qed.

Lemma saveToken_other path token (env env' : Env R) err p :
  saveToken oauth path token env = (env', err) -> p <> path ->
  files env' p = files env p.
Proof.
  intros Hrun Hp. apply saveToken_effect in Hrun as (_ & _ & Hframe & _).
  now apply Hframe.
Qed.

(** A stored token that has not run out is used as it is: getHTTPClient
    returns a client bound to it and does nothing else, neither a call
    to the token endpoint nor a flow nor a write.  A token that runs out
    at this very instant still counts. *)
Theorem valid_token_needs_no_call
    (tokenPath data : string) (env : Env R) (tok : Token) :
  files env tokenPath = Some data ->
  Decode oauth data = (tok, None) ->
  (now env <= Expiry tok)%Z ->
  getHTTPClient oauth tokenPath env =
    (env, Returns (Ok {| client_config := config env; client_token := tok |})).
Proof.
  intros Hfile Hdec Hexp. unfold getHTTPClient, tokenFromFile.
  rewrite Hfile, Hdec. apply Z.ltb_ge in Hexp. now rewrite Hexp.
Qed.

(** What saveToken writes, tokenFromFile reads back, when the decoder
    inverts the encoder on that token; no other file changes.  A
    saveToken that fails because the directory or the file cannot be
    made changes no file at all; one that fails in the write returns the
    error of the write and leaves the file truncated, with at most a part
    of the encoded token in it.  It succeeds exactly when the directory
    and the file can be made and the file written. *)
Theorem saveToken_round_trip
    (path : string) (tok : Token) (env env' : Env R) (err : option Error) :
  saveToken oauth path tok env = (env', err) ->
  (err = None ->
   Decode oauth (Encode oauth tok) = (tok, None) ->
   tokenFromFile oauth path env' = (env', Ok tok)) /\
  (forall p, p <> path -> files env' p = files env p) /\
  (forall msg, err = Some msg ->
     (files env' = files env /\
      (mkdir_error env (filepath_Dir oauth path) <> None \/
       open_error env path <> None)) \/
     (exists n,
        mkdir_error env (filepath_Dir oauth path) = None /\
        open_error env path = None /\
        write_error env path = Some (n, msg) /\
        files env' path = Some (substring 0 n (Encode oauth tok)))) /\
  (err = None <->
   mkdir_error env (filepath_Dir oauth path) = None /\
   open_error env path = None /\ write_error env path = None).
Proof.
  intros Hrun. apply saveToken_effect in Hrun as (_ & _ & Hframe & Hcase).
  split; [|split; [|split]].
  - intros -> Hdec. destruct Hcase as (_ & _ & _ & Hfile & _).
    unfold tokenFromFile. now rewrite Hfile, Hdec.
  - exact Hframe.
  - intros msg ->.
    destruct Hcase as [(e1 & Hm & _ & Hfi & _)
                      |[(e1 & Hm & Ho & _ & Hfi & _)
                       |(n & Hm & Ho & Hw & Hfi & _)]].
    + left. split; [exact Hfi|]. left. congruence.
    + left. split; [exact Hfi|]. right. congruence.
    + right. exists n. auto.
  - destruct err as [msg|].
    + split; [discriminate|]. intros (Hm0 & Ho0 & Hw0).
      destruct Hcase as [(e1 & Hm & _)
                        |[(e1 & _ & Ho & _)|(n & _ & _ & Hw & _)]]; congruence.
    + split; [|reflexivity]. intros _.
      destruct Hcase as (Hm & Ho & Hw & _). auto.
Qed.

(** What the flow followed by saveToken does to the files. *)
Lemma authorize_frame tokenPath (env : Env R) :
  (forall p, p <> tokenPath ->
     files (fst (authorize oauth tokenPath env)) p = files env p) /\
  (forall err, snd (authorize oauth tokenPath env) = Returns (Err err) ->
     files (fst (authorize oauth tokenPath env)) = files env \/
     exists n tok',
       write_error env tokenPath = Some (n, err) /\
       files (fst (authorize oauth tokenPath env)) tokenPath =
         Some (substring 0 n (Encode oauth tok'))) /\
  (snd (authorize oauth tokenPath env) = Blocks ->
     files (fst (authorize oauth tokenPath env)) = files env) /\
  (forall client, snd (authorize oauth tokenPath env) = Returns (Ok client) ->
     files (fst (authorize oauth tokenPath env)) tokenPath =
       Some (Encode oauth (client_token client))) /\
  flows (fst (authorize oauth tokenPath env)) = (flows env + 1)%nat.
Proof.
  unfold authorize.
  destruct (getTokenFromWeb oauth env) as [env3 o] eqn:Hweb.
  apply getTokenFromWeb_effect in Hweb
    as (Hflows & Hfiles & _ & _ & _ & Hwe & _ & _).
  destruct o as [[tok|err]|].
  - destruct (saveToken oauth tokenPath tok env3) as [env4 serr] eqn:Hsave.
    apply saveToken_effect in Hsave as (Hf4 & _ & Hother & Hcase).
    destruct serr as [serr|]; cbn [fst snd].
    + split; [|split; [|split; [|split]]]; try discriminate.
      * intros p Hp. now rewrite Hother, Hfiles.
      * intros err E. injection E as <-.
        destruct Hcase as [(e1 & _ & _ & Hfi & _)
                          |[(e1 & _ & _ & _ & Hfi & _)
                           |(n & _ & _ & Hw & Hfi & _)]].
        -- left. congruence.
        -- left. congruence.
        -- right. exists n, tok. split; [congruence|exact Hfi].
      * lia.
    + destruct Hcase as (_ & _ & _ & Hfi & _).
      split; [|split; [|split; [|split]]]; try discriminate.
      * intros p Hp. now rewrite Hother, Hfiles.
      * intros client E. injection E as <-. exact Hfi.
      * lia.
  - cbn [fst snd]. split; [|split; [|split; [|split]]]; try discriminate; auto.
    intros p _. now rewrite Hfiles.
  - cbn [fst snd]. split; [|split; [|split; [|split]]]; try discriminate; auto.
    intros p _. now rewrite Hfiles.
Qed.

(** Whatever the machine and the stored token are, getHTTPClient changes
    no file but the credential file.  It changes no file at all when it
    does not return, and when it returns an error other than that of a
    failed write; after a failed write the credential file, truncated at
    the open, holds at most a part of the token that was to be saved.  A
    client it returns is bound to the token the credential file now
    holds, unless the file was left as it was; and the flow runs at most
    once. *)
Theorem getHTTPClient_touches_one_file (tokenPath : string) (env : Env R) :
  (forall p, p <> tokenPath ->
     files (fst (getHTTPClient oauth tokenPath env)) p = files env p) /\
  (forall err, snd (getHTTPClient oauth tokenPath env) = Returns (Err err) ->
     files (fst (getHTTPClient oauth tokenPath env)) = files env \/
     exists n tok',
       write_error env tokenPath = Some (n, err) /\
       files (fst (getHTTPClient oauth tokenPath env)) tokenPath =
         Some (substring 0 n (Encode oauth tok'))) /\
  (snd (getHTTPClient oauth tokenPath env) = Blocks ->
     files (fst (getHTTPClient oauth tokenPath env)) = files env) /\
  (forall client, snd (getHTTPClient oauth tokenPath env) = Returns (Ok client) ->
     files (fst (getHTTPClient oauth tokenPath env)) tokenPath = files env tokenPath \/
     files (fst (getHTTPClient oauth tokenPath env)) tokenPath =
       Some (Encode oauth (client_token client))) /\
  (flows (fst (getHTTPClient oauth tokenPath env)) <= flows env + 1)%nat.
Proof.
  assert (Hauth : forall env2 : Env R,
            files env2 = files env -> flows env2 = flows env ->
            write_error env2 = write_error env ->
            (forall p, p <> tokenPath ->
               files (fst (authorize oauth tokenPath env2)) p = files env p) /\
            (forall err, snd (authorize oauth tokenPath env2) = Returns (Err err) ->
               files (fst (authorize oauth tokenPath env2)) = files env \/
               exists n tok',
                 write_error env tokenPath = Some (n, err) /\
                 files (fst (authorize oauth tokenPath env2)) tokenPath =
                   Some (substring 0 n (Encode oauth tok'))) /\
            (snd (authorize oauth tokenPath env2) = Blocks ->
               files (fst (authorize oauth tokenPath env2)) = files env) /\
            (forall client,
               snd (authorize oauth tokenPath env2) = Returns (Ok client) ->
               files (fst (authorize oauth tokenPath env2)) tokenPath =
                 files env tokenPath \/
               files (fst (authorize oauth tokenPath env2)) tokenPath =
                 Some (Encode oauth (client_token client))) /\
            (flows (fst (authorize oauth tokenPath env2)) <= flows env + 1)%nat).
  { intros env2 Hfi Hfl Hwe.
    destruct (authorize_frame tokenPath env2) as (H1 & H2 & H3 & H4 & H5).
    rewrite Hfi in *. rewrite Hfl in *. rewrite Hwe in *.
    split; [exact H1|]. split; [exact H2|]. split; [exact H3|].
    split; [|lia]. intros client Hc. right. now apply H4. }
  assert (Hsame : forall (env1 : Env R) (o : outcome (result Client)),
            files env1 = files env -> flows env1 = flows env ->
            (forall p, p <> tokenPath -> files (fst (env1, o)) p = files env p) /\
            (forall err, snd (env1, o) = Returns (Err err) ->
               files (fst (env1, o)) = files env \/
               exists n tok',
                 write_error env tokenPath = Some (n, err) /\
                 files (fst (env1, o)) tokenPath =
                   Some (substring 0 n (Encode oauth tok'))) /\
            (snd (env1, o) = Blocks -> files (fst (env1, o)) = files env) /\
            (forall client, snd (env1, o) = Returns (Ok client) ->
               files (fst (env1, o)) tokenPath = files env tokenPath \/
               files (fst (env1, o)) tokenPath =
                 Some (Encode oauth (client_token client))) /\
            (flows (fst (env1, o)) <= flows env + 1)%nat).
  { intros env1 o Hfi Hfl. cbn [fst snd]. rewrite Hfi, Hfl.
    repeat split; auto. lia. }
  unfold getHTTPClient, tokenFromFile.
  destruct (files env tokenPath) as [data|] eqn:Hfile; [|now apply Hauth].
  destruct (Decode oauth data) as [tok [derr|]]; [now apply Hauth|].
  destruct (Expiry tok <? now env)%Z; [|now apply Hsame].
  destruct (TokenSource_Token oauth (config env) tok (remote env)) as [r [newTok|e]].
  - destruct (negb (String.eqb (AccessToken newTok) (AccessToken tok))).
    + cbv zeta.
      destruct (saveToken oauth tokenPath newTok _) as [env4 serr] eqn:Hsave.
      apply saveToken_effect in Hsave as (Hf4 & _ & Hother & Hcase).
      revert Hother Hf4 Hcase. env_simpl. intros Hother Hf4 Hcase.
      destruct serr as [serr|]; cbn [fst snd].
      * split; [|split; [|split; [|split]]]; try discriminate.
        -- exact Hother.
        -- intros err E. injection E as <-.
           destruct Hcase as [(e1 & _ & _ & Hfi & _)
                             |[(e1 & _ & _ & _ & Hfi & _)
                              |(n & _ & _ & Hw & Hfi & _)]].
           ++ left. exact Hfi.
           ++ left. exact Hfi.
           ++ right. exists n, newTok. split; [exact Hw|exact Hfi].
        -- unfold flows. rewrite Hf4. lia.
      * destruct Hcase as (_ & _ & _ & Hfi & _).
        split; [|split; [|split; [|split]]]; try discriminate.
        -- exact Hother.
        -- intros client E. injection E as <-. right. exact Hfi.
        -- unfold flows. rewrite Hf4. lia.
    + apply Hsame; env_simpl; reflexivity.
  - apply Hauth; env_simpl; reflexivity.
Qed.

End WithOAuth.

Lemma valid_token_needs_no_call_witness :
  getHTTPClient (endpoint "a-new") "secrets/token.json" (machine "fresh" []) =
    (machine "fresh" [],
     Returns (Ok {| client_config := {| ClientID := "ytt"; RedirectURL := "" |};
                    client_token := stored "a-old" "r-good" 900 |})).
Proof.
  apply (valid_token_needs_no_call (endpoint "a-new") "secrets/token.json" "fresh"
           (machine "fresh" []) (stored "a-old" "r-good" 900)).
  - reflexivity.
  - reflexivity.
  - intros E. discriminate E.
Defined.

Lemma saveToken_round_trip_witness :
  tokenFromFile codec_endpoint "secrets/token.json"
    (fst (saveToken codec_endpoint "secrets/token.json"
            (stored "a-old" "r-good" 900) (machine "expired" []))) =
  (fst (saveToken codec_endpoint "secrets/token.json"
          (stored "a-old" "r-good" 900) (machine "expired" [])),
   Ok (stored "a-old" "r-good" 900)).
Proof.
  apply (proj1 (saveToken_round_trip codec_endpoint "secrets/token.json"
                  (stored "a-old" "r-good" 900) (machine "expired" [])
                  (fst (saveToken codec_endpoint "secrets/token.json"
                          (stored "a-old" "r-good" 900) (machine "expired" [])))
                  None eq_refl)).
  - reflexivity.
  - reflexivity.
Defined.

(** *** The first run, the entry points and [main.go] *)

Section EntryPoints.

Context {R : Type} (oauth : OAuth R).
Variable ConfigFromJSON : string -> result Config.
Variable NewService : Client -> option Error.

(** On a machine without a credential file, a flow that succeeds and a
    save that goes through leave a file from which the next call gets
    its client without a flow, a refresh or a write, bound to the same
    token, as long as the decoder reads back what the encoder wrote and
    the token has not run out. *)
Theorem first_run_then_reuse
    (tokenPath code : string) (env : Env R) (r' : R) (tok' : Token) :
  files env tokenPath = None ->
  awaitCode (schedule env) = Returns code -> code <> "" ->
  Exchange oauth (redirected (config env)) code (remote env) = (r', Ok tok') ->
  mkdir_error env (filepath_Dir oauth tokenPath) = None ->
  open_error env tokenPath = None ->
  write_error env tokenPath = None ->
  Decode oauth (Encode oauth tok') = (tok', None) ->
  (now env <= Expiry tok')%Z ->
  exists env1,
    getHTTPClient oauth tokenPath env =
      (env1, Returns (Ok {| client_config := redirected (config env);
                            client_token := tok' |})) /\
    flows env1 = (flows env + 1)%nat /\
    getHTTPClient oauth tokenPath env1 =
      (env1, Returns (Ok {| client_config := redirected (config env);
                            client_token := tok' |})).
Proof.
  intros Hfile Hcode Hne Hex Hmk Hop Hwe Hdec Hexp.
  unfold getHTTPClient at 1. unfold tokenFromFile at 1. rewrite Hfile.
  unfold authorize, getTokenFromWeb. cbv zeta. autorewrite with env.
  rewrite Hcode. apply String.eqb_neq in Hne. rewrite Hne. rewrite Hex.
  unfold saveToken. cbv zeta. autorewrite with env. rewrite Hmk, Hop, Hwe.
  cbn [written option_map]. autorewrite with env.
  eexists. split; [reflexivity|]. split.
  - env_simpl. reflexivity.
  - unfold getHTTPClient, tokenFromFile. autorewrite with env.
    rewrite String.eqb_refl, Hdec. cbv beta iota zeta. autorewrite with env.
    apply Z.ltb_ge in Hexp. rewrite Hexp. reflexivity.
Qed.

(** Authenticate never looks at the credential file: whenever the client
    secret parses it runs the flow once, a stored token that is still
    good notwithstanding; a flow that succeeds, followed by a save that
    goes through, overwrites the file; and no other file changes. *)
Theorem Authenticate_always_reauthorizes
    (oauthPath tokenPath b : string) (cfg : Config) (env : Env R) :
  files env oauthPath = Some b ->
  ConfigFromJSON b = Ok cfg ->
  flows (fst (Authenticate oauth ConfigFromJSON oauthPath tokenPath env)) =
    (flows env + 1)%nat /\
  (forall code r' tok',
     awaitCode (schedule env) = Returns code -> code <> "" ->
     Exchange oauth (redirected cfg) code (remote env) = (r', Ok tok') ->
     mkdir_error env (filepath_Dir oauth tokenPath) = None ->
     open_error env tokenPath = None ->
     write_error env tokenPath = None ->
     snd (Authenticate oauth ConfigFromJSON oauthPath tokenPath env) = Returns None /\
     files (fst (Authenticate oauth ConfigFromJSON oauthPath tokenPath env)) tokenPath =
       Some (Encode oauth tok')) /\
  (forall p, p <> tokenPath ->
     files (fst (Authenticate oauth ConfigFromJSON oauthPath tokenPath env)) p =
     files env p).
Proof.
  intros Hfile Hcfg. unfold Authenticate, ReadFile. rewrite Hfile, Hcfg. cbv zeta.
  destruct (getTokenFromWeb oauth (with_config cfg env)) as [env3 o] eqn:Hweb.
  apply getTokenFromWeb_effect in Hweb
    as (Hflows & Hfiles & _ & Hmk3 & Hop3 & Hwe3 & _ & Hout).
  change (flows (with_config cfg env)) with (flows env) in Hflows.
  change (files (with_config cfg env)) with (files env) in Hfiles.
  change (mkdir_error (with_config cfg env)) with (mkdir_error env) in Hmk3.
  change (open_error (with_config cfg env)) with (open_error env) in Hop3.
  change (write_error (with_config cfg env)) with (write_error env) in Hwe3.
  change (schedule (with_config cfg env)) with (schedule env) in Hout.
  change (remote (with_config cfg env)) with (remote env) in Hout.
  change (config (with_config cfg env)) with cfg in Hout.
  destruct o as [[tok|err]|].
  - destruct (saveToken oauth tokenPath tok env3) as [env4 serr] eqn:Hsave.
    apply saveToken_effect in Hsave as (Hf4 & _ & Hother & Hcase).
    cbn [fst snd]. split; [lia|]. split.
    + intros code r' tok' Hcode Hne Hex Hmk Hop Hwe.
      rewrite Hcode in Hout. apply String.eqb_neq in Hne. rewrite Hne, Hex in Hout.
      simpl in Hout. injection Hout as ->.
      rewrite Hmk3, Hop3, Hwe3 in Hcase.
      destruct serr as [serr|].
      * destruct Hcase as [(e1 & H & _)|[(e1 & _ & H & _)|(n & _ & _ & H & _)]];
          congruence.
      * destruct Hcase as (_ & _ & _ & Hfi & _). auto.
    + intros p Hp. now rewrite Hother, Hfiles.
  - cbn [fst snd]. split; [lia|]. split.
    + intros code r' tok' Hcode Hne Hex _ _ _.
      rewrite Hcode in Hout. apply String.eqb_neq in Hne. rewrite Hne, Hex in Hout.
      discriminate.
    + intros p _. now rewrite Hfiles.
  - cbn [fst snd]. split; [lia|]. split.
    + intros code r' tok' Hcode Hne Hex _ _ _.
      rewrite Hcode in Hout. apply String.eqb_neq in Hne. rewrite Hne, Hex in Hout.
      discriminate.
    + intros p _. now rewrite Hfiles.
Qed.

(** Without a client secret file that can be read and parsed, neither
    NewClient nor Authenticate starts a flow, reads the credential file
    or writes anything: both return the error on an unchanged machine. *)
Theorem bad_secret_stops_early (oauthPath tokenPath : string) (env : Env R) :
  (files env oauthPath = None ->
   Authenticate oauth ConfigFromJSON oauthPath tokenPath env =
     (env, Returns (Some ("unable to read client secret file: open " ++ oauthPath ++
                          ": no such file or directory"))) /\
   NewClient oauth ConfigFromJSON NewService oauthPath tokenPath env =
     (env, Returns (Err ("unable to read client secret file: open " ++ oauthPath ++
                         ": no such file or directory")))) /\
  (forall b e,
     files env oauthPath = Some b -> ConfigFromJSON b = Err e ->
     Authenticate oauth ConfigFromJSON oauthPath tokenPath env =
       (env, Returns (Some ("unable to parse client secret file: " ++ e))) /\
     NewClient oauth ConfigFromJSON NewService oauthPath tokenPath env =
       (env, Returns (Err ("unable to parse client secret file: " ++ e)))).
Proof.
  unfold Authenticate, NewClient, ReadFile. split.
  - intros ->. split; reflexivity.
  - intros b e -> ->. split; reflexivity.
Qed.

(** getClient of [main.go] does not look at the expiry: a stored token
    that decodes is handed to [config.Client] as it is, however long ago
    it ran out, with no call to the token endpoint, no flow and no
    write.  (getHTTPClient refreshes such a token first.) *)
Theorem main_getClient_skips_expiry_check (data : string) (tok : Token) (env : Env R) :
  files env "secrets/token.json" = Some data ->
  Decode oauth data = (tok, None) ->
  getClient oauth env =
    (env, Done _ {| client_config := config env; client_token := tok |}).
Proof.
  intros Hfile Hdec. unfold getClient, tokenFromFile. cbv zeta.
  now rewrite Hfile, Hdec.
Qed.

End EntryPoints.

Lemma first_run_then_reuse_witness :
  exists env1,
    getHTTPClient codec_endpoint "secrets/token.json"
      (first_run [Arrives (redirect "ABC")]) =
      (env1, Returns (Ok {| client_config :=
                              redirected {| ClientID := "ytt"; RedirectURL := "" |};
                            client_token := stored "a-old" "r-good" 900 |})) /\
    flows env1 = 1%nat /\
    getHTTPClient codec_endpoint "secrets/token.json" env1 =
      (env1, Returns (Ok {| client_config :=
                              redirected {| ClientID := "ytt"; RedirectURL := "" |};
                            client_token := stored "a-old" "r-good" 900 |})).
Proof.
  apply (first_run_then_reuse codec_endpoint "secrets/token.json" "ABC"
           (first_run [Arrives (redirect "ABC")]) tt (stored "a-old" "r-good" 900));
    try reflexivity.
  - discriminate.
  - intros E. discriminate E.
Defined.

Lemma Authenticate_always_reauthorizes_witness :
  flows (fst (Authenticate (endpoint "a-new") secret_parser
                "secrets/oauth.json" "secrets/token.json"
                (with_secret (machine "fresh" [Arrives (redirect "ABC")])))) = 1%nat /\
  files (fst (Authenticate (endpoint "a-new") secret_parser
                "secrets/oauth.json" "secrets/token.json"
                (with_secret (machine "fresh" [Arrives (redirect "ABC")]))))
    "secrets/token.json" = Some "a-web".
Proof.
  destruct (Authenticate_always_reauthorizes (endpoint "a-new") secret_parser
              "secrets/oauth.json" "secrets/token.json" "{client}"
              {| ClientID := "ytt"; RedirectURL := "" |}
              (with_secret (machine "fresh" [Arrives (redirect "ABC")]))
              eq_refl eq_refl) as (Hflows & Hok & _).
  split; [exact Hflows|].
  assert (Hne : "ABC" <> "") by discriminate.
  exact (proj2 (Hok "ABC" tt (stored "a-web" "r-good" 1000)
                  eq_refl Hne eq_refl eq_refl eq_refl eq_refl)).
Defined.

Lemma main_getClient_skips_expiry_check_witness :
  getClient (endpoint "a-new") (machine "expired" []) =
    (machine "expired" [],
     Done _ {| client_config := {| ClientID := "ytt"; RedirectURL := "" |};
               client_token := stored "a-old" "r-good" 100 |}) /\
  (Expiry (stored "a-old" "r-good" 100) < now (machine "expired" []))%Z.
Proof.
  split; [|reflexivity].
  apply (main_getClient_skips_expiry_check (endpoint "a-new") "expired"
           (stored "a-old" "r-good" 100) (machine "expired" [])); reflexivity.
Defined.

End AuthMore.

(** ** [transcripts.go]: DownloadTranscript; [main.go]: getTranscript *)

Module Transcripts.
Import Go Catalog Sanitize.

Local Open Scope string_scope.

(** [caption.Id] and [caption.Snippet.Language] *)
Record Caption := { Caption_Id : string; Snippet_Language : string }.

(** [resp.Body]: what successive reads give, and the error that ends them
    ([None] is the end of the stream). *)
Record Body := { chunks : list string; read_error : option Error }.

(** The service of [Catalog] together with the two caption calls. *)
Record CaptionService (W : Type) := {
  videos : Service W;
  CaptionsListDo : string -> W -> W * result (list Caption);
  CaptionsDownload : string -> W -> W * result Body
}.
Arguments videos {W} _.
Arguments CaptionsListDo {W} _ _ _.
Arguments CaptionsDownload {W} _ _ _.

(** The files by path, the directories and files that cannot be made,
    and the files that cannot take everything ([Some (n, err)]: the file
    takes [n] bytes at most; the write that goes beyond them writes what
    fits and fails with [err], and so does every write after it). *)
Record Disk := {
  contents : string -> option string;
  mkdirall_error : string -> option Error;
  create_error : string -> option Error;
  write_limit : string -> option (nat * Error)
}.

(** What the writes of [data] to a file that was just created leave in
    it, and the error of the first write that failed.  Nothing is
    written, and no write fails, when there is nothing to write. *)
Definition writeAll (limit : option (nat * Error)) (data : string)
  : string * option Error :=
  match limit with
  | Some (n, err) =>
      if (n <? String.length data)%nat then (substring 0 n data, Some err)
      else (data, None)
  | None => (data, None)
  end.

Inductive Step :=
| AskedVideo (videoID : string) (err : option Error)
| AskedCaptions (videoID : string) (err : option Error)
| AskedDownload (captionID : string) (err : option Error)
| MadeDir (dir : string)
| CreatedFile (path : string).

Record Run (W : Type) := {
  remote_world : W;
  disk : Disk;
  steps : list Step
}.
Arguments remote_world {W} _.
Arguments disk {W} _.
Arguments steps {W} _.

(** The loop over the caption tracks: the identifier of the first track
    whose language is [en] or empty, or the empty string. *)
Fixpoint firstEnglish (items : list Caption) : string :=
  match items with
  | [] => ""
  | caption :: rest =>
      if (String.eqb (Snippet_Language caption) "en" ||
          String.eqb (Snippet_Language caption) "")%bool
      then Caption_Id caption
      else firstEnglish rest
  end.

(** [if captionID == "" { captionID = captionsResponse.Items[0].Id }] *)
Definition chooseCaption (items : list Caption) : string :=
  let captionID := firstEnglish items in
  if String.eqb captionID "" then
    match items with
    | first :: _ => Caption_Id first
    | [] => ""
    end
  else captionID.

Definition english (caption : Caption) : bool :=
  (String.eqb (Snippet_Language caption) "en" ||
   String.eqb (Snippet_Language caption) "")%bool.

(** [fmt.Sprintf("%s-%s.txt", videoID, sanitizedTitle)] *)
Definition transcriptName (videoID sanitizedTitle : string) : string :=
  videoID ++ "-" ++ sanitizedTitle ++ ".txt".

Section WithService.

Context {W : Type} (cs : CaptionService W).

(** [filepath.Join] *)
Variable Join : string -> string -> string.

Definition record (s : Step) (w : W) (st : Run W) : Run W :=
  {| remote_world := w; disk := disk st; steps := steps st ++ [s] |}.

Definition note (s : Step) (st : Run W) : Run W :=
  {| remote_world := remote_world st; disk := disk st; steps := steps st ++ [s] |}.

(** The file at [path] after [os.Create] and the writes of [data]. *)
Definition store (path data : string) (st : Run W) : Run W :=
  {| remote_world := remote_world st;
     disk := {| contents := fun p => if String.eqb p path then Some data
                                     else contents (disk st) p;
                mkdirall_error := mkdirall_error (disk st);
                create_error := create_error (disk st);
                write_limit := write_limit (disk st) |};
     steps := steps st ++ [CreatedFile path] |}.

(** The three remote calls that DownloadTranscript and getTranscript
    share: the title, the caption tracks, the body of the chosen
    track. *)
Definition fetchTranscript (videoID : string) (st : Run W)
  : Run W * result (string * Body) :=
  let (w, r) :=
    VideosDo (videos cs) {| videos_part := ["snippet"]; videos_id := videoID |}
      (remote_world st) in
  let st := record (AskedVideo videoID (error_of r)) w st in
  match r with
  | Err err => (st, Err ("error retrieving video details: " ++ err))
  | Ok videoResponse =>
      match Videos videoResponse with
      | [] => (st, Err ("video " ++ videoID ++ " not found"))
      | video :: _ =>
          let videoTitle := Snippet_Title video in
          let sanitizedTitle := SanitizeFilename videoTitle in
          let (w, r) := CaptionsListDo cs videoID (remote_world st) in
          let st := record (AskedCaptions videoID (error_of r)) w st in
          match r with
          | Err err => (st, Err ("error retrieving captions list: " ++ err))
          | Ok [] => (st, Err ("no captions found for video " ++ videoID))
          | Ok items =>
              let captionID := chooseCaption items in
              let (w, r) := CaptionsDownload cs captionID (remote_world st) in
              let st := record (AskedDownload captionID (error_of r)) w st in
              match r with
              | Err err => (st, Err ("error downloading captions: " ++ err))
              | Ok body => (st, Ok (sanitizedTitle, body))
              end
          end
      end
  end.

(** [transcripts.go].  [io.Copy] writes what it reads until the stream
    ends; it stops at the first write that fails and hands its error
    back, and otherwise hands back the error of a read that fails.  The
    lines written to the error stream are left out. *)
Definition DownloadTranscript (videoID outputDir : string) (st : Run W)
  : Run W * option Error :=
  let (st, r) := fetchTranscript videoID st in
  match r with
  | Err err => (st, Some err)
  | Ok (sanitizedTitle, body) =>
      match mkdirall_error (disk st) outputDir with
      | Some err => (st, Some ("error creating output directory: " ++ err))
      | None =>
          let st := note (MadeDir outputDir) st in
          let filename := transcriptName videoID sanitizedTitle in
          let outputPath := Join outputDir filename in
          match create_error (disk st) outputPath with
          | Some err => (st, Some ("error creating output file: " ++ err))
          | None =>
              let (data, werr) :=
                writeAll (write_limit (disk st) outputPath)
                         (String.concat "" (chunks body)) in
              let st := store outputPath data st in
              match werr with
              | Some err => (st, Some ("error writing transcript: " ++ err))
              | None =>
                  match read_error body with
                  | Some err => (st, Some ("error writing transcript: " ++ err))
                  | None => (st, None)
                  end
              end
          end
      end
  end.

(** [main.go].  The directory is made by [main]; the loop
    [for { n, err := Read(buf); ...; if err != nil { break } }] drops the
    error of every write, leaves at any error of a read, and [nil] is
    returned after it. *)
Definition getTranscript (videoID outputDir : string) (st : Run W)
  : Run W * option Error :=
  let (st, r) := fetchTranscript videoID st in
  match r with
  | Err err => (st, Some err)
  | Ok (sanitizedTitle, body) =>
      let filename := transcriptName videoID sanitizedTitle in
      let outputPath := Join outputDir filename in
      match create_error (disk st) outputPath with
      | Some err => (st, Some ("error creating output file: " ++ err))
      | None =>
          let (data, _) :=
            writeAll (write_limit (disk st) outputPath)
                     (String.concat "" (chunks body)) in
          let st := store outputPath data st in
          (st, None)
      end
  end.

End WithService.

(** A simulated service: one video, its caption tracks, the body of each
    track. *)
Definition captioned (title : string) (tracks : list Caption)
    (body : string -> result Body) : CaptionService unit :=
  {| videos :=
       {| ChannelsDo := fun _ w => (w, Err "not called");
          PlaylistItemsDo := fun _ w => (w, Err "not called");
          VideosDo := fun call w =>
            (w, Ok {| Videos :=
                        [{| Id := videos_id call; Snippet_Title := title;
                            Snippet_PublishedAt := "2024-01-01T00:00:00Z";
                            Statistics_ViewCount := 1;
                            ContentDetails_Duration := "PT5M" |}] |}) |};
     CaptionsListDo := fun _ w => (w, Ok tracks);
     CaptionsDownload := fun id w => (w, body id) |}.

Definition blank_disk : Disk :=
  {| contents := fun _ => None;
     mkdirall_error := fun _ => None;
     create_error := fun _ => None;
     write_limit := fun _ => None |}.

(** A disk on which no file takes more than [n] bytes. *)
Definition small_disk (n : nat) : Disk :=
  {| contents := fun _ => None;
     mkdirall_error := fun _ => None;
     create_error := fun _ => None;
     write_limit := fun _ => Some (n, "no space left on device") |}.

Definition fresh_run : Run unit :=
  {| remote_world := tt; disk := blank_disk; steps := [] |}.

Definition slash_join (dir name : string) : string := dir ++ "/" ++ name.

End Transcripts.

Module TranscriptsFacts.
Import Go Catalog Sanitize Transcripts.

Local Open Scope string_scope.

(** *** The choice of the caption track *)

Lemma firstEnglish_none items :
  forallb (fun c => negb (english c)) items = true -> firstEnglish items = "".
Proof.
  induction items as [|c items IH]; simpl; [reflexivity|].
  intros H. apply andb_prop in H as [Hc H]. apply negb_true_iff in Hc.
  unfold english in Hc. rewrite Hc. auto.
Qed.

Lemma firstEnglish_first pre c post :
  forallb (fun c => negb (english c)) pre = true -> english c = true ->
  firstEnglish (pre ++ c :: post) = Caption_Id c.
Proof.
  intros Hpre Hc. induction pre as [|x pre IH]; simpl.
  - unfold english in Hc. now rewrite Hc.
  - simpl in Hpre. apply andb_prop in Hpre as [Hx Hpre]. apply negb_true_iff in Hx.
    unfold english in Hx. rewrite Hx. auto.
Qed.

Lemma firstEnglish_In items :
  firstEnglish items <> "" -> In (firstEnglish items) (map Caption_Id items).
Proof.
  induction items as [|c items IH]; simpl; [congruence|].
  destruct (_ || _)%bool; [now left|]. intros H. right. auto.
Qed.

(** The track that is downloaded is one of the tracks listed; it is the
    first one whose language is [en] or empty, if that track has an
    identifier, and the first track of the list otherwise, whatever its
    language is. *)
Theorem chooseCaption_choice (items : list Caption) :
  (items <> [] -> In (chooseCaption items) (map Caption_Id items)) /\
  (forall pre c post,
     items = (pre ++ c :: post)%list ->
     forallb (fun c => negb (english c)) pre = true -> english c = true ->
     Caption_Id c <> "" ->
     chooseCaption items = Caption_Id c) /\
  (forall first rest,
     items = first :: rest ->
     (forallb (fun c => negb (english c)) items = true \/
      exists pre c post,
        items = (pre ++ c :: post)%list /\
        forallb (fun c => negb (english c)) pre = true /\ english c = true /\
        Caption_Id c = "") ->
     chooseCaption items = Caption_Id first).
Proof.
  unfold chooseCaption. cbv zeta. split; [|split].
  - intros Hne. destruct (String.eqb_spec (firstEnglish items) "") as [E|E].
    + destruct items as [|c items]; [congruence|]. simpl. now left.
    + now apply firstEnglish_In.
  - intros pre c post -> Hpre Hc Hid.
    rewrite (firstEnglish_first pre c post Hpre Hc).
    apply String.eqb_neq in Hid. now rewrite Hid.
  - intros first rest Hitems [Hnone|(pre & c & post & Hsplit & Hpre & Hc & Hid)].
    + rewrite (firstEnglish_none items Hnone). simpl. now rewrite Hitems.
    + rewrite Hsplit at 1. rewrite (firstEnglish_first pre c post Hpre Hc), Hid.
      simpl. now rewrite Hitems.
Qed.

Lemma chooseCaption_choice_witness :
  chooseCaption [{| Caption_Id := "c-fr"; Snippet_Language := "fr" |};
                 {| Caption_Id := "c-en"; Snippet_Language := "en" |};
                 {| Caption_Id := "c-auto"; Snippet_Language := "" |}] = "c-en".
Proof.
  apply (proj1 (proj2 (chooseCaption_choice
           [{| Caption_Id := "c-fr"; Snippet_Language := "fr" |};
            {| Caption_Id := "c-en"; Snippet_Language := "en" |};
            {| Caption_Id := "c-auto"; Snippet_Language := "" |}]))
           [{| Caption_Id := "c-fr"; Snippet_Language := "fr" |}]
           {| Caption_Id := "c-en"; Snippet_Language := "en" |}
           [{| Caption_Id := "c-auto"; Snippet_Language := "" |}]).
  - reflexivity.
  - reflexivity.
  - reflexivity.
  - discriminate.
Defined.

(** *** The download *)

Section WithService.

Context {W : Type} (cs : CaptionService W).
Variable Join : string -> string -> string.

Lemma fetchTranscript_ok videoID (st : Run W) w1 w2 w3 resp video rest items body :
  VideosDo (videos cs) {| videos_part := ["snippet"]; videos_id := videoID |}
    (remote_world st) = (w1, Ok resp) ->
  Videos resp = video :: rest ->
  CaptionsListDo cs videoID w1 = (w2, Ok items) -> items <> [] ->
  CaptionsDownload cs (chooseCaption items) w2 = (w3, Ok body) ->
  fetchTranscript cs videoID st =
    ({| remote_world := w3; disk := disk st;
        steps := steps st ++ [AskedVideo videoID None; AskedCaptions videoID None;
                              AskedDownload (chooseCaption items) None] |},
     Ok (SanitizeFilename (Snippet_Title video), body)).
Proof.
  intros Hv Hitems Hc Hne Hd. unfold fetchTranscript, record.
  rewrite Hv. cbn [error_of remote_world disk steps]. rewrite Hitems.
  cbn [remote_world]. rewrite Hc. cbn [error_of remote_world disk steps].
  destruct items as [|c items]; [congruence|].
  rewrite Hd. cbn [error_of remote_world disk steps].
  rewrite <- !app_assoc. reflexivity.
Qed.

Lemma fetchTranscript_disk videoID (st : Run W) :
  disk (fst (fetchTranscript cs videoID st)) = disk st.
Proof.
  unfold fetchTranscript, record.
  destruct (VideosDo (videos cs) _ (remote_world st)) as [w1 [resp|e]]; [|reflexivity].
  cbn [error_of remote_world disk steps].
  destruct (Videos resp) as [|video rest]; [reflexivity|].
  destruct (CaptionsListDo cs videoID w1) as [w2 [[|c items]|e]]; try reflexivity.
  cbn [error_of remote_world disk steps].
  destruct (CaptionsDownload cs _ w2) as [w3 [body|e]]; reflexivity.
Qed.

(** When the video is known, has caption tracks, and the body of the
    chosen track is read to its end and written in full,
    DownloadTranscript makes the output directory, writes the whole body
    to the file named after the video identifier and the sanitized
    title, changes no other file, and returns [nil] after three remote
    calls. *)
Theorem DownloadTranscript_saves
    (videoID outputDir : string) (st : Run W) (w1 w2 w3 : W)
    (resp : VideoListResponse) (video : Video) (rest : list Video)
    (items : list Caption) (body : Body) :
  VideosDo (videos cs) {| videos_part := ["snippet"]; videos_id := videoID |}
    (remote_world st) = (w1, Ok resp) ->
  Videos resp = video :: rest ->
  CaptionsListDo cs videoID w1 = (w2, Ok items) -> items <> [] ->
  CaptionsDownload cs (chooseCaption items) w2 = (w3, Ok body) ->
  read_error body = None ->
  mkdirall_error (disk st) outputDir = None ->
  create_error (disk st)
    (Join outputDir
       (transcriptName videoID (SanitizeFilename (Snippet_Title video)))) = None ->
  write_limit (disk st)
    (Join outputDir
       (transcriptName videoID (SanitizeFilename (Snippet_Title video)))) = None ->
  snd (DownloadTranscript cs Join videoID outputDir st) = None /\
  contents (disk (fst (DownloadTranscript cs Join videoID outputDir st)))
    (Join outputDir (transcriptName videoID (SanitizeFilename (Snippet_Title video)))) =
    Some (String.concat "" (chunks body)) /\
  (forall p,
     p <> Join outputDir
            (transcriptName videoID (SanitizeFilename (Snippet_Title video))) ->
     contents (disk (fst (DownloadTranscript cs Join videoID outputDir st))) p =
     contents (disk st) p) /\
  steps (fst (DownloadTranscript cs Join videoID outputDir st)) =
    (steps st ++
     [AskedVideo videoID None; AskedCaptions videoID None;
      AskedDownload (chooseCaption items) None; MadeDir outputDir;
      CreatedFile (Join outputDir
                     (transcriptName videoID (SanitizeFilename (Snippet_Title video))))])%list.
Proof.
  intros Hv Hitems Hc Hne Hd Hread Hmk Hcr Hwl. unfold DownloadTranscript.
  rewrite (fetchTranscript_ok _ _ _ _ _ _ _ _ _ _ Hv Hitems Hc Hne Hd).
  cbn [disk]. rewrite Hmk. cbv zeta. unfold note. cbn [disk]. rewrite Hcr, Hwl.
  cbn [writeAll]. rewrite Hread.
  unfold store. cbn [fst snd disk contents steps].
  split; [reflexivity|]. split; [now rewrite String.eqb_refl|]. split.
  - intros p Hp. apply String.eqb_neq in Hp. now rewrite Hp.
  - rewrite <- !app_assoc. reflexivity.
Qed.

(** When a read of the body fails, and what was read before could be
    written, DownloadTranscript returns the error and leaves a file with
    the part that was read; getTranscript of [main.go] leaves the same
    file and returns [nil]. *)
Theorem read_failure_leaves_partial_file
    (videoID outputDir : string) (st : Run W) (w1 w2 w3 : W)
    (resp : VideoListResponse) (video : Video) (rest : list Video)
    (items : list Caption) (body : Body) (e : Error) :
  VideosDo (videos cs) {| videos_part := ["snippet"]; videos_id := videoID |}
    (remote_world st) = (w1, Ok resp) ->
  Videos resp = video :: rest ->
  CaptionsListDo cs videoID w1 = (w2, Ok items) -> items <> [] ->
  CaptionsDownload cs (chooseCaption items) w2 = (w3, Ok body) ->
  read_error body = Some e ->
  mkdirall_error (disk st) outputDir = None ->
  create_error (disk st)
    (Join outputDir
       (transcriptName videoID (SanitizeFilename (Snippet_Title video)))) = None ->
  write_limit (disk st)
    (Join outputDir
       (transcriptName videoID (SanitizeFilename (Snippet_Title video)))) = None ->
  snd (DownloadTranscript cs Join videoID outputDir st) =
    Some ("error writing transcript: " ++ e) /\
  contents (disk (fst (DownloadTranscript cs Join videoID outputDir st)))
    (Join outputDir (transcriptName videoID (SanitizeFilename (Snippet_Title video)))) =
    Some (String.concat "" (chunks body)) /\
  snd (getTranscript cs Join videoID outputDir st) = None /\
  contents (disk (fst (getTranscript cs Join videoID outputDir st)))
    (Join outputDir (transcriptName videoID (SanitizeFilename (Snippet_Title video)))) =
    Some (String.concat "" (chunks body)).
Proof.
  intros Hv Hitems Hc Hne Hd Hread Hmk Hcr Hwl.
  unfold DownloadTranscript, getTranscript.
  rewrite (fetchTranscript_ok _ _ _ _ _ _ _ _ _ _ Hv Hitems Hc Hne Hd).
  cbn [disk]. rewrite Hmk. cbv zeta. unfold note. cbn [disk]. rewrite Hcr, Hwl.
  cbn [writeAll]. rewrite Hread.
  unfold store. cbn [fst snd disk contents steps].
  rewrite String.eqb_refl. repeat split; reflexivity.
Qed.

(** Whatever the remote answers, an error that DownloadTranscript returns
    leaves the disk as it was, unless it is the error of the copy: then
    the three remote calls had succeeded and the directory and the file
    were made, only the output file has changed, and it holds what was
    read before the read that failed, or the bytes that went in before
    the write that failed. *)
Theorem DownloadTranscript_error_keeps_disk
    (videoID outputDir : string) (st : Run W) (err : Error) :
  snd (DownloadTranscript cs Join videoID outputDir st) = Some err ->
  disk (fst (DownloadTranscript cs Join videoID outputDir st)) = disk st \/
  exists sanitizedTitle body e,
    snd (fetchTranscript cs videoID st) = Ok (sanitizedTitle, body) /\
    err = "error writing transcript: " ++ e /\
    (forall p,
       p <> Join outputDir (transcriptName videoID sanitizedTitle) ->
       contents (disk (fst (DownloadTranscript cs Join videoID outputDir st))) p =
       contents (disk st) p) /\
    ((read_error body = Some e /\
      contents (disk (fst (DownloadTranscript cs Join videoID outputDir st)))
        (Join outputDir (transcriptName videoID sanitizedTitle)) =
        Some (String.concat "" (chunks body))) \/
     (exists n,
        write_limit (disk st)
          (Join outputDir (transcriptName videoID sanitizedTitle)) = Some (n, e) /\
        (n < String.length (String.concat "" (chunks body)))%nat /\
        contents (disk (fst (DownloadTranscript cs Join videoID outputDir st)))
          (Join outputDir (transcriptName videoID sanitizedTitle)) =
          Some (substring 0 n (String.concat "" (chunks body))))).
Proof.
  unfold DownloadTranscript.
  pose proof (fetchTranscript_disk videoID st) as Hdisk.
  destruct (fetchTranscript cs videoID st) as [st3 [[title body]|e]];
    cbn [fst snd] in *; [|auto].
  destruct (mkdirall_error (disk st3) outputDir); [cbn [fst snd]; auto|].
  cbv zeta. unfold note. cbn [disk].
  destruct (create_error (disk st3) _); [cbn [fst snd disk]; auto|].
  rewrite Hdisk. unfold writeAll.
  destruct (write_limit (disk st) _) as [[n werr]|] eqn:Hlimit.
  - destruct (n <? String.length (String.concat "" (chunks body)))%nat eqn:Hn.
    + cbn [fst snd]. intros E. injection E as <-. right.
      exists title, body, werr. split; [reflexivity|]. split; [reflexivity|].
      unfold store. cbn [disk contents]. rewrite ?Hdisk. split.
      * intros p Hp. apply String.eqb_neq in Hp. now rewrite Hp.
      * right. exists n. apply Nat.ltb_lt in Hn.
        rewrite String.eqb_refl. auto.
    + destruct (read_error body) as [e|] eqn:Hread; cbn [fst snd]; [|discriminate].
      intros E. injection E as <-. right.
      exists title, body, e. split; [reflexivity|]. split; [reflexivity|].
      unfold store. cbn [disk contents]. rewrite ?Hdisk. split.
      * intros p Hp. apply String.eqb_neq in Hp. now rewrite Hp.
      * left. rewrite String.eqb_refl. auto.
  - destruct (read_error body) as [e|] eqn:Hread; cbn [fst snd]; [|discriminate].
    intros E. injection E as <-. right.
    exists title, body, e. split; [reflexivity|]. split; [reflexivity|].
    unfold store. cbn [disk contents]. rewrite ?Hdisk. split.
    + intros p Hp. apply String.eqb_neq in Hp. now rewrite Hp.
    + left. rewrite String.eqb_refl. auto.
Qed.

End WithService.

Lemma DownloadTranscript_saves_witness :
  snd (DownloadTranscript
         (captioned " My Video: Part 1/2 "
            [{| Caption_Id := "c-en"; Snippet_Language := "en" |}]
            (fun _ => Ok {| chunks := ["Hello, "; "world."]; read_error := None |}))
         slash_join "abc123" "outputs" fresh_run) = None /\
  contents
    (disk (fst (DownloadTranscript
                  (captioned " My Video: Part 1/2 "
                     [{| Caption_Id := "c-en"; Snippet_Language := "en" |}]
                     (fun _ => Ok {| chunks := ["Hello, "; "world."];
                                     read_error := None |}))
                  slash_join "abc123" "outputs" fresh_run)))
    "outputs/abc123-My Video_ Part 1_2.txt" = Some "Hello, world.".
Proof.
  destruct (DownloadTranscript_saves
              (captioned " My Video: Part 1/2 "
                 [{| Caption_Id := "c-en"; Snippet_Language := "en" |}]
                 (fun _ => Ok {| chunks := ["Hello, "; "world."]; read_error := None |}))
              slash_join "abc123" "outputs" fresh_run tt tt tt
              {| Videos := [{| Id := "abc123"; Snippet_Title := " My Video: Part 1/2 ";
                               Snippet_PublishedAt := "2024-01-01T00:00:00Z";
                               Statistics_ViewCount := 1;
                               ContentDetails_Duration := "PT5M" |}] |}
              {| Id := "abc123"; Snippet_Title := " My Video: Part 1/2 ";
                 Snippet_PublishedAt := "2024-01-01T00:00:00Z";
                 Statistics_ViewCount := 1;
                 ContentDetails_Duration := "PT5M" |}
              []
              [{| Caption_Id := "c-en"; Snippet_Language := "en" |}]
              {| chunks := ["Hello, "; "world."]; read_error := None |}
              eq_refl eq_refl eq_refl ltac:(discriminate) eq_refl eq_refl eq_refl eq_refl
              eq_refl)
    as (Hout & Hfile & _).
  split; [exact Hout|exact Hfile].
Defined.

Lemma read_failure_leaves_partial_file_witness :
  snd (DownloadTranscript
         (captioned "Talk"
            [{| Caption_Id := "c-en"; Snippet_Language := "en" |}]
            (fun _ => Ok {| chunks := ["Hello, "];
                            read_error := Some "unexpected EOF" |}))
         slash_join "abc123" "outputs" fresh_run) =
    Some "error writing transcript: unexpected EOF" /\
  snd (getTranscript
         (captioned "Talk"
            [{| Caption_Id := "c-en"; Snippet_Language := "en" |}]
            (fun _ => Ok {| chunks := ["Hello, "];
                            read_error := Some "unexpected EOF" |}))
         slash_join "abc123" "outputs" fresh_run) = None.
Proof.
  destruct (read_failure_leaves_partial_file
              (captioned "Talk"
                 [{| Caption_Id := "c-en"; Snippet_Language := "en" |}]
                 (fun _ => Ok {| chunks := ["Hello, "];
                                 read_error := Some "unexpected EOF" |}))
              slash_join "abc123" "outputs" fresh_run tt tt tt
              {| Videos := [{| Id := "abc123"; Snippet_Title := "Talk";
                               Snippet_PublishedAt := "2024-01-01T00:00:00Z";
                               Statistics_ViewCount := 1;
                               ContentDetails_Duration := "PT5M" |}] |}
              {| Id := "abc123"; Snippet_Title := "Talk";
                 Snippet_PublishedAt := "2024-01-01T00:00:00Z";
                 Statistics_ViewCount := 1;
                 ContentDetails_Duration := "PT5M" |}
              []
              [{| Caption_Id := "c-en"; Snippet_Language := "en" |}]
              {| chunks := ["Hello, "]; read_error := Some "unexpected EOF" |}
              "unexpected EOF"
              eq_refl eq_refl eq_refl ltac:(discriminate) eq_refl eq_refl eq_refl eq_refl
              eq_refl)
    as (Hout & _ & Hmain & _).
  split; [exact Hout|exact Hmain].
Defined.

Lemma DownloadTranscript_error_keeps_disk_witness :
  snd (DownloadTranscript
         (captioned "Talk" [{| Caption_Id := "c-en"; Snippet_Language := "en" |}]
            (fun _ => Ok {| chunks := ["Hello, "; "world."]; read_error := None |}))
         slash_join "abc123" "outputs"
         {| remote_world := tt; disk := small_disk 5; steps := [] |}) =
    Some "error writing transcript: no space left on device" /\
  contents
    (disk (fst (DownloadTranscript
                  (captioned "Talk"
                     [{| Caption_Id := "c-en"; Snippet_Language := "en" |}]
                     (fun _ => Ok {| chunks := ["Hello, "; "world."];
                                     read_error := None |}))
                  slash_join "abc123" "outputs"
                  {| remote_world := tt; disk := small_disk 5; steps := [] |})))
    "outputs/abc123-Talk.txt" = Some "Hello" /\
  (disk (fst (DownloadTranscript
                (captioned "Talk"
                   [{| Caption_Id := "c-en"; Snippet_Language := "en" |}]
                   (fun _ => Ok {| chunks := ["Hello, "; "world."];
                                   read_error := None |}))
                slash_join "abc123" "outputs"
                {| remote_world := tt; disk := small_disk 5; steps := [] |})) =
   small_disk 5 \/
   exists sanitizedTitle body e,
     snd (fetchTranscript
            (captioned "Talk"
               [{| Caption_Id := "c-en"; Snippet_Language := "en" |}]
               (fun _ => Ok {| chunks := ["Hello, "; "world."];
                               read_error := None |}))
            "abc123" {| remote_world := tt; disk := small_disk 5; steps := [] |}) =
       Ok (sanitizedTitle, body) /\
     "error writing transcript: no space left on device" =
       "error writing transcript: " ++ e /\
     (forall p,
        p <> slash_join "outputs" (transcriptName "abc123" sanitizedTitle) ->
        contents
          (disk (fst (DownloadTranscript
                        (captioned "Talk"
                           [{| Caption_Id := "c-en"; Snippet_Language := "en" |}]
                           (fun _ => Ok {| chunks := ["Hello, "; "world."];
                                           read_error := None |}))
                        slash_join "abc123" "outputs"
                        {| remote_world := tt; disk := small_disk 5; steps := [] |})))
          p = contents (small_disk 5) p) /\
     ((read_error body = Some e /\
       contents
         (disk (fst (DownloadTranscript
                       (captioned "Talk"
                          [{| Caption_Id := "c-en"; Snippet_Language := "en" |}]
                          (fun _ => Ok {| chunks := ["Hello, "; "world."];
                                          read_error := None |}))
                       slash_join "abc123" "outputs"
                       {| remote_world := tt; disk := small_disk 5; steps := [] |})))
         (slash_join "outputs" (transcriptName "abc123" sanitizedTitle)) =
         Some (String.concat "" (chunks body))) \/
      (exists n,
         write_limit (small_disk 5)
           (slash_join "outputs" (transcriptName "abc123" sanitizedTitle)) =
           Some (n, e) /\
         (n < String.length (String.concat "" (chunks body)))%nat /\
         contents
           (disk (fst (DownloadTranscript
                         (captioned "Talk"
                            [{| Caption_Id := "c-en"; Snippet_Language := "en" |}]
                            (fun _ => Ok {| chunks := ["Hello, "; "world."];
                                            read_error := None |}))
                         slash_join "abc123" "outputs"
                         {| remote_world := tt; disk := small_disk 5; steps := [] |})))
           (slash_join "outputs" (transcriptName "abc123" sanitizedTitle)) =
           Some (substring 0 n (String.concat "" (chunks body)))))).
Proof.
  split; [reflexivity|]. split; [reflexivity|].
  apply (DownloadTranscript_error_keeps_disk
           (captioned "Talk" [{| Caption_Id := "c-en"; Snippet_Language := "en" |}]
              (fun _ => Ok {| chunks := ["Hello, "; "world."]; read_error := None |}))
           slash_join "abc123" "outputs"
           {| remote_world := tt; disk := small_disk 5; steps := [] |}).
  reflexivity.
Defined.

End TranscriptsFacts.
